(** * JSON-RPC aggregator: endpoint pool, balancers, health checker, router

    A shallow embedding of the TypeScript sources
      - src/pool.ts      (class RpcPool)
      - src/balancer.ts  (the four LoadBalancer subclasses)
      - src/health.ts    (HealthChecker.checkEndpoint)
      - src/router.ts    (Router.routeSingle and its helpers)
    followed by the properties established about them.

    Conventions.
      - A JS [number] holding a count, a weight, a timestamp or a
        duration in milliseconds is a [Z]; [avgResponseTime], which is
        multiplied by 0.8 and 0.2, is a [Q] (exact arithmetic).
      - A JS [number] is a binary64 value.  Integers up to 2^53 in
        magnitude are all binary64 values and their sums and
        differences within that range are exact; [Binary64] gives the
        rounding beyond it, and the weighted balancer, whose weight
        level outlives the list it was set from, is given with it
        ([wrrAdvance64]).
      - Array positions and lengths are [nat].
      - [Date.now()] is an explicit argument [now].
      - The JS [Map] of the pool keeps insertion order, which the
        balancers observe through [getHealthyEndpoints]; it is an
        association list with the [Map] update discipline.
      - [console.log] calls are not modelled. *)

From Stdlib Require Import List ZArith QArith Qround Bool Arith Lia String Ascii.
From Stdlib Require Import Permutation Sorted DecimalString Lqa.
From Stdlib Require Floats Uint63.
Import ListNotations.

Set Warnings "-register-all".
Local Open Scope Z_scope.

(* ------------------------------------------------------------------ *)
(** ** types.ts *)

Record RpcConfig := mkRpcConfig {
  cfg_url : string;
  cfg_weight : Z
}.

Record RpcEndpoint := mkRpcEndpoint {
  url : string;
  weight : Z;
  healthy : bool;
  lastCheck : Z;
  avgResponseTime : Q;
  failureCount : Z;
  successCount : Z;
  consecutiveFailures : Z;
  consecutiveSuccesses : Z
}.

Record HealthCheckConfig := mkHealthCheckConfig {
  hc_enabled : bool;
  hc_interval : Z;
  hc_timeout : Z;
  unhealthyThreshold : Z;
  healthyThreshold : Z
}.

Record LoadBalancingConfig := mkLoadBalancingConfig {
  retries : Z;
  retryDelay : Z;
  lb_timeout : Z
}.

(* ------------------------------------------------------------------ *)
(** ** pool.ts *)

Module Pool.

(** [Map<string, RpcEndpoint>]: keys are unique, iteration follows
    insertion order, [set] on a present key replaces the value in
    place, on an absent key appends. *)
Definition t := list (string * RpcEndpoint).

Fixpoint get (m : t) (k : string) : option RpcEndpoint :=
  match m with
  | [] => None
  | (k', v) :: m' => if String.eqb k k' then Some v else get m' k
  end.

Fixpoint set (m : t) (k : string) (v : RpcEndpoint) : t :=
  match m with
  | [] => [(k, v)]
  | (k', v') :: m' =>
      if String.eqb k k' then (k, v) :: m' else (k', v') :: set m' k v
  end.

(** [Map.delete]: the new map and whether the key was present. *)
Fixpoint delete (m : t) (k : string) : t * bool :=
  match m with
  | [] => ([], false)
  | (k', v') :: m' =>
      if String.eqb k k' then (m', true)
      else let (r, b) := delete m' k in ((k', v') :: r, b)
  end.

(** The methods that do [const endpoint = this.endpoints.get(url);
    if (!endpoint) return;] and then assign fields of [endpoint]
    mutate the stored object: the entry is rewritten in place and an
    unknown url leaves the map as it is. *)
Fixpoint modify (m : t) (k : string) (f : RpcEndpoint -> RpcEndpoint) : t :=
  match m with
  | [] => []
  | (k', v) :: m' =>
      if String.eqb k k' then (k', f v) :: m' else (k', v) :: modify m' k f
  end.

Definition addEndpoint (now : Z) (p : t) (rpc : RpcConfig) : t :=
  set p (cfg_url rpc)
    {| url := cfg_url rpc;
       weight := cfg_weight rpc;
       healthy := true;
       lastCheck := now;
       avgResponseTime := 0%Q;
       failureCount := 0;
       successCount := 0;
       consecutiveFailures := 0;
       consecutiveSuccesses := 0 |}.

(** [constructor(rpcs)]: [addEndpoint] for each configuration entry,
    in order. *)
Definition create (now : Z) (rpcs : list RpcConfig) : t :=
  fold_left (addEndpoint now) rpcs [].

Definition removeEndpoint (p : t) (u : string) : t * bool := delete p u.

Definition getEndpoint (p : t) (u : string) : option RpcEndpoint := get p u.

Definition getAllEndpoints (p : t) : list RpcEndpoint := map snd p.

Definition getHealthyEndpoints (p : t) : list RpcEndpoint :=
  filter healthy (getAllEndpoints p).

(** The body of [recordSuccess] on the endpoint object.  The average
    is computed exactly; the code's products and sum are each rounded
    to binary64. *)
Definition onSuccess (now responseTime : Z) (e : RpcEndpoint) : RpcEndpoint :=
  {| url := url e;
     weight := weight e;
     healthy := healthy e;
     lastCheck := now;
     avgResponseTime :=
       if Qeq_bool (avgResponseTime e) 0
       then inject_Z responseTime
       else (avgResponseTime e * (8 # 10) + inject_Z responseTime * (2 # 10))%Q;
     failureCount := failureCount e;
     successCount := successCount e + 1;
     consecutiveFailures := 0;
     consecutiveSuccesses := consecutiveSuccesses e + 1 |}.

Definition recordSuccess (now : Z) (p : t) (u : string) (responseTime : Z) : t :=
  modify p u (onSuccess now responseTime).

(** The body of [recordFailure] on the endpoint object. *)
Definition onFailure (now : Z) (e : RpcEndpoint) : RpcEndpoint :=
  {| url := url e;
     weight := weight e;
     healthy := healthy e;
     lastCheck := now;
     avgResponseTime := avgResponseTime e;
     failureCount := failureCount e + 1;
     successCount := successCount e;
     consecutiveFailures := consecutiveFailures e + 1;
     consecutiveSuccesses := 0 |}.

Definition recordFailure (now : Z) (p : t) (u : string) : t :=
  modify p u (onFailure now).

Definition onMarkUnhealthy (e : RpcEndpoint) : RpcEndpoint :=
  {| url := url e;
     weight := weight e;
     healthy := false;
     lastCheck := lastCheck e;
     avgResponseTime := avgResponseTime e;
     failureCount := failureCount e;
     successCount := successCount e;
     consecutiveFailures := consecutiveFailures e;
     consecutiveSuccesses := consecutiveSuccesses e |}.

Definition markUnhealthy (p : t) (u : string) : t := modify p u onMarkUnhealthy.

Definition onMarkHealthy (e : RpcEndpoint) : RpcEndpoint :=
  {| url := url e;
     weight := weight e;
     healthy := true;
     lastCheck := lastCheck e;
     avgResponseTime := avgResponseTime e;
     failureCount := failureCount e;
     successCount := successCount e;
     consecutiveFailures := 0;
     consecutiveSuccesses := consecutiveSuccesses e |}.

Definition markHealthy (p : t) (u : string) : t := modify p u onMarkHealthy.

Definition getHealthyCount (p : t) : Z :=
  Z.of_nat (List.length (getHealthyEndpoints p)).

Definition getTotalCount (p : t) : Z := Z.of_nat (List.length p).

(** The six mutators, as commands, and a pool's life as a run of them
    from construction. *)
Inductive op :=
| OpAdd (now : Z) (rpc : RpcConfig)
| OpRemove (u : string)
| OpRecordSuccess (now : Z) (u : string) (responseTime : Z)
| OpRecordFailure (now : Z) (u : string)
| OpMarkHealthy (u : string)
| OpMarkUnhealthy (u : string).

Definition apply (p : t) (o : op) : t :=
  match o with
  | OpAdd now rpc => addEndpoint now p rpc
  | OpRemove u => fst (removeEndpoint p u)
  | OpRecordSuccess now u rt => recordSuccess now p u rt
  | OpRecordFailure now u => recordFailure now p u
  | OpMarkHealthy u => markHealthy p u
  | OpMarkUnhealthy u => markUnhealthy p u
  end.

Definition run (p : t) (ops : list op) : t := fold_left apply ops p.

(** The streak counters of one endpoint exclude each other. *)
Definition streaksExclusive (e : RpcEndpoint) : Prop :=
  (consecutiveSuccesses e > 0 -> consecutiveFailures e = 0) /\
  (consecutiveFailures e > 0 -> consecutiveSuccesses e = 0).

End Pool.

(* ------------------------------------------------------------------ *)
(** ** JSON values, as [response.json()] delivers them *)

Module Json.

(** A parsed JSON document.  An object is the list of its own
    members, each key once (the parser keeps one value per key). *)
Inductive value :=
| JNull
| JBool (b : bool)
| JNumber (q : Q)
| JString (s : string)
| JArray (items : list value)
| JObject (members : list (string * value)).

(** JS truthiness: [null], [false], [0] and the empty string are
    falsy; arrays and objects are truthy. *)
Definition truthy (v : value) : bool :=
  match v with
  | JNull => false
  | JBool b => b
  | JNumber q => negb (Qeq_bool q 0)
  | JString s => negb (String.eqb s "")
  | JArray _ => true
  | JObject _ => true
  end.

Fixpoint lookup (ms : list (string * value)) (k : string) : option value :=
  match ms with
  | [] => None
  | (k', v) :: ms' => if String.eqb k k' then Some v else lookup ms' k
  end.

(** The outcome of a property read [v.k]. *)
Inductive read :=
| Throws                 (* TypeError: [v] is null *)
| Undefined
| Got (v : value).

(** [v.k] for the keys the sources read ("jsonrpc", "result",
    "error", "code", "message"): present members of an object, and
    [undefined] on arrays and primitives, which have no such
    property. *)
Definition prop (v : value) (k : string) : read :=
  match v with
  | JNull => Throws
  | JObject ms => match lookup ms k with Some x => Got x | None => Undefined end
  | _ => Undefined
  end.

(** Truthiness of a property read that did not throw. *)
Definition readTruthy (r : read) : bool :=
  match r with
  | Got v => truthy v
  | _ => false
  end.

(** ["k" in v] for a [v] with [typeof v === "object"]. *)
Definition hasKey (v : value) (k : string) : bool :=
  match v with
  | JObject ms => match lookup ms k with Some _ => true | None => false end
  | _ => false
  end.

Definition isObjectType (v : value) : bool :=
  match v with
  | JArray _ | JObject _ | JNull => true
  | _ => false
  end.

(** [String.prototype.toLowerCase] on the ASCII letters. *)
Definition lowerAscii (c : ascii) : ascii :=
  let n := nat_of_ascii c in
  if (andb (Nat.leb 65 n) (Nat.leb n 90)) then ascii_of_nat (n + 32) else c.

Fixpoint toLowerCase (s : string) : string :=
  match s with
  | EmptyString => EmptyString
  | String c s' => String (lowerAscii c) (toLowerCase s')
  end.

(** [hay.includes(needle)]. *)
Fixpoint includes (hay needle : string) : bool :=
  if String.prefix needle hay then true
  else match hay with
       | EmptyString => false
       | String _ hay' => includes hay' needle
       end.

End Json.

(** What one upstream HTTP exchange ([fetch] then [response.json()])
    comes to. *)
Inductive HttpOutcome :=
| FetchRejected (message : string)
    (* network failure, or the AbortController firing on timeout *)
| HttpReply (status : Z) (statusText : string) (body : string + Json.value).
    (* [inl m]: [response.json()] rejects with message [m] *)

(** [response.ok] *)
Definition responseOk (status : Z) : bool :=
  (200 <=? status) && (status <=? 299).

(* ------------------------------------------------------------------ *)
(** ** JS numbers that hold integers *)

Module Binary64.

(** The range in which every integer is a binary64 value. *)
Definition exact (z : Z) : Prop := - 2 ^ 53 <= z <= 2 ^ 53.

(** The binary64 value nearest to the integer [z], ties going to the
    even significand: what an arithmetic operation whose exact result
    is [z] returns (magnitudes below 2^1024).  From 2^53 on, the
    values in [2^e, 2^(e+1)] are the multiples of 2^(e-52). *)
Definition nearest (z : Z) : Z :=
  let a := Z.abs z in
  if a <? 2 ^ 53 then z
  else
    let q := 2 ^ (Z.log2 a - 52) in
    let m := a / q in
    let r := a mod q in
    let m' := if 2 * r <? q then m
              else if q <? 2 * r then m + 1
              else if Z.even m then m else m + 1 in
    Z.sgn z * (m' * q).

(** [x - 1] on a number that holds the integer [x]. *)
Definition minusOne (x : Z) : Z := nearest (x - 1).

(** The primitive binary64 number holding [z], for [z] a binary64
    value below 2^63 in magnitude. *)
Definition asFloat (z : Z) : PrimFloat.float :=
  if z <? 0 then PrimFloat.opp (PrimFloat.of_uint63 (Uint63.of_Z (- z)))
  else PrimFloat.of_uint63 (Uint63.of_Z z).

(** Whether [minusOne x] is what the hardware subtraction gives. *)
Definition agrees (x : Z) : bool :=
  PrimFloat.eqb (PrimFloat.sub (asFloat x) PrimFloat.one) (asFloat (minusOne x)).

End Binary64.

(* ------------------------------------------------------------------ *)
(** ** balancer.ts *)

Module Balancer.

(** *** RoundRobinBalancer *)

Definition rrSelect (healthy : list RpcEndpoint) (currentIndex : nat)
  : option RpcEndpoint * nat :=
  match healthy with
  | [] => (None, currentIndex)
  | _ :: _ =>
      let len := List.length healthy in
      (nth_error healthy (currentIndex mod len)%nat,
       ((currentIndex + 1) mod len)%nat)
  end.

Definition rrSelectEndpoint (p : Pool.t) (currentIndex : nat) :=
  rrSelect (Pool.getHealthyEndpoints p) currentIndex.

(** [n] successive calls over an unchanging healthy list: the
    endpoints returned, in order, and the final cursor. *)
Fixpoint rrCalls (n : nat) (healthy : list RpcEndpoint) (currentIndex : nat)
  : list (option RpcEndpoint) * nat :=
  match n with
  | O => ([], currentIndex)
  | S n' =>
      let (r, c) := rrSelect healthy currentIndex in
      let (rs, c') := rrCalls n' healthy c in
      (r :: rs, c')
  end.

(** *** WeightedRoundRobinBalancer *)

Record WrrState := mkWrr {
  currentIndex : nat;
  currentWeight : Z
}.

Definition wrrInitial : WrrState := mkWrr 0 0.

(** [Math.max(...healthy.map(ep => ep.weight))], for the non-empty
    list the method has at that point. *)
Definition maxWeight (healthy : list RpcEndpoint) : Z :=
  match healthy with
  | [] => 0
  | e :: rest => fold_left Z.max (map weight rest) (weight e)
  end.

(** The assignments at the head of the loop body: the cursor moves
    on and, when it wraps, the weight level drops or is reset.  The
    subtraction is the integer one, which is the code's for a level of
    magnitude up to 2^53; [wrrAdvance64] below is the code's for every
    level. *)
Definition wrrAdvance (len : nat) (maxW : Z) (st : WrrState) : WrrState :=
  let i := ((currentIndex st + 1) mod len)%nat in
  if Nat.eqb i 0 then
    let w := currentWeight st - 1 in
    mkWrr i (if w <=? 0 then maxW else w)
  else mkWrr i (currentWeight st).

(** The test at the foot of the loop body, on the advanced state. *)
Definition wrrAccepts (healthy : list RpcEndpoint) (st : WrrState) : bool :=
  match nth_error healthy (currentIndex st) with
  | Some ep => weight ep >=? currentWeight st
  | None => false
  end.

(** [while (true) { ... }], [fuel] iterations of it at most; [None]
    when they do not suffice. *)
Fixpoint wrrLoop (fuel : nat) (healthy : list RpcEndpoint) (maxW : Z)
         (st : WrrState) : option (RpcEndpoint * WrrState) :=
  match fuel with
  | O => None
  | S fuel' =>
      let st' := wrrAdvance (List.length healthy) maxW st in
      match nth_error healthy (currentIndex st') with
      | Some ep =>
          if weight ep >=? currentWeight st' then Some (ep, st')
          else wrrLoop fuel' healthy maxW st'
      | None => wrrLoop fuel' healthy maxW st'
      end
  end.

(** [selectEndpoint()] on a healthy snapshot; the outer [option] is
    [None] when the loop was cut short by [fuel]. *)
Definition wrrSelect (fuel : nat) (healthy : list RpcEndpoint) (st : WrrState)
  : option (option RpcEndpoint * WrrState) :=
  match healthy with
  | [] => Some (None, st)
  | _ :: _ =>
      match wrrLoop fuel healthy (maxWeight healthy) st with
      | Some (ep, st') => Some (Some ep, st')
      | None => None
      end
  end.

Definition wrrSelectEndpoint (fuel : nat) (p : Pool.t) (st : WrrState) :=
  wrrSelect fuel (Pool.getHealthyEndpoints p) st.

(** [n] successive calls over an unchanging healthy list: the
    position in [healthy] of each endpoint returned, in order, and
    the final state. *)
Fixpoint wrrCalls (fuel n : nat) (healthy : list RpcEndpoint) (st : WrrState)
  : option (list nat * WrrState) :=
  match n with
  | O => Some ([], st)
  | S n' =>
      match wrrLoop fuel healthy (maxWeight healthy) st with
      | None => None
      | Some (_, st1) =>
          match wrrCalls fuel n' healthy st1 with
          | None => None
          | Some (picks, st2) => Some (currentIndex st1 :: picks, st2)
          end
      end
  end.

(** The same method with [this.currentWeight - 1] as the binary64
    subtraction it is.  The level is a field of the balancer: it
    outlives the healthy list it was set from and can exceed every
    weight of the list at hand. *)
Definition wrrAdvance64 (len : nat) (maxW : Z) (st : WrrState) : WrrState :=
  let i := ((currentIndex st + 1) mod len)%nat in
  if Nat.eqb i 0 then
    let w := Binary64.minusOne (currentWeight st) in
    mkWrr i (if w <=? 0 then maxW else w)
  else mkWrr i (currentWeight st).

Fixpoint wrrLoop64 (fuel : nat) (healthy : list RpcEndpoint) (maxW : Z)
         (st : WrrState) : option (RpcEndpoint * WrrState) :=
  match fuel with
  | O => None
  | S fuel' =>
      let st' := wrrAdvance64 (List.length healthy) maxW st in
      match nth_error healthy (currentIndex st') with
      | Some ep =>
          if weight ep >=? currentWeight st' then Some (ep, st')
          else wrrLoop64 fuel' healthy maxW st'
      | None => wrrLoop64 fuel' healthy maxW st'
      end
  end.

Definition wrrSelect64 (fuel : nat) (healthy : list RpcEndpoint) (st : WrrState)
  : option (option RpcEndpoint * WrrState) :=
  match healthy with
  | [] => Some (None, st)
  | _ :: _ =>
      match wrrLoop64 fuel healthy (maxWeight healthy) st with
      | Some (ep, st') => Some (Some ep, st')
      | None => None
      end
  end.

Definition wrrSelectEndpoint64 (fuel : nat) (p : Pool.t) (st : WrrState) :=
  wrrSelect64 fuel (Pool.getHealthyEndpoints p) st.

(** *** RandomBalancer; [r] is the value of [Math.random()], in [0,1).
    The product is taken exactly; the code rounds it to binary64
    before [Math.floor], which can move the index by one but not out
    of the list. *)

Definition randomSelect (healthy : list RpcEndpoint) (r : Q) : option RpcEndpoint :=
  match healthy with
  | [] => None
  | _ :: _ =>
      let randomIndex := Qfloor (r * inject_Z (Z.of_nat (List.length healthy))) in
      if randomIndex <? 0 then None else nth_error healthy (Z.to_nat randomIndex)
  end.

(** *** LatencyBasedBalancer *)

(** The comparator handed to [sort]. *)
Definition latencyCompare (a b : RpcEndpoint) : Q :=
  if Qeq_bool (avgResponseTime a) 0 then 1%Q
  else if Qeq_bool (avgResponseTime b) 0 then (-1)%Q
  else (avgResponseTime a - avgResponseTime b)%Q.

Definition negative (q : Q) : bool := negb (Qle_bool 0 q).

(** [Array.prototype.sort(cmp)] is a stable merge/insertion sort: an
    element is moved ahead of one that precedes it only when [cmp],
    called on (later, earlier), is negative.  Modelled as insertion,
    left to right, into the sorted prefix. *)
Fixpoint insertBy {A} (cmp : A -> A -> Q) (x : A) (sorted : list A) : list A :=
  match sorted with
  | [] => [x]
  | y :: rest =>
      if negative (cmp x y) then x :: y :: rest
      else y :: insertBy cmp x rest
  end.

Definition sortBy {A} (cmp : A -> A -> Q) (l : list A) : list A :=
  fold_left (fun acc x => insertBy cmp x acc) l [].

Definition latencySelect (healthy : list RpcEndpoint) : option RpcEndpoint :=
  match healthy with
  | [] => None
  | _ :: _ => nth_error (sortBy latencyCompare healthy) 0
  end.

Definition latencySelectEndpoint (p : Pool.t) : option RpcEndpoint :=
  latencySelect (Pool.getHealthyEndpoints p).

End Balancer.

(* ------------------------------------------------------------------ *)
(** ** health.ts *)

Module Health.

(** The [try] block of [checkEndpoint] up to the metric update: does
    it reach [recordSuccess] ([true]) or throw into the [catch]
    ([false])?
      - [fetch] rejecting throws;
      - [!response.ok] throws;
      - [response.json()] rejecting throws;
      - reading [data.jsonrpc] of [null] throws;
      - [data.jsonrpc !== "2.0" || (data.error && !data.result)] throws. *)
Definition probeSucceeds (o : HttpOutcome) : bool :=
  match o with
  | FetchRejected _ => false
  | HttpReply status _ body =>
      if negb (responseOk status) then false
      else
        match body with
        | inl _ => false
        | inr data =>
            match Json.prop data "jsonrpc" with
            | Json.Throws => false
            | Json.Undefined => false
            | Json.Got v =>
                match v with
                | Json.JString s =>
                    if negb (String.eqb s "2.0") then false
                    else
                      negb (Json.readTruthy (Json.prop data "error")
                            && negb (Json.readTruthy (Json.prop data "result")))
                | _ => false
                end
            end
        end
  end.

(** One probe of [u], from the moment [fetch] settles: the probe's
    outcome [o], the measured [responseTime] and the clock [now] are
    given; the pool is updated as [checkEndpoint] does. *)
Definition checkEndpoint (config : HealthCheckConfig) (now responseTime : Z)
           (p : Pool.t) (u : string) (o : HttpOutcome) : Pool.t :=
  if probeSucceeds o then
    let p1 := Pool.recordSuccess now p u responseTime in
    match Pool.getEndpoint p1 u with
    | None => p1
    | Some endpoint =>
        if consecutiveSuccesses endpoint >=? healthyThreshold config
        then Pool.markHealthy p1 u
        else p1
    end
  else
    let p1 := Pool.recordFailure now p u in
    match Pool.getEndpoint p1 u with
    | None => p1
    | Some endpoint =>
        if consecutiveFailures endpoint >=? unhealthyThreshold config
        then Pool.markUnhealthy p1 u
        else p1
    end.

(** A probe as the checker's step on the pool: its outcome, with the
    two clock readings. *)
Record probe := mkProbe {
  pr_outcome : HttpOutcome;
  pr_responseTime : Z;
  pr_now : Z
}.

Definition step (config : HealthCheckConfig) (u : string) (p : Pool.t) (x : probe)
  : Pool.t :=
  checkEndpoint config (pr_now x) (pr_responseTime x) p u (pr_outcome x).

Definition steps (config : HealthCheckConfig) (u : string) (p : Pool.t)
           (xs : list probe) : Pool.t :=
  fold_left (step config u) xs p.

(** The longest run of failed probes that ends a probe sequence. *)
Fixpoint trailingFailures (xs : list probe) (acc : Z) : Z :=
  match xs with
  | [] => acc
  | x :: xs' =>
      trailingFailures xs' (if probeSucceeds (pr_outcome x) then 0 else acc + 1)
  end.

(** Does the sequence, entered with [acc] failures in a row, ever
    reach [k] failures in a row? *)
Fixpoint reachesStreak (k : Z) (xs : list probe) (acc : Z) : bool :=
  match xs with
  | [] => false
  | x :: xs' =>
      let acc' := if probeSucceeds (pr_outcome x) then 0 else acc + 1 in
      (k <=? acc') || reachesStreak k xs' acc'
  end.

End Health.

(* ------------------------------------------------------------------ *)
(** ** router.ts *)

Module Router.

(** The abstract class [LoadBalancer]: one capability, reading the
    pool and updating the balancer's own cursor state. *)
Class LoadBalancer (B : Type) := {
  selectEndpoint : Pool.t -> B -> option RpcEndpoint * B
}.

#[global] Instance RoundRobinBalancer : LoadBalancer nat :=
  {| selectEndpoint := Balancer.rrSelectEndpoint |}.

#[global] Instance LatencyBasedBalancer : LoadBalancer unit :=
  {| selectEndpoint p b := (Balancer.latencySelectEndpoint p, b) |}.

(** A request; [id] absent is [None]. *)
Record JsonRpcRequest := mkRequest {
  method : string;
  params : option Json.value;
  id : option Json.value
}.

(** The router object together with the pool and balancer it holds. *)
Record state (B : Type) := mkState {
  requestCount : Z;
  successCount : Z;
  failureCount : Z;
  pool : Pool.t;
  balancer : B
}.
Arguments mkState {B}.
Arguments requestCount {B}.
Arguments successCount {B}.
Arguments failureCount {B}.
Arguments pool {B}.
Arguments balancer {B}.

(** One upstream exchange as the router sees it: what the HTTP call
    came to, [Date.now() - startTime], and the clock at the metric
    update. *)
Record exchange := mkExchange {
  ex_outcome : HttpOutcome;
  ex_duration : Z;
  ex_now : Z
}.

(** What [routeSingle] does to the outside, in order. *)
Inductive event :=
| Forwarded (attempt : Z) (u : string)
| Slept (ms : Z).

(** Text of the TypeError raised by calling [toLowerCase] on a
    message that is not a string.  The wording is the engine's (this
    is V8's; JavaScriptCore, under Bun, words it differently); it is
    only ever carried as [lastError]. *)
Definition typeErrorMessage : string :=
  "error.message?.toLowerCase is not a function".

Definition statusString (status : Z) : string :=
  NilZero.string_of_int (Z.to_int status).

(** [forwardRequest], after [fetch] settled: the thrown message or
    the returned body. *)
Definition forwardRequest (o : HttpOutcome) : string + Json.value :=
  match o with
  | FetchRejected m => inl m
  | HttpReply status statusText body =>
      if negb (responseOk status)
      then inl ("HTTP " ++ statusString status ++ ": " ++ statusText)%string
      else
        match body with
        | inl m => inl m
        | inr data =>
            if negb (Json.truthy data) || negb (Json.isObjectType data)
            then inl "Invalid JSON-RPC response: not an object"%string
            else if negb (Json.hasKey data "result") && negb (Json.hasKey data "error")
            then inl "Invalid JSON-RPC response: missing result or error"%string
            else inr data
        end
  end.

Definition codeIs (r : Json.read) (c : Z) : bool :=
  match r with
  | Json.Got (Json.JNumber q) => Qeq_bool q (inject_Z c)
  | _ => false
  end.

(** [isRateLimitError]; [None] when it throws. *)
Definition isRateLimitError (error : Json.value) : option bool :=
  match Json.prop error "code" with
  | Json.Throws => None
  | code =>
      if codeIs code (-32005) || codeIs code (-32016) then Some true
      else
        let check (message : string) :=
          Json.includes message "rate limit"
          || Json.includes message "too many requests" in
        match Json.prop error "message" with
        | Json.Throws => None
        | Json.Undefined => Some (check ""%string)
        | Json.Got Json.JNull => Some (check ""%string)
        | Json.Got (Json.JString s) => Some (check (Json.toLowerCase s))
        | Json.Got _ => None
        end
  end.

(** [request.id ?? null] *)
Definition idOrNull (r : JsonRpcRequest) : Json.value :=
  match id r with
  | None => Json.JNull
  | Some v => v
  end.

Definition createErrorResponse (i : Json.value) (error : Json.value) : Json.value :=
  Json.JObject [("jsonrpc", Json.JString "2.0"); ("error", error); ("id", i)]%string.

Definition unavailableError (healthyEndpoints : Z) : Json.value :=
  Json.JObject
    [("code", Json.JNumber (inject_Z (-32603)));
     ("message", Json.JString "All RPC endpoints unavailable");
     ("data", Json.JObject
                [("aggregator", Json.JBool true);
                 ("retriesExhausted", Json.JBool true);
                 ("healthyEndpoints", Json.JNumber (inject_Z healthyEndpoints))])]%string.

(** [lastError?.message] is [undefined] when no attempt was made; the
    member is then left out. *)
Definition exhaustedError (lastError : option string) : Json.value :=
  Json.JObject
    [("code", Json.JNumber (inject_Z (-32603)));
     ("message", Json.JString "Request failed after all retries");
     ("data", Json.JObject
                ([("aggregator", Json.JBool true);
                  ("retriesExhausted", Json.JBool true)]
                 ++ match lastError with
                    | Some m => [("lastError", Json.JString m)]
                    | None => []
                    end))]%string.

Section RouteSingle.

Context {B : Type} `{LoadBalancer B}.
Variable config : LoadBalancingConfig.
(** The upstreams: what attempt number [attempt], sent to [u],
    comes to. *)
Variable upstream : Z -> string -> exchange.
Variable request : JsonRpcRequest.

Definition maxAttempts : Z := retries config + 1.

(** [this.successCount++; this.pool.recordSuccess(...); return response] *)
Definition passThrough (st : state B) (p : Pool.t) (b : B) (u : string)
           (x : exchange) (response : Json.value) : Json.value * state B :=
  (response,
   mkState (requestCount st) (successCount st + 1) (failureCount st)
           (Pool.recordSuccess (ex_now x) p u (ex_duration x)) b).

(** The [for] loop from iteration [attempt] on, [remaining]
    iterations being left ([attempt + remaining = maxAttempts + 1]),
    and the code after the loop.  This is one call running alone: what
    other calls and the health checker do to the pool while this one
    awaits [fetch] or [sleep] is outside the model. *)
Fixpoint attempts (remaining : nat) (attempt : Z) (lastError : option string)
         (st : state B) : Json.value * state B * list event :=
  match remaining with
  | O =>
      (createErrorResponse (idOrNull request) (exhaustedError lastError),
       mkState (requestCount st) (successCount st) (failureCount st + 1)
               (pool st) (balancer st),
       [])
  | S remaining' =>
      let (selected, b) := selectEndpoint (pool st) (balancer st) in
      match selected with
      | None =>
          (createErrorResponse (idOrNull request)
             (unavailableError (Pool.getHealthyCount (pool st))),
           mkState (requestCount st) (successCount st) (failureCount st + 1)
                   (pool st) b,
           [])
      | Some endpoint =>
          let u := url endpoint in
          let x := upstream attempt u in
          let thrown (message : string) :=
            let st1 := mkState (requestCount st) (successCount st) (failureCount st)
                               (Pool.recordFailure (ex_now x) (pool st) u) b in
            let '(r, st2, evs) := attempts remaining' (attempt + 1) (Some message) st1 in
            (r, st2,
             Forwarded attempt u ::
             (if attempt <? maxAttempts then [Slept (retryDelay config)] else [])
             ++ evs) in
          let returned (p : Pool.t) (response : Json.value) :=
            let (r, st1) := passThrough st p b u x response in
            (r, st1, [Forwarded attempt u]) in
          match forwardRequest (ex_outcome x) with
          | inl message => thrown message
          | inr response =>
              match Json.prop response "error" with
              | Json.Got error =>
                  if Json.truthy error then
                    match isRateLimitError error with
                    | None => thrown typeErrorMessage
                    | Some true =>
                        let p1 := Pool.recordFailure (ex_now x) (pool st) u in
                        if attempt <? maxAttempts then
                          let st1 := mkState (requestCount st) (successCount st)
                                             (failureCount st) p1 b in
                          let '(r, st2, evs) :=
                            attempts remaining' (attempt + 1) lastError st1 in
                          (r, st2,
                           Forwarded attempt u :: Slept (retryDelay config) :: evs)
                        else returned p1 response
                    | Some false => returned (pool st) response
                    end
                  else returned (pool st) response
              | Json.Undefined => returned (pool st) response
              | Json.Throws => thrown typeErrorMessage
              end
          end
      end
  end.

Definition routeSingle (st : state B) : Json.value * state B * list event :=
  attempts (Z.to_nat maxAttempts) 1 None
    (mkState (requestCount st + 1) (successCount st) (failureCount st)
             (pool st) (balancer st)).

End RouteSingle.

End Router.

(* ------------------------------------------------------------------ *)
(** ** Reference definitions taken from the specification's wording,
       to be compared with the code above *)

Module Spec.

(** "first sample sets it directly; subsequent samples apply
    avg = avg*0.8 + sample*0.2": the average after a sequence of
    recorded samples, oldest first; 0 before any sample. *)
Fixpoint averageFrom (avg : Q) (samples : list Z) : Q :=
  match samples with
  | [] => avg
  | s :: rest => averageFrom (avg * (8 # 10) + inject_Z s * (2 # 10))%Q rest
  end.

Definition average (samples : list Z) : Q :=
  match samples with
  | [] => 0%Q
  | s :: rest => averageFrom (inject_Z s) rest
  end.

(** "HTTP 2xx, a parseable JSON-RPC envelope with jsonrpc == "2.0",
    and not (error present AND result absent)", with "present" and
    "absent" read as membership in the body. *)
Definition probeSuccess (o : HttpOutcome) : bool :=
  match o with
  | HttpReply status _ (inr (Json.JObject ms)) =>
      responseOk status
      && match Json.lookup ms "jsonrpc" with
         | Some (Json.JString s) => String.eqb s "2.0"
         | _ => false
         end
      && negb (Json.hasKey (Json.JObject ms) "error"
               && negb (Json.hasKey (Json.JObject ms) "result"))
  | _ => false
  end.

End Spec.

(* ------------------------------------------------------------------ *)
(** ** Notions used to state and prove the properties *)

Module Analysis.

Import Pool Balancer.

(** The endpoint's lifetime failure counter, under a name that the
    router's counter of the same name does not hide. *)
Definition endpointFailures (e : RpcEndpoint) : Z := failureCount e.

(** Likewise the endpoint's lifetime success counter. *)
Definition endpointSuccesses (e : RpcEndpoint) : Z := successCount e.

(** What a failed probe does to the probed endpoint. *)
Definition afterFailure (config : HealthCheckConfig) (now : Z) (e : RpcEndpoint)
  : RpcEndpoint :=
  if consecutiveFailures e + 1 >=? unhealthyThreshold config
  then onMarkUnhealthy (onFailure now e)
  else onFailure now e.

(** What a successful probe does to the probed endpoint. *)
Definition afterSuccess (config : HealthCheckConfig) (now rt : Z) (e : RpcEndpoint)
  : RpcEndpoint :=
  if consecutiveSuccesses e + 1 >=? healthyThreshold config
  then onMarkHealthy (onSuccess now rt e)
  else onSuccess now rt e.

(** "Ascending by avgResponseTime, the endpoints at 0 last": [a] may
    stand before [b]. *)
Definition latencyLe (a b : RpcEndpoint) : Prop :=
  (avgResponseTime b == 0)%Q
  \/ (~ (avgResponseTime a == 0)%Q
      /\ (avgResponseTime a <= avgResponseTime b)%Q).

(** [sum(wi)] *)
Definition totalWeight (healthy : list RpcEndpoint) : Z :=
  fold_right Z.add 0 (map weight healthy).

Definition weightAt (healthy : list RpcEndpoint) (i : nat) : Z :=
  match nth_error healthy i with
  | Some e => weight e
  | None => 0
  end.

(** The states the balancer is in over an unchanging snapshot: the
    cursor inside the list, the level between 0 (the initial value) and
    the maximum weight. *)
Definition inCycle (healthy : list RpcEndpoint) (st : WrrState) : Prop :=
  (currentIndex st < List.length healthy)%nat
  /\ 0 <= currentWeight st <= maxWeight healthy.

(** The loop body sweeps the levels from the maximum weight down to 1
    and, at each level, the positions from 0 up: [position] is the rank
    of a state in that sweep (level 0 behaves as level 1). *)
Definition position (healthy : list RpcEndpoint) (st : WrrState) : Z :=
  (maxWeight healthy - Z.max (currentWeight st) 1) * Z.of_nat (List.length healthy)
  + Z.of_nat (currentIndex st).

Definition period (healthy : list RpcEndpoint) : Z :=
  maxWeight healthy * Z.of_nat (List.length healthy).

(** How often position [i], of weight [w], is still to be returned in
    the rest of the sweep after state [st]. *)
Definition remaining (w : Z) (i : nat) (st : WrrState) : Z :=
  (if (currentIndex st <? i)%nat && (Z.max (currentWeight st) 1 <=? w)
   then 1 else 0)
  + Z.min w (Z.max (currentWeight st) 1 - 1).

(** Is [st] a state in which the loop returns position [i]? *)
Definition hit (healthy : list RpcEndpoint) (st : WrrState) (i : nat) : Z :=
  if wrrAccepts healthy st && (currentIndex st =? i)%nat then 1 else 0.

(** The positions returned in the course of [n] iterations of the loop
    body, whatever calls they belong to, and the state after them. *)
Fixpoint acceptedTicks (healthy : list RpcEndpoint) (n : nat) (st : WrrState)
  : list nat :=
  match n with
  | O => []
  | S n' =>
      let st' := wrrAdvance (List.length healthy) (maxWeight healthy) st in
      if wrrAccepts healthy st'
      then currentIndex st' :: acceptedTicks healthy n' st'
      else acceptedTicks healthy n' st'
  end.

Fixpoint afterTicks (healthy : list RpcEndpoint) (n : nat) (st : WrrState)
  : WrrState :=
  match n with
  | O => st
  | S n' =>
      afterTicks healthy n' (wrrAdvance (List.length healthy) (maxWeight healthy) st)
  end.

Definition occurrences (i : nat) (picks : list nat) : Z :=
  Z.of_nat (count_occ Nat.eq_dec picks i).

Fixpoint sumBelow (n : nat) (f : nat -> Z) : Z :=
  match n with
  | O => 0
  | S k => sumBelow k f + f k
  end.

End Analysis.

(* ------------------------------------------------------------------ *)
(** ** Concrete pools, probes and exchanges on which the properties are
       instantiated *)

Module Sample.

Import Pool Health Router.

(** The samples 0 ms then 10 ms recorded on a new endpoint. *)
Definition zeroThenTen : Pool.t :=
  recordSuccess 2 (recordSuccess 1 (create 0 [mkRpcConfig "a" 1]) "a" 0) "a" 10.

Definition probeFailed : probe := mkProbe (FetchRejected "timeout") 5000 5000.

Definition probeAnswered : probe :=
  mkProbe (HttpReply 200 "OK"
             (inr (Json.JObject [("jsonrpc", Json.JString "2.0");
                                 ("result", Json.JString "0x10");
                                 ("id", Json.JNumber 1)]%string)))
          12 12.

Definition thresholds : HealthCheckConfig := mkHealthCheckConfig true 30000 5000 3 2.

Definition onePool : Pool.t := create 0 [mkRpcConfig "http://a" 1].

(** The probe answered with an error object next to [result: null]. *)
Definition errorWithNullResult : HttpOutcome :=
  HttpReply 200 "OK"
    (inr (Json.JObject
            [("jsonrpc", Json.JString "2.0");
             ("error", Json.JObject [("code", Json.JNumber (inject_Z (-32000)));
                                     ("message", Json.JString "header not found")]);
             ("result", Json.JNull);
             ("id", Json.JNumber 1)]%string)).

Definition noRetry : LoadBalancingConfig := mkLoadBalancingConfig 0 100 30000.

Definition limited : Json.value :=
  Json.JObject
    [("jsonrpc", Json.JString "2.0");
     ("error", Json.JObject [("code", Json.JNumber (inject_Z (-32005)));
                             ("message", Json.JString "limit exceeded")]);
     ("id", Json.JNumber 7)]%string.

Definition alwaysLimited (attempt : Z) (u : string) : exchange :=
  mkExchange (HttpReply 200 "OK" (inr limited)) 40 1000.

Definition blockNumber : JsonRpcRequest :=
  mkRequest "eth_blockNumber" (Some (Json.JArray [])) (Some (Json.JNumber 7)).

Definition soloPool : Pool.t := Pool.create 0 [mkRpcConfig "http://a" 1].

Definition freshRouter : state nat := mkState 1 0 0 soloPool 0%nat.

Definition downPool : Pool.t := Pool.markUnhealthy soloPool "http://a".

Definition unknownA : RpcEndpoint := mkRpcEndpoint "http://a" 1 true 0 0 0 0 0 0.
Definition slowB : RpcEndpoint := mkRpcEndpoint "http://b" 1 true 0 (30 # 1) 0 4 0 4.
Definition fastC : RpcEndpoint := mkRpcEndpoint "http://c" 1 true 0 (41 # 2) 0 9 0 9.

Definition threeOne : list RpcEndpoint :=
  [mkRpcEndpoint "http://a" 3 true 0 0 0 0 0 0;
   mkRpcEndpoint "http://b" 1 true 0 0 0 0 0 0].

(** The body of a POST /rpcs that gives a negative weight. *)
Definition negativeWeightBody : string + Json.value :=
  inr (Json.JObject [("url", Json.JString "http://n");
                     ("weight", Json.JNumber (inject_Z (-5)))]%string).

(** Two endpoints, one with a weight past 2^53. *)
Definition heavyPool : Pool.t :=
  create 0 [mkRpcConfig "http://a" (2 ^ 54); mkRpcConfig "http://b" 1].

Definition heavyA : RpcEndpoint :=
  mkRpcEndpoint "http://a" (2 ^ 54) true 0 0 0 0 0 0.

Definition lightB : RpcEndpoint :=
  mkRpcEndpoint "http://b" 1 true 0 0 0 0 0 0.

End Sample.

(* ------------------------------------------------------------------ *)
(** ** pool.ts: statistics and log lines *)

Module PoolView.

(** types.ts [RpcStats] *)
Record RpcStats := mkRpcStats {
  s_url : string;
  s_healthy : bool;
  s_successCount : Z;
  s_failureCount : Z;
  s_avgResponseTime : Z;
  s_lastCheck : Z
}.

(** [Math.round]: the nearest integer, a tie going up. *)
Definition mathRound (q : Q) : Z := Qfloor (q + (1 # 2)).

Definition getStats (p : Pool.t) : list RpcStats :=
  map (fun ep =>
         {| s_url := url ep;
            s_healthy := healthy ep;
            s_successCount := successCount ep;
            s_failureCount := failureCount ep;
            s_avgResponseTime := mathRound (avgResponseTime ep);
            s_lastCheck := lastCheck ep |})
      (Pool.getAllEndpoints p).

(** Does [markHealthy(u)] print its "RPC recovered" line?
    [wasUnhealthy = !endpoint.healthy], read before the flag is set. *)
Definition markHealthyLogs (p : Pool.t) (u : string) : bool :=
  match Pool.getEndpoint p u with
  | Some endpoint => negb (healthy endpoint)
  | None => false
  end.

(** Does [markUnhealthy(u)] print its "RPC marked unhealthy" line? *)
Definition markUnhealthyLogs (p : Pool.t) (u : string) : bool :=
  match Pool.getEndpoint p u with
  | Some _ => true
  | None => false
  end.

End PoolView.

(* ------------------------------------------------------------------ *)
(** ** balancer.ts: the factory and the four strategies as one type *)

Module Factory.

(** An object of one of the four subclasses, with its private fields. *)
Inductive LoadBalancer :=
| RoundRobinBalancer (currentIndex : nat)
| WeightedRoundRobinBalancer (st : Balancer.WrrState)
| RandomBalancer
| LatencyBasedBalancer.


(** The virtual call [balancer.selectEndpoint()].  [fuel] bounds the
    loop of the weighted variant ([None]: not enough), [random] is what
    [Math.random()] returns to the random variant. *)
Definition selectEndpoint (fuel : nat) (random : Q) (p : Pool.t) (b : LoadBalancer)
  : option (option RpcEndpoint * LoadBalancer) :=
  match b with
  | RoundRobinBalancer c =>
      let (r, c') := Balancer.rrSelectEndpoint p c in
      Some (r, RoundRobinBalancer c')
  | WeightedRoundRobinBalancer st =>
      match Balancer.wrrSelectEndpoint64 fuel p st with
      | Some (r, st') => Some (r, WeightedRoundRobinBalancer st')
      | None => None
      end
  | RandomBalancer =>
      Some (Balancer.randomSelect (Pool.getHealthyEndpoints p) random, RandomBalancer)
  | LatencyBasedBalancer =>
      Some (Balancer.latencySelectEndpoint p, LatencyBasedBalancer)
  end.

End Factory.

(* ------------------------------------------------------------------ *)
(** ** health.ts: the checker's life cycle and a full pass *)

Module Checker.

(** The fields [intervalId] and [isRunning]; a timer is named by the
    number the runtime gave it. *)
Record HealthChecker := mkChecker {
  intervalId : option nat;
  isRunning : bool
}.

Definition created : HealthChecker := mkChecker None false.

(** What [start] and [stop] do besides updating the fields. *)
Inductive effect :=
| CheckAllRun
| IntervalSet (timer : nat) (ms : Z)
| IntervalCleared (timer : nat).

(** [start()], [timer] being what [setInterval] returns. *)
Definition start (config : HealthCheckConfig) (timer : nat) (c : HealthChecker)
  : HealthChecker * list effect :=
  if negb (hc_enabled config) || isRunning c then (c, [])
  else (mkChecker (Some timer) true,
        [CheckAllRun; IntervalSet timer (hc_interval config)]).

(** [stop()] *)
Definition stop (c : HealthChecker) : HealthChecker * list effect :=
  match intervalId c with
  | Some timer => (mkChecker None false, [IntervalCleared timer])
  | None => (mkChecker (intervalId c) false, [])
  end.

Inductive command :=
| Start (timer : nat)
| Stop.

Definition exec (config : HealthCheckConfig) (c : HealthChecker) (k : command)
  : HealthChecker * list effect :=
  match k with
  | Start timer => start config timer c
  | Stop => stop c
  end.

(** A sequence of calls, with everything they did, in order. *)
Fixpoint execAll (config : HealthCheckConfig) (c : HealthChecker) (ks : list command)
  : HealthChecker * list effect :=
  match ks with
  | [] => (c, [])
  | k :: ks' =>
      let (c1, es1) := exec config c k in
      let (c2, es2) := execAll config c1 ks' in
      (c2, es1 ++ es2)
  end.

(** The timers set and not cleared since, most recent first. *)
Fixpoint liveTimers (es : list effect) (live : list nat) : list nat :=
  match es with
  | [] => live
  | IntervalSet t _ :: es' => liveTimers es' (t :: live)
  | IntervalCleared t :: es' => liveTimers es' (List.remove Nat.eq_dec t live)
  | CheckAllRun :: es' => liveTimers es' live
  end.

(** [checkAll()]: one [checkEndpoint] per endpoint of the pool as it
    is when the pass starts; the probes run concurrently and each
    updates the pool when its own [fetch] settles.  [completion] is the
    order in which they settle, an arrangement of the URLs probed, and
    [probeOf u] is what the probe of [u] comes to. *)
Definition probed (p : Pool.t) : list string := map url (Pool.getAllEndpoints p).

Definition checkAll (config : HealthCheckConfig) (probeOf : string -> Health.probe)
           (completion : list string) (p : Pool.t) : Pool.t :=
  fold_left (fun q u => Health.step config u q (probeOf u)) completion p.

End Checker.

(* ------------------------------------------------------------------ *)
(** ** config.ts *)

Module Config.

Record ServerConfig := mkServerConfig {
  port : Z;
  host : string
}.

(** [Config]; the strategy name of [loadBalancing] stands beside the
    numeric fields. *)
Record t := mkConfig {
  server : ServerConfig;
  strategy : string;
  loadBalancing : LoadBalancingConfig;
  healthCheck : HealthCheckConfig;
  rpcs : list RpcConfig
}.

Definition numberString (n : Z) : string := NilZero.string_of_int (Z.to_int n).

(** The loop over [config.rpcs]: the message of the first entry that
    is refused. *)
Fixpoint validateRpcs (rs : list RpcConfig) : option string :=
  match rs with
  | [] => None
  | rpc :: rest =>
      if String.eqb (cfg_url rpc) "" || negb (String.prefix "http" (cfg_url rpc))
      then Some ("Invalid RPC URL: " ++ cfg_url rpc)%string
      else if cfg_weight rpc <? 1
      then Some ("RPC weight must be >= 1: " ++ cfg_url rpc)%string
      else validateRpcs rest
  end.

(** [validateConfig]: [Some m] when it throws [Error(m)], [None] when
    it returns.  The numeric fields are integers here.  In the code a
    [<] test on NaN (a RETRY_COUNT that does not parse) or on an
    absent weight is false, so such a field is let through; [Config.t]
    has no such values. *)
Definition validateConfig (config : t) : option string :=
  let p := port (server config) in
  if (p =? 0) || (p <? 1) || (p >? 65535)
  then Some ("Invalid port: " ++ numberString p)%string
  else if String.eqb (host (server config)) ""
  then Some "Server host is required"%string
  else if retries (loadBalancing config) <? 0
  then Some "Retries must be >= 0"%string
  else if lb_timeout (loadBalancing config) <? 1000
  then Some "Timeout must be at least 1000ms"%string
  else match rpcs config with
       | [] => Some "At least one RPC endpoint is required"%string
       | _ :: _ => validateRpcs (rpcs config)
       end.

End Config.

(* ------------------------------------------------------------------ *)
(** ** server.ts *)

Module Server.

(** A [Response] made by [jsonResponse]: the status and the value that
    is serialized into the body. *)
Record Response := mkResponse {
  status : Z;
  body : Json.value
}.

Definition isValidSingleJsonRpc (request : Json.value) : bool :=
  match request with
  | Json.JObject _ | Json.JArray _ =>
      match Json.prop request "jsonrpc", Json.prop request "method" with
      | Json.Got (Json.JString v), Json.Got (Json.JString _) => String.eqb v "2.0"
      | _, _ => false
      end
  | _ => false
  end.

Definition isValidJsonRpc (request : Json.value) : bool :=
  match request with
  | Json.JArray items => forallb isValidSingleJsonRpc items
  | _ => isValidSingleJsonRpc request
  end.

Definition protocolError (code : Z) (message : string) : Json.value :=
  Json.JObject
    [("jsonrpc", Json.JString "2.0");
     ("error", Json.JObject [("code", Json.JNumber (inject_Z code));
                             ("message", Json.JString message)]);
     ("id", Json.JNull)]%string.

Definition internalError (data : string) : Json.value :=
  Json.JObject
    [("jsonrpc", Json.JString "2.0");
     ("error", Json.JObject [("code", Json.JNumber (inject_Z (-32603)));
                             ("message", Json.JString "Internal error");
                             ("data", Json.JString data)]);
     ("id", Json.JNull)]%string.

Section HandleJsonRpc.

(** The router behind the server: its state, and [router.route] as a
    function of the parsed request, which returns a response or
    rejects with a message. *)
Variable R : Type.
Variable route : Json.value -> R -> (string + Json.value) * R.

(** [handleJsonRpc]; [parsed] is what [JSON.parse(body)] gives, [None]
    when it throws. *)
Definition handleJsonRpc (parsed : option Json.value) (r : R) : Response * R :=
  match parsed with
  | None => (mkResponse 200 (protocolError (-32700) "Parse error"), r)
  | Some request =>
      if negb (isValidJsonRpc request)
      then (mkResponse 200 (protocolError (-32600) "Invalid Request"), r)
      else
        match route request r with
        | (inr response, r') => (mkResponse 200 response, r')
        | (inl message, r') => (mkResponse 200 (internalError message), r')
        end
  end.

End HandleJsonRpc.

(** [handleHealth]; [uptime] is [Date.now() - this.startTime]. *)
Definition handleHealth (uptime : Z) (p : Pool.t) : Response :=
  let healthyCount := Pool.getHealthyCount p in
  let totalCount := Pool.getTotalCount p in
  let isHealthy := healthyCount >? 0 in
  mkResponse (if isHealthy then 200 else 503)
    (Json.JObject
       [("status", Json.JString (if isHealthy then "healthy" else "unhealthy"));
        ("healthyRpcs", Json.JNumber (inject_Z healthyCount));
        ("totalRpcs", Json.JNumber (inject_Z totalCount));
        ("uptime", Json.JNumber (inject_Z uptime))]%string).

Definition errorBody (message : string) : Json.value :=
  Json.JObject [("error", Json.JString message)]%string.

Definition doneBody (message u : string) : Json.value :=
  Json.JObject [("success", Json.JBool true);
                ("message", Json.JString message);
                ("url", Json.JString u)]%string.

(** [body.weight || 1] as the weight of the new endpoint.  The model
    of an endpoint has an integer weight: [None] for a truthy
    [weight] that is not an integer number, which the code would store
    as it is. *)
Definition weightOrOne (r : Json.read) : option Z :=
  if negb (Json.readTruthy r) then Some 1
  else match r with
       | Json.Got (Json.JNumber q) =>
           if Qeq_bool q (inject_Z (Qfloor q)) then Some (Qfloor q) else None
       | _ => None
       end.

(** [handleAddRpc]; [parsed] is what [req.json()] gives, [inl] when it
    rejects.  Reading [body.url] of [null] and calling [startsWith] on
    a truthy [url] that is not a string throw into the [catch].  The
    outer [None] is the case left out by [weightOrOne]. *)
Definition handleAddRpc (now : Z) (parsed : string + Json.value) (p : Pool.t)
  : option (Response * Pool.t) :=
  match parsed with
  | inl _ => Some (mkResponse 400 (errorBody "Invalid request body"), p)
  | inr data =>
      match Json.prop data "url" with
      | Json.Throws => Some (mkResponse 400 (errorBody "Invalid request body"), p)
      | u =>
          if negb (Json.readTruthy u)
          then Some (mkResponse 400 (errorBody "Invalid RPC URL"), p)
          else
            match u with
            | Json.Got (Json.JString s) =>
                if negb (String.prefix "http" s)
                then Some (mkResponse 400 (errorBody "Invalid RPC URL"), p)
                else
                  match weightOrOne (Json.prop data "weight") with
                  | Some w =>
                      Some (mkResponse 200 (doneBody "RPC added" s),
                            Pool.addEndpoint now p (mkRpcConfig s w))
                  | None => None
                  end
            | _ => Some (mkResponse 400 (errorBody "Invalid request body"), p)
            end
      end
  end.

(** [handleRemoveRpc], on the decoded URL. *)
Definition handleRemoveRpc (u : string) (p : Pool.t) : Response * Pool.t :=
  let (p', removed) := Pool.removeEndpoint p u in
  if negb removed then (mkResponse 404 (errorBody "RPC not found"), p')
  else (mkResponse 200 (doneBody "RPC removed" u), p').

End Server.

(* ------------------------------------------------------------------ *)
(** ** Further notions used by the properties *)

Module Notions.

Import Pool.

(** What the pool keeps fixed while metrics move. *)
Definition shape (p : Pool.t) : list (string * (string * Z * bool)) :=
  map (fun kv => (fst kv, (url (snd kv), weight (snd kv), healthy (snd kv)))) p.


(** Every endpoint is stored under its own URL, and no URL twice. *)
Definition wellKeyed (p : Pool.t) : Prop :=
  NoDup (map fst p) /\ Forall (fun kv => url (snd kv) = fst kv) p.

(** A streak is never negative and never longer than the lifetime
    count it is part of. *)
Definition countersOk (e : RpcEndpoint) : Prop :=
  0 <= consecutiveSuccesses e <= successCount e
  /\ 0 <= consecutiveFailures e <= failureCount e.

(** What one probe does to the endpoint it probes. *)
Definition probeEffect (config : HealthCheckConfig) (x : Health.probe)
           (e : RpcEndpoint) : RpcEndpoint :=
  if Health.probeSucceeds (Health.pr_outcome x)
  then Analysis.afterSuccess config (Health.pr_now x) (Health.pr_responseTime x) e
  else Analysis.afterFailure config (Health.pr_now x) e.

(** Does the probe sequence, entered with [acc] successes in a row,
    ever reach [k] successes in a row? *)
Fixpoint reachesSuccessStreak (k : Z) (xs : list Health.probe) (acc : Z) : bool :=
  match xs with
  | [] => false
  | x :: xs' =>
      let acc' := if Health.probeSucceeds (Health.pr_outcome x) then acc + 1 else 0 in
      (Health.probeSucceeds (Health.pr_outcome x) && (k <=? acc'))
      || reachesSuccessStreak k xs' acc'
  end.

Definition isForwarded (e : Router.event) : bool :=
  match e with
  | Router.Forwarded _ _ => true
  | Router.Slept _ => false
  end.

Definition isSlept (e : Router.event) : bool :=
  match e with
  | Router.Forwarded _ _ => false
  | Router.Slept _ => true
  end.

Definition countSet (es : list Checker.effect) : nat :=
  List.length (filter (fun e => match e with Checker.IntervalSet _ _ => true | _ => false end) es).

Definition countRuns (es : list Checker.effect) : nat :=
  List.length (filter (fun e => match e with Checker.CheckAllRun => true | _ => false end) es).

(** The timer a checker holds. *)
Definition timersOf (c : Checker.HealthChecker) : list nat :=
  match Checker.intervalId c with
  | Some t => [t]
  | None => []
  end.

Definition consistent (c : Checker.HealthChecker) : Prop :=
  Checker.isRunning c = true <-> Checker.intervalId c <> None.

(** The three ways in which [routeSingle] ends: no endpoint, retries
    exhausted, or an upstream body handed back. *)
Definition endsAs {B : Type} (upstream : Z -> string -> Router.exchange)
           (request : Router.JsonRpcRequest) (st st' : Router.state B)
           (r : Json.value) (evs : list Router.event) : Prop :=
  (r = Router.createErrorResponse (Router.idOrNull request)
         (Router.unavailableError (Pool.getHealthyCount (Router.pool st')))
   /\ Router.successCount st' = Router.successCount st
   /\ Router.failureCount st' = Router.failureCount st + 1)
  \/ ((exists lastError,
         r = Router.createErrorResponse (Router.idOrNull request)
               (Router.exhaustedError lastError))
      /\ Router.successCount st' = Router.successCount st
      /\ Router.failureCount st' = Router.failureCount st + 1)
  \/ ((exists attempt u,
         In (Router.Forwarded attempt u) evs
         /\ Router.forwardRequest (Router.ex_outcome (upstream attempt u)) = inr r)
      /\ Router.successCount st' = Router.successCount st + 1
      /\ Router.failureCount st' = Router.failureCount st).

(** The lower-cased message contains [needle]. *)
Definition mentions (message needle : string) : Prop :=
  exists a b, Json.toLowerCase message = (a ++ needle ++ b)%string.

End Notions.

(* ------------------------------------------------------------------ *)
(** * Properties *)

(** ** The pool *)

Module PoolFacts.

Import Pool Sample.

Lemma get_modify_same (p : Pool.t) u f :
  get (modify p u f) u = option_map f (get p u).
Proof.
  induction p as [|[k v] p IH]; simpl; [reflexivity|].
  destruct (String.eqb u k) eqn:E; simpl; rewrite E; auto.
Qed.

Lemma get_modify_other (p : Pool.t) u u' f :
  u <> u' -> get (modify p u f) u' = get p u'.
Proof.
  intros Hne. induction p as [|[k v] p IH]; simpl; [reflexivity|].
  destruct (String.eqb u k) eqn:E; simpl.
  - apply String.eqb_eq in E. subst k.
    destruct (String.eqb u' u) eqn:E'; [|reflexivity].
    apply String.eqb_eq in E'. congruence.
  - rewrite IH. reflexivity.
Qed.

Lemma all_modify (P : RpcEndpoint -> Prop) f (p : Pool.t) u :
  (forall e, P e -> P (f e)) ->
  Forall P (getAllEndpoints p) -> Forall P (getAllEndpoints (modify p u f)).
Proof.
  intros Hf. unfold getAllEndpoints.
  induction p as [|[k v] p IH]; simpl; intros Hall; [constructor|].
  inversion Hall; subst.
  destruct (String.eqb u k); simpl; constructor; auto.
Qed.

Lemma all_set (P : RpcEndpoint -> Prop) (p : Pool.t) u e :
  P e -> Forall P (getAllEndpoints p) -> Forall P (getAllEndpoints (set p u e)).
Proof.
  intros He. unfold getAllEndpoints.
  induction p as [|[k v] p IH]; simpl; intros Hall.
  - repeat constructor; assumption.
  - inversion Hall; subst.
    destruct (String.eqb u k); simpl; constructor; auto.
Qed.

Lemma all_delete (P : RpcEndpoint -> Prop) (p : Pool.t) u :
  Forall P (getAllEndpoints p) -> Forall P (getAllEndpoints (fst (delete p u))).
Proof.
  unfold getAllEndpoints.
  induction p as [|[k v] p IH]; simpl; intros Hall; [constructor|].
  inversion Hall; subst.
  destruct (String.eqb u k); simpl; [assumption|].
  destruct (delete p u) as [r b] eqn:E. simpl in *. constructor; auto.
Qed.

Lemma exclusive_apply (p : Pool.t) (o : op) :
  Forall streaksExclusive (getAllEndpoints p) ->
  Forall streaksExclusive (getAllEndpoints (apply p o)).
Proof.
  intros Hall. destruct o; simpl.
  - apply all_set; [|assumption]. unfold streaksExclusive; simpl. lia.
  - apply all_delete; assumption.
  - apply all_modify; [|assumption].
    intros e _. unfold streaksExclusive; simpl. lia.
  - apply all_modify; [|assumption].
    intros e _. unfold streaksExclusive; simpl. lia.
  - apply all_modify; [|assumption].
    intros e _. unfold streaksExclusive; simpl. lia.
  - apply all_modify; [|assumption].
    intros e He. unfold streaksExclusive in *; simpl. assumption.
Qed.

Lemma exclusive_run (ops : list op) : forall p,
  Forall streaksExclusive (getAllEndpoints p) ->
  Forall streaksExclusive (getAllEndpoints (run p ops)).
Proof.
  unfold run. induction ops as [|o ops IH]; simpl; intros p Hall; [assumption|].
  apply IH. apply exclusive_apply. assumption.
Qed.

Lemma exclusive_create now (rpcs : list RpcConfig) :
  Forall streaksExclusive (getAllEndpoints (create now rpcs)).
Proof.
  unfold create.
  assert (G : forall p, Forall streaksExclusive (getAllEndpoints p) ->
              Forall streaksExclusive
                (getAllEndpoints (fold_left (addEndpoint now) rpcs p))).
  { induction rpcs as [|r rpcs IH]; simpl; intros p Hall; [assumption|].
    apply IH. apply (exclusive_apply p (OpAdd now r)). assumption. }
  apply G. constructor.
Qed.

(** C6. In the pool reached from construction by any sequence of the
    six mutators, every endpoint has at most one of its two streak
    counters positive: consecutiveSuccesses > 0 implies
    consecutiveFailures = 0, and consecutiveFailures > 0 implies
    consecutiveSuccesses = 0. *)
Theorem streak_counters_exclusive :
  forall (now : Z) (rpcs : list RpcConfig) (ops : list op),
    Forall streaksExclusive (getAllEndpoints (run (create now rpcs) ops)).
Proof.
  intros. apply exclusive_run. apply exclusive_create.
Qed.

(** [recordFailure] leaves every endpoint's average as it was. *)
Lemma recordFailure_keeps_average now (p : Pool.t) u :
  map avgResponseTime (getAllEndpoints (recordFailure now p u))
  = map avgResponseTime (getAllEndpoints p).
Proof.
  unfold recordFailure, getAllEndpoints.
  induction p as [|[k v] p IH]; simpl; [reflexivity|].
  destruct (String.eqb u k); simpl; [reflexivity|]. rewrite IH. reflexivity.
Qed.

(** On an endpoint whose average is not 0, a success applies the
    moving-average step. *)
Lemma onSuccess_average_step now rt (e : RpcEndpoint) :
  ~ (avgResponseTime e == 0)%Q ->
  avgResponseTime (onSuccess now rt e)
  = (avgResponseTime e * (8 # 10) + inject_Z rt * (2 # 10))%Q.
Proof.
  intros Hnz. simpl.
  destruct (Qeq_bool (avgResponseTime e) 0) eqn:E; [|reflexivity].
  apply Qeq_bool_eq in E. contradiction.
Qed.

(** C9. After a first sample of 0 ms and a second of 10 ms the code
    holds an average of 10, where "first sample sets it, each later
    one applies avg*0.8 + sample*0.2" gives 0*0.8 + 10*0.2 = 2: a
    sample of 0 leaves the average at 0, which [recordSuccess] takes
    for "no sample yet". *)
Theorem zero_sample_restarts_average :
  option_map avgResponseTime (getEndpoint zeroThenTen "a") = Some (inject_Z 10)
  /\ Qeq (Spec.average [0; 10]) (inject_Z 2)
  /\ ~ Qeq (inject_Z 10) (Spec.average [0; 10]).
Proof.
  split; [reflexivity|]. split; [reflexivity|].
  intros Heq. vm_compute in Heq. discriminate.
Qed.

(** Samples are durations: in a run whose recorded samples are all
    non-negative, no average is negative. *)
Lemma average_nonnegative now (rpcs : list RpcConfig) (ops : list op) :
  Forall (fun o => match o with
                   | OpRecordSuccess _ _ rt => 0 <= rt
                   | _ => True
                   end) ops ->
  Forall (fun e => (0 <= avgResponseTime e)%Q)
         (getAllEndpoints (run (create now rpcs) ops)).
Proof.
  intros Hops.
  assert (Hadd : forall p r,
             Forall (fun e => (0 <= avgResponseTime e)%Q) (getAllEndpoints p) ->
             Forall (fun e => (0 <= avgResponseTime e)%Q)
                    (getAllEndpoints (addEndpoint now p r))).
  { intros p r Hp. apply all_set; [|assumption]. simpl. apply Qle_refl. }
  assert (Hcreate : Forall (fun e => (0 <= avgResponseTime e)%Q)
                           (getAllEndpoints (create now rpcs))).
  { unfold create.
    assert (G : forall p,
               Forall (fun e => (0 <= avgResponseTime e)%Q) (getAllEndpoints p) ->
               Forall (fun e => (0 <= avgResponseTime e)%Q)
                      (getAllEndpoints (fold_left (addEndpoint now) rpcs p))).
    { induction rpcs as [|r rs IH]; simpl; intros p Hp; [assumption|].
      apply IH. apply Hadd. assumption. }
    apply G. constructor. }
  revert Hcreate. generalize (create now rpcs). unfold run.
  induction Hops as [|o ops Ho Hops IH]; simpl; intros p Hp; [assumption|].
  apply IH. destruct o; simpl.
  - apply all_set; [|assumption]. simpl. apply Qle_refl.
  - apply all_delete; assumption.
  - apply all_modify; [|assumption]. intros e He. simpl.
    assert (Hrt : (0 <= inject_Z responseTime)%Q).
    { change 0%Q with (inject_Z 0). rewrite <- Zle_Qle. assumption. }
    destruct (Qeq_bool (avgResponseTime e) 0); [assumption|].
    apply Qle_trans with (0 * (8 # 10) + 0 * (2 # 10))%Q; [discriminate|].
    apply Qplus_le_compat; apply Qmult_le_compat_r; try assumption; discriminate.
  - apply all_modify; [|assumption]. intros e He. exact He.
  - apply all_modify; [|assumption]. intros e He. exact He.
  - apply all_modify; [|assumption]. intros e He. exact He.
Qed.

End PoolFacts.

(** ** The health checker *)

Module HealthFacts.

Import Pool Health PoolFacts Analysis Sample.

Lemma step_failure config u (p : Pool.t) x e :
  getEndpoint p u = Some e ->
  probeSucceeds (pr_outcome x) = false ->
  getEndpoint (step config u p x) u = Some (afterFailure config (pr_now x) e).
Proof.
  intros Hget Hfail.
  unfold step, checkEndpoint, afterFailure. rewrite Hfail.
  unfold recordFailure, markUnhealthy, getEndpoint in *.
  rewrite get_modify_same, Hget. simpl.
  destruct (consecutiveFailures e + 1 >=? unhealthyThreshold config).
  - rewrite !get_modify_same, Hget. reflexivity.
  - rewrite get_modify_same, Hget. reflexivity.
Qed.

Lemma step_success config u (p : Pool.t) x e :
  getEndpoint p u = Some e ->
  probeSucceeds (pr_outcome x) = true ->
  getEndpoint (step config u p x) u
  = Some (afterSuccess config (pr_now x) (pr_responseTime x) e).
Proof.
  intros Hget Hok.
  unfold step, checkEndpoint, afterSuccess. rewrite Hok.
  unfold recordSuccess, markHealthy, getEndpoint in *.
  rewrite get_modify_same, Hget. simpl.
  destruct (consecutiveSuccesses e + 1 >=? healthyThreshold config).
  - rewrite !get_modify_same, Hget. reflexivity.
  - rewrite get_modify_same, Hget. reflexivity.
Qed.

Lemma step_keeps_endpoint config u (p : Pool.t) x e :
  getEndpoint p u = Some e ->
  exists e', getEndpoint (step config u p x) u = Some e'.
Proof.
  intros Hget. destruct (probeSucceeds (pr_outcome x)) eqn:E.
  - eexists. apply step_success; eassumption.
  - eexists. apply step_failure; eassumption.
Qed.

Lemma steps_keep_endpoint config u xs : forall (p : Pool.t) e,
  getEndpoint p u = Some e ->
  exists e', getEndpoint (steps config u p xs) u = Some e'.
Proof.
  unfold steps. induction xs as [|x xs IH]; simpl; intros p e Hget.
  - eauto.
  - destruct (step_keeps_endpoint config u p x e Hget) as [e1 H1]. eauto.
Qed.

Lemma steps_app config u (p : Pool.t) xs ys :
  steps config u p (xs ++ ys) = steps config u (steps config u p xs) ys.
Proof. unfold steps. apply fold_left_app. Qed.

Lemma steps_snoc config u (p : Pool.t) xs x :
  steps config u p (xs ++ [x]) = step config u (steps config u p xs) x.
Proof. rewrite steps_app. reflexivity. Qed.

(** While no run of [unhealthyThreshold] failures has been completed,
    a healthy endpoint stays healthy and its counter is the length
    of the run of failures in progress. *)
Lemma below_threshold_stays_healthy config u xs : forall (p : Pool.t) e acc,
  getEndpoint p u = Some e ->
  healthy e = true ->
  consecutiveFailures e = acc ->
  reachesStreak (unhealthyThreshold config) xs acc = false ->
  exists e', getEndpoint (steps config u p xs) u = Some e'
             /\ healthy e' = true
             /\ consecutiveFailures e' = trailingFailures xs acc.
Proof.
  induction xs as [|x xs IH]; simpl; intros p e acc Hget Hh Hcf Hno.
  - exists e. auto.
  - apply orb_false_iff in Hno. destruct Hno as [Hlt Hno].
    destruct (probeSucceeds (pr_outcome x)) eqn:E.
    + apply (IH (step config u p x) _ 0 (step_success config u p x e Hget E)).
      * unfold afterSuccess. destruct (_ >=? _); simpl; auto.
      * unfold afterSuccess. destruct (_ >=? _); reflexivity.
      * assumption.
    + apply (IH (step config u p x) _ (acc + 1) (step_failure config u p x e Hget E)).
      * unfold afterFailure. rewrite Hcf.
        destruct (acc + 1 >=? unhealthyThreshold config) eqn:G; simpl; [lia|auto].
      * unfold afterFailure. destruct (_ >=? _); simpl; lia.
      * assumption.
Qed.

(** C2. With unhealthyThreshold = 3 and an endpoint that is healthy
    with no failure in a row: after one and after two failed probes
    it is still healthy; with the third failed probe in a row it is
    unhealthy; a successful probe, whatever came before it, leaves
    consecutiveFailures at 0; and over any probe sequence in which no
    three failures come in a row the endpoint stays healthy. *)
Theorem hysteresis_threshold_three :
  forall config u (p : Pool.t) e f1 f2 f3 s,
    unhealthyThreshold config = 3 ->
    getEndpoint p u = Some e ->
    healthy e = true ->
    consecutiveFailures e = 0 ->
    probeSucceeds (pr_outcome f1) = false ->
    probeSucceeds (pr_outcome f2) = false ->
    probeSucceeds (pr_outcome f3) = false ->
    probeSucceeds (pr_outcome s) = true ->
    option_map healthy (getEndpoint (steps config u p [f1]) u) = Some true
    /\ option_map healthy (getEndpoint (steps config u p [f1; f2]) u) = Some true
    /\ option_map consecutiveFailures (getEndpoint (steps config u p [f1; f2]) u)
       = Some 2
    /\ option_map healthy (getEndpoint (steps config u p [f1; f2; f3]) u) = Some false
    /\ (forall xs,
          option_map consecutiveFailures
            (getEndpoint (steps config u p (xs ++ [s])) u) = Some 0)
    /\ (forall xs,
          reachesStreak 3 xs 0 = false ->
          option_map healthy (getEndpoint (steps config u p xs) u) = Some true).
Proof.
  intros config u p e f1 f2 f3 s HT Hget Hh Hcf F1 F2 F3 S1.
  assert (G : forall xs, reachesStreak 3 xs 0 = false ->
            exists e', getEndpoint (steps config u p xs) u = Some e'
                       /\ healthy e' = true
                       /\ consecutiveFailures e' = trailingFailures xs 0).
  { intros xs Hno. apply (below_threshold_stays_healthy config u xs p e 0); auto.
    rewrite HT. assumption. }
  assert (G1 : reachesStreak 3 [f1] 0 = false) by (simpl; rewrite F1; reflexivity).
  assert (G2 : reachesStreak 3 [f1; f2] 0 = false)
    by (simpl; rewrite F1, F2; reflexivity).
  destruct (G _ G1) as (e1 & E1 & H1 & _).
  destruct (G _ G2) as (e2 & E2 & H2 & C2).
  simpl in C2. rewrite F1, F2 in C2. simpl in C2.
  repeat split.
  - rewrite E1. simpl. congruence.
  - rewrite E2. simpl. congruence.
  - rewrite E2. simpl. congruence.
  - change [f1; f2; f3] with ([f1; f2] ++ [f3]). rewrite steps_snoc.
    rewrite (step_failure config u _ f3 e2 E2 F3). simpl.
    unfold afterFailure. rewrite C2, HT. reflexivity.
  - intros xs. rewrite steps_snoc.
    destruct (steps_keep_endpoint config u xs p e Hget) as [e' E'].
    rewrite (step_success config u _ s e' E' S1). simpl.
    unfold afterSuccess. destruct (_ >=? _); reflexivity.
  - intros xs Hno. destruct (G xs Hno) as (e' & E' & H' & _).
    rewrite E'. simpl. congruence.
Qed.

Lemma hysteresis_threshold_three_witness :
  option_map healthy
    (getEndpoint (steps thresholds "http://a" onePool
                    [probeFailed; probeFailed; probeFailed]) "http://a")
  = Some false.
Proof.
  refine (proj1 (proj2 (proj2 (proj2
    (hysteresis_threshold_three thresholds "http://a" onePool
       (mkRpcEndpoint "http://a" 1 true 0 0 0 0 0 0)
       probeFailed probeFailed probeFailed probeAnswered
       _ _ _ _ _ _ _ _))))); reflexivity.
Defined.

(** C4, as worded, does not hold: a body with an error object and a
    present but falsy [result] is a success in the specification's
    reading (membership) and a failure in [checkEndpoint]. *)
Lemma falsy_result_with_error_fails_probe :
  ~ (probeSucceeds errorWithNullResult = true
     <-> Spec.probeSuccess errorWithNullResult = true).
Proof.
  intros [_ H]. specialize (H eq_refl). vm_compute in H. discriminate.
Qed.

(** C4 (amended). A probe succeeds exactly when the HTTP status is
    2xx, the body parses to a value other than null whose [jsonrpc]
    member is the string "2.0", and it is not the case that [error]
    is truthy while [result] is falsy (absent, null, false, 0 or the
    empty string). *)
Theorem probe_success_by_truthiness :
  forall o : HttpOutcome,
    probeSucceeds o = true
    <-> exists status statusText data,
          o = HttpReply status statusText (inr data)
          /\ responseOk status = true
          /\ Json.prop data "jsonrpc" = Json.Got (Json.JString "2.0")
          /\ ~ (Json.readTruthy (Json.prop data "error") = true
                /\ Json.readTruthy (Json.prop data "result") = false).
Proof.
  intros o. split.
  - destruct o as [m | status statusText [m | data]]; simpl; try discriminate.
    + destruct (responseOk status); discriminate.
    + destruct (responseOk status) eqn:Hok; simpl; [|discriminate].
      destruct (Json.prop data "jsonrpc") as [| |v] eqn:Hv; try discriminate.
      destruct v as [| | |s| |]; try discriminate.
      destruct (String.eqb s "2.0") eqn:Hs; simpl; [|discriminate].
      apply String.eqb_eq in Hs. subst s.
      intros Hn. exists status, statusText, data. repeat split; auto.
      intros [He Hr]. rewrite He, Hr in Hn. discriminate.
  - intros (status & statusText & data & -> & Hok & Hv & Hn).
    simpl. rewrite Hok, Hv. simpl.
    destruct (Json.readTruthy (Json.prop data "error")) eqn:He;
      destruct (Json.readTruthy (Json.prop data "result")) eqn:Hr;
      simpl; auto.
Qed.

End HealthFacts.

(** ** The router *)

Module RouterFacts.

Import Router Analysis Sample.

(** An error classified as rate-limiting is a truthy value, so
    [if (response.error)] is entered for it. *)
Lemma rate_limit_error_truthy (error : Json.value) :
  isRateLimitError error = Some true -> Json.truthy error = true.
Proof.
  destruct error as [|b|q|s|items|ms]; try reflexivity;
    unfold isRateLimitError; simpl; discriminate.
Qed.

(** C1. On the final attempt (attempt = retries + 1), when the
    selected endpoint answers with a well-formed body whose error is
    classified as rate-limiting, [routeSingle] records a pool failure
    for that endpoint, then counts the request as successful
    (successCount + 1, failureCount unchanged), records the pool
    success of the pass-through path, and returns the upstream body
    itself, with no delay and no further attempt.  On the endpoint,
    as the pool holds it under that URL, the failure shows as
    failureCount + 1 and as a success streak started anew
    (consecutiveSuccesses = 1, whatever it was), the success that
    follows as successCount + 1, consecutiveFailures = 0 and the new
    sample in the average; weight and health flag are kept, and no
    other endpoint is touched. *)
Theorem rate_limit_on_final_attempt_passes_through :
  forall (B : Type) (LB : LoadBalancer B)
         (config : LoadBalancingConfig) (upstream : Z -> string -> exchange)
         (request : JsonRpcRequest)
         (remaining : nat) (attempt : Z) (lastError : option string)
         (st : state B) (endpoint : RpcEndpoint) (b : B)
         (response error : Json.value),
    attempt = retries config + 1 ->
    selectEndpoint (pool st) (balancer st) = (Some endpoint, b) ->
    forwardRequest (ex_outcome (upstream attempt (url endpoint))) = inr response ->
    Json.prop response "error" = Json.Got error ->
    isRateLimitError error = Some true ->
    attempts config upstream request (S remaining) attempt lastError st
    = (response,
       mkState (requestCount st) (successCount st + 1) (failureCount st)
         (Pool.recordSuccess (ex_now (upstream attempt (url endpoint)))
            (Pool.recordFailure (ex_now (upstream attempt (url endpoint)))
               (pool st) (url endpoint))
            (url endpoint)
            (ex_duration (upstream attempt (url endpoint))))
         b,
       [Forwarded attempt (url endpoint)])
    /\ (forall e0 : RpcEndpoint,
          Pool.getEndpoint (pool st) (url endpoint) = Some e0 ->
          Pool.getEndpoint
            (pool (snd (fst (attempts config upstream request (S remaining)
                               attempt lastError st))))
            (url endpoint)
          = Some
              (mkRpcEndpoint
                 (url e0) (weight e0) (healthy e0)
                 (* lastCheck *)
                 (ex_now (upstream attempt (url endpoint)))
                 (* avgResponseTime *)
                 (if Qeq_bool (avgResponseTime e0) 0
                  then inject_Z (ex_duration (upstream attempt (url endpoint)))
                  else (avgResponseTime e0 * (8 # 10)
                        + inject_Z (ex_duration (upstream attempt (url endpoint)))
                          * (2 # 10))%Q)
                 (* failureCount, successCount *)
                 (endpointFailures e0 + 1) (endpointSuccesses e0 + 1)
                 (* consecutiveFailures, consecutiveSuccesses *)
                 0 1))
    /\ (forall u : string,
          u <> url endpoint ->
          Pool.getEndpoint
            (pool (snd (fst (attempts config upstream request (S remaining)
                               attempt lastError st))))
            u
          = Pool.getEndpoint (pool st) u).
Proof.
  intros B LB config upstream request remaining attempt lastError st endpoint b
         response error Hlast Hsel Hfwd Herr Hrl.
  assert (Hrun : attempts config upstream request (S remaining) attempt lastError st
                 = (response,
                    mkState (requestCount st) (successCount st + 1) (failureCount st)
                      (Pool.recordSuccess (ex_now (upstream attempt (url endpoint)))
                         (Pool.recordFailure (ex_now (upstream attempt (url endpoint)))
                            (pool st) (url endpoint))
                         (url endpoint)
                         (ex_duration (upstream attempt (url endpoint))))
                      b,
                    [Forwarded attempt (url endpoint)])).
  { simpl. rewrite Hsel, Hfwd, Herr, Hrl.
    rewrite (rate_limit_error_truthy error Hrl).
    assert (Hno : (attempt <? maxAttempts config) = false).
    { unfold maxAttempts. apply Z.ltb_ge. lia. }
    rewrite Hno. reflexivity. }
  rewrite Hrun. cbn [fst snd pool].
  unfold Pool.recordSuccess, Pool.recordFailure, Pool.getEndpoint.
  split; [reflexivity|split].
  - intros e0 He0. rewrite !PoolFacts.get_modify_same, He0. reflexivity.
  - intros u Hu. rewrite !PoolFacts.get_modify_other by congruence. reflexivity.
Qed.

Lemma rate_limit_on_final_attempt_witness :
  attempts noRetry alwaysLimited blockNumber 1 1 None freshRouter
  = (limited,
     mkState 1 1 0
       (Pool.recordSuccess 1000 (Pool.recordFailure 1000 soloPool "http://a")
          "http://a" 40)
       0%nat,
     [Forwarded 1 "http://a"])
  /\ Pool.getEndpoint
       (pool (snd (fst (attempts noRetry alwaysLimited blockNumber 1 1 None
                          freshRouter))))
       "http://a"
     = Some (mkRpcEndpoint "http://a" 1 true 1000 (inject_Z 40) 1 1 0 1).
Proof.
  destruct (rate_limit_on_final_attempt_passes_through nat RoundRobinBalancer
              noRetry alwaysLimited blockNumber 0 1 None freshRouter
              (mkRpcEndpoint "http://a" 1 true 0 0 0 0 0 0) 0%nat limited
              (Json.JObject [("code", Json.JNumber (inject_Z (-32005)));
                             ("message", Json.JString "limit exceeded")]%string)
              eq_refl eq_refl eq_refl eq_refl eq_refl)
    as (Hrun & Hfailure & _).
  split; [exact Hrun|].
  exact (Hfailure (mkRpcEndpoint "http://a" 1 true 0 0 0 0 0 0) eq_refl).
Defined.

(** C5. Whenever the balancer returns no endpoint, at whatever
    iteration of the attempt loop, [routeSingle] returns at once the
    error response -32603 "All RPC endpoints unavailable" with data
    {aggregator: true, retriesExhausted: true, healthyEndpoints: the
    pool's healthy count}, under the request's id or null; it forwards
    nothing, sleeps not at all, makes no further attempt, and
    failureCount goes up by exactly one while requestCount,
    successCount and the pool are untouched. *)
Theorem no_endpoint_is_terminal :
  forall (B : Type) (LB : LoadBalancer B)
         (config : LoadBalancingConfig) (upstream : Z -> string -> exchange)
         (request : JsonRpcRequest)
         (remaining : nat) (attempt : Z) (lastError : option string)
         (st : state B) (b : B),
    selectEndpoint (pool st) (balancer st) = (None, b) ->
    attempts config upstream request (S remaining) attempt lastError st
    = (Json.JObject
         [("jsonrpc", Json.JString "2.0");
          ("error",
           Json.JObject
             [("code", Json.JNumber (inject_Z (-32603)));
              ("message", Json.JString "All RPC endpoints unavailable");
              ("data",
               Json.JObject
                 [("aggregator", Json.JBool true);
                  ("retriesExhausted", Json.JBool true);
                  ("healthyEndpoints",
                   Json.JNumber (inject_Z (Pool.getHealthyCount (pool st))))])]);
          ("id", match id request with Some v => v | None => Json.JNull end)]%string,
       mkState (requestCount st) (successCount st) (failureCount st + 1) (pool st) b,
       []).
Proof.
  intros B LB config upstream request remaining attempt lastError st b Hsel.
  simpl. rewrite Hsel. reflexivity.
Qed.

Lemma no_endpoint_is_terminal_witness :
  snd (attempts (mkLoadBalancingConfig 3 100 30000) alwaysLimited blockNumber
         4 1 None (mkState 1 0 0 downPool 0%nat)) = []
  /\ failureCount
       (snd (fst (attempts (mkLoadBalancingConfig 3 100 30000) alwaysLimited
                    blockNumber 4 1 None (mkState 1 0 0 downPool 0%nat)))) = 1.
Proof.
  rewrite (no_endpoint_is_terminal nat RoundRobinBalancer
             (mkLoadBalancingConfig 3 100 30000) alwaysLimited blockNumber
             3 1 None (mkState 1 0 0 downPool 0%nat) 0%nat eq_refl).
  split; reflexivity.
Defined.

(** The balancers of the source return no endpoint only when the pool
    has no healthy endpoint, so that [healthyEndpoints] is then 0. *)
Lemma round_robin_none_means_no_healthy (p : Pool.t) (c c' : nat) :
  Balancer.rrSelectEndpoint p c = (None, c') -> Pool.getHealthyCount p = 0.
Proof.
  unfold Balancer.rrSelectEndpoint, Balancer.rrSelect, Pool.getHealthyCount.
  destruct (Pool.getHealthyEndpoints p) as [|e l] eqn:E; [reflexivity|].
  intros H. injection H as Hn _. apply nth_error_None in Hn.
  pose proof (Nat.mod_upper_bound c (List.length (e :: l))) as Hlt.
  simpl in Hlt, Hn. lia.
Qed.

Example classifies_by_code :
  isRateLimitError
    (Json.JObject [("code", Json.JNumber (inject_Z (-32016)));
                   ("message", Json.JString "busy")]%string) = Some true.
Proof. reflexivity. Qed.

Example classifies_by_message :
  isRateLimitError
    (Json.JObject [("code", Json.JNumber (inject_Z (-32000)));
                   ("message", Json.JString "Too Many Requests, slow down")]%string)
  = Some true.
Proof. reflexivity. Qed.

Example other_error_is_not_rate_limit :
  isRateLimitError
    (Json.JObject [("code", Json.JNumber (inject_Z (-32000)));
                   ("message", Json.JString "execution reverted")]%string)
  = Some false.
Proof. reflexivity. Qed.

(** Two endpoints that answer HTTP 500, retries = 2: three attempts,
    two delays, then the "Request failed after all retries" response;
    the three failures are spread over the endpoints. *)
Example retry_exhaustion_scenario :
  let up (attempt : Z) (u : string) :=
    mkExchange (HttpReply 500 "Internal Server Error" (inl "unused"%string)) 3 50 in
  let p := Pool.create 0 [mkRpcConfig "http://a" 1; mkRpcConfig "http://b" 1] in
  let '(r, st, evs) :=
    routeSingle (mkLoadBalancingConfig 2 100 30000) up blockNumber
      (mkState 0 0 0 p 0%nat) in
  r = createErrorResponse (Json.JNumber 7)
        (exhaustedError (Some "HTTP 500: Internal Server Error"%string))
  /\ evs = [Forwarded 1 "http://a"; Slept 100; Forwarded 2 "http://b"; Slept 100;
            Forwarded 3 "http://a"]
  /\ Router.failureCount st = 1
  /\ map endpointFailures (Pool.getAllEndpoints (pool st)) = [2; 1].
Proof. repeat split. Qed.

(** Endpoint a answers with error -32005, endpoint b, selected on the
    retry, with a result: the client gets b's body; a has one failure
    recorded, b one success. *)
Example rate_limit_failover_scenario :
  let answer := Json.JObject [("jsonrpc", Json.JString "2.0");
                              ("result", Json.JString "0x10");
                              ("id", Json.JNumber 7)]%string in
  let up (attempt : Z) (u : string) :=
    if String.eqb u "http://a"
    then mkExchange (HttpReply 200 "OK" (inr limited)) 40 1000
    else mkExchange (HttpReply 200 "OK" (inr answer)) 25 1200 in
  let p := Pool.create 0 [mkRpcConfig "http://a" 1; mkRpcConfig "http://b" 1] in
  let '(r, st, evs) :=
    routeSingle (mkLoadBalancingConfig 1 100 30000) up blockNumber
      (mkState 0 0 0 p 0%nat) in
  r = answer
  /\ evs = [Forwarded 1 "http://a"; Slept 100; Forwarded 2 "http://b"]
  /\ Router.successCount st = 1
  /\ map endpointFailures (Pool.getAllEndpoints (pool st)) = [1; 0]
  /\ map consecutiveSuccesses (Pool.getAllEndpoints (pool st)) = [0; 1].
Proof. repeat split. Qed.

(** An error that is not a rate limit is handed back as it came, and
    counts as a success of the endpoint. *)
Example pass_through_scenario :
  let reverted := Json.JObject
                    [("jsonrpc", Json.JString "2.0");
                     ("error", Json.JObject
                                 [("code", Json.JNumber (inject_Z (-32000)));
                                  ("message", Json.JString "execution reverted")]);
                     ("id", Json.JNumber 7)]%string in
  let up (attempt : Z) (u : string) :=
    mkExchange (HttpReply 200 "OK" (inr reverted)) 30 900 in
  let '(r, st, evs) :=
    routeSingle (mkLoadBalancingConfig 3 100 30000) up blockNumber
      (mkState 0 0 0 soloPool 0%nat) in
  r = reverted
  /\ evs = [Forwarded 1 "http://a"]
  /\ Router.successCount st = 1
  /\ map endpointFailures (Pool.getAllEndpoints (pool st)) = [0]
  /\ map consecutiveSuccesses (Pool.getAllEndpoints (pool st)) = [1].
Proof. repeat split. Qed.

End RouterFacts.

(** ** Round-robin *)

Module RoundRobinFacts.

Import Balancer.
Local Open Scope nat_scope.

Lemma rrCalls_app (healthy : list RpcEndpoint) a : forall b c,
  rrCalls (a + b) healthy c
  = (fst (rrCalls a healthy c)
       ++ fst (rrCalls b healthy (snd (rrCalls a healthy c))),
     snd (rrCalls b healthy (snd (rrCalls a healthy c)))).
Proof.
  induction a as [|a IH]; intros b c; simpl.
  - destruct (rrCalls b healthy c); reflexivity.
  - destruct (rrSelect healthy c) as [r c1].
    rewrite IH. destruct (rrCalls a healthy c1) as [rs c2]. reflexivity.
Qed.

(** From a cursor inside the list, [j] calls that do not pass the end
    return the next [j] endpoints in list order. *)
Lemma rrCalls_segment (healthy : list RpcEndpoint) j : forall c,
  c + j <= List.length healthy ->
  0 < j ->
  rrCalls j healthy c
  = (map Some (firstn j (skipn c healthy)), (c + j) mod List.length healthy).
Proof.
  induction j as [|j IH]; intros c Hle Hpos; [lia|].
  assert (Hc : c < List.length healthy) by lia.
  destruct (nth_error healthy c) as [x|] eqn:Hx;
    [|apply nth_error_None in Hx; lia].
  assert (Hskip : skipn c healthy = x :: skipn (S c) healthy).
  { clear - Hx. revert c Hx. induction healthy as [|y l IHl]; intros [|c] Hx;
      simpl in *; try discriminate.
    - congruence.
    - apply IHl. assumption. }
  cbn [rrCalls]. unfold rrSelect.
  destruct healthy as [|h0 hs] eqn:Hh; [simpl in Hc; lia|]. rewrite <- Hh in *.
  rewrite (Nat.mod_small c) by assumption. rewrite Hx, Hskip.
  destruct j as [|j'].
  - simpl. replace (c + 1) with (S c) by lia. reflexivity.
  - rewrite (Nat.mod_small (c + 1)) by lia.
    replace (c + 1) with (S c) by lia.
    rewrite (IH (S c)) by lia.
    replace (S c + S j') with (c + S (S j')) by lia. reflexivity.
Qed.

(** Only the cursor modulo the length matters to a call. *)
Lemma rrSelect_mod (healthy : list RpcEndpoint) c :
  rrSelect healthy c = rrSelect healthy (c mod List.length healthy).
Proof.
  destruct healthy as [|h0 hs]; [reflexivity|].
  unfold rrSelect. remember (List.length (h0 :: hs)) as len eqn:Hlen.
  rewrite Nat.Div0.mod_mod.
  rewrite Nat.Div0.add_mod_idemp_l. reflexivity.
Qed.

Lemma rrCalls_mod (healthy : list RpcEndpoint) n c :
  fst (rrCalls n healthy c) = fst (rrCalls n healthy (c mod List.length healthy)).
Proof.
  destruct n as [|n]; [reflexivity|].
  cbn [rrCalls]. rewrite <- rrSelect_mod. reflexivity.
Qed.

Lemma rrCalls_from_inside (healthy : list RpcEndpoint) c :
  c < List.length healthy ->
  fst (rrCalls (List.length healthy) healthy c)
  = map Some (skipn c healthy ++ firstn c healthy).
Proof.
  intros Hc. remember (List.length healthy) as len eqn:Hlen.
  replace len with ((len - c) + c) at 1 by lia.
  rewrite rrCalls_app. cbn [fst].
  rewrite (rrCalls_segment healthy (len - c) c) by lia.
  cbn [fst snd]. rewrite <- Hlen.
  replace (c + (len - c)) with len by lia.
  rewrite Nat.Div0.mod_same.
  rewrite firstn_all2 by (rewrite length_skipn; lia).
  rewrite map_app. f_equal.
  destruct c as [|c'].
  - reflexivity.
  - rewrite (rrCalls_segment healthy (S c') 0) by lia. reflexivity.
Qed.

(** C8. Over an unchanging healthy list of k endpoints, k successive
    calls of the round-robin [selectEndpoint], from any cursor value,
    return each endpoint of the list exactly once: the sequence of
    returned endpoints is a permutation of the list. *)
Theorem round_robin_cycle :
  forall (healthy : list RpcEndpoint) (cursor : nat),
    Permutation (fst (rrCalls (List.length healthy) healthy cursor))
                (map Some healthy).
Proof.
  intros healthy cursor.
  destruct healthy as [|h0 hs] eqn:Hh; [constructor|]. rewrite <- Hh.
  assert (Hlen : 0 < List.length healthy) by (rewrite Hh; simpl; lia).
  rewrite rrCalls_mod.
  rewrite rrCalls_from_inside by (apply Nat.mod_upper_bound; lia).
  apply Permutation_map.
  eapply Permutation_trans; [apply Permutation_app_comm|].
  rewrite firstn_skipn. apply Permutation_refl.
Qed.

End RoundRobinFacts.

(** ** Latency-based selection *)

Module LatencyFacts.

Import Balancer Analysis Sample.
Local Open Scope Q_scope.

Lemma latencyLe_trans a b c : latencyLe a b -> latencyLe b c -> latencyLe a c.
Proof.
  unfold latencyLe. intros [Hb | [Ha Hab]] [Hc | [Hb' Hbc]]; auto.
  - contradiction.
  - right. split; [assumption|]. eapply Qle_trans; eassumption.
Qed.

Lemma negative_iff q : negative q = true <-> q < 0.
Proof.
  unfold negative. rewrite negb_true_iff.
  split; intros H.
  - apply Qnot_le_lt. intros Hle. apply Qle_bool_iff in Hle. congruence.
  - destruct (Qle_bool 0 q) eqn:E; [|reflexivity].
    apply Qle_bool_iff in E. exfalso. apply (Qlt_not_le _ _ H). assumption.
Qed.

(** The comparator agrees with [latencyLe] in both of its answers. *)
Lemma compare_negative a b :
  negative (latencyCompare a b) = true -> latencyLe a b.
Proof.
  unfold latencyCompare, latencyLe. intros H.
  destruct (Qeq_bool (avgResponseTime a) 0) eqn:Ea.
  - apply negative_iff in H. exfalso. revert H. apply Qle_not_lt. discriminate.
  - destruct (Qeq_bool (avgResponseTime b) 0) eqn:Eb.
    + left. apply Qeq_bool_eq. assumption.
    + right. split.
      * intros Hz. apply Qeq_eq_bool in Hz. congruence.
      * apply negative_iff in H. apply Qlt_le_weak.
        apply Qlt_minus_iff in H. apply Qlt_minus_iff.
        setoid_replace (avgResponseTime b + - avgResponseTime a)
          with (0 + - (avgResponseTime a - avgResponseTime b)) by ring.
        assumption.
Qed.

Lemma compare_not_negative a b :
  negative (latencyCompare a b) = false -> latencyLe b a.
Proof.
  unfold latencyCompare, latencyLe. intros H.
  destruct (Qeq_bool (avgResponseTime a) 0) eqn:Ea.
  - left. apply Qeq_bool_eq. assumption.
  - destruct (Qeq_bool (avgResponseTime b) 0) eqn:Eb.
    + exfalso. assert (G : negative (-1) = true) by reflexivity. congruence.
    + right. split.
      * intros Hz. apply Qeq_eq_bool in Hz. congruence.
      * unfold negative in H. apply negb_false_iff in H.
        apply Qle_bool_iff in H. apply Qle_minus_iff. assumption.
Qed.

Lemma insertBy_perm {A} (cmp : A -> A -> Q) x (l : list A) :
  Permutation (insertBy cmp x l) (x :: l).
Proof.
  induction l as [|y l IH]; simpl; [apply Permutation_refl|].
  destruct (negative (cmp x y)); [apply Permutation_refl|].
  eapply Permutation_trans; [apply perm_skip, IH|apply perm_swap].
Qed.

Lemma sortBy_perm {A} (cmp : A -> A -> Q) (l : list A) :
  Permutation (sortBy cmp l) l.
Proof.
  unfold sortBy.
  assert (G : forall acc, Permutation (fold_left (fun a x => insertBy cmp x a) l acc)
                            (acc ++ l)).
  { induction l as [|x l IH]; simpl; intros acc.
    - rewrite app_nil_r. apply Permutation_refl.
    - eapply Permutation_trans; [apply IH|].
      eapply Permutation_trans;
        [apply Permutation_app_tail, insertBy_perm|].
      simpl. apply Permutation_middle. }
  apply (G []).
Qed.

Lemma insertBy_sorted x (l : list RpcEndpoint) :
  StronglySorted latencyLe l ->
  StronglySorted latencyLe (insertBy latencyCompare x l).
Proof.
  induction l as [|y l IH]; simpl; intros Hs.
  - constructor; constructor.
  - inversion Hs as [|? ? Hs' Hall]; subst.
    destruct (negative (latencyCompare x y)) eqn:E.
    + apply compare_negative in E.
      constructor; [assumption|]. constructor; [assumption|].
      eapply Forall_impl; [|exact Hall].
      intros z Hz. eapply latencyLe_trans; eassumption.
    + apply compare_not_negative in E.
      constructor; [apply IH; assumption|].
      eapply Permutation_Forall;
        [apply Permutation_sym, insertBy_perm|].
      constructor; assumption.
Qed.

Lemma sortBy_sorted (l : list RpcEndpoint) :
  StronglySorted latencyLe (sortBy latencyCompare l).
Proof.
  unfold sortBy.
  assert (G : forall acc, StronglySorted latencyLe acc ->
              StronglySorted latencyLe
                (fold_left (fun a x => insertBy latencyCompare x a) l acc)).
  { induction l as [|x l IH]; simpl; intros acc Hacc; [assumption|].
    apply IH. apply insertBy_sorted. assumption. }
  apply G. constructor.
Qed.

(** C7. On a non-empty healthy snapshot (averages being response
    times, none negative) the latency-based [selectEndpoint] returns
    the head of the snapshot sorted ascending by avgResponseTime with
    the endpoints at 0 last; hence, as soon as one endpoint of the
    snapshot has a positive average, the endpoint returned has a
    positive average, the least of the positive ones, so that no
    endpoint at 0 is returned ahead of it. *)
Theorem latency_selects_least_positive :
  forall healthy : list RpcEndpoint,
    healthy <> [] ->
    Forall (fun e => 0 <= avgResponseTime e) healthy ->
    exists e,
      latencySelect healthy = Some e
      /\ hd_error (sortBy latencyCompare healthy) = Some e
      /\ Permutation (sortBy latencyCompare healthy) healthy
      /\ StronglySorted latencyLe (sortBy latencyCompare healthy)
      /\ In e healthy
      /\ (forall e', In e' healthy -> 0 < avgResponseTime e' ->
            0 < avgResponseTime e /\ avgResponseTime e <= avgResponseTime e').
Proof.
  intros healthy Hne Hnonneg.
  pose proof (sortBy_perm latencyCompare healthy) as Hperm.
  pose proof (sortBy_sorted healthy) as Hsorted.
  destruct (sortBy latencyCompare healthy) as [|e sorted] eqn:Hs.
  - apply Permutation_nil in Hperm. contradiction.
  - exists e.
    assert (Hin : In e healthy).
    { eapply Permutation_in; [exact Hperm|]. left. reflexivity. }
    repeat split; auto.
    + unfold latencySelect. destruct healthy; [contradiction|].
      rewrite Hs. reflexivity.
    + assert (He : 0 <= avgResponseTime e).
      { rewrite Forall_forall in Hnonneg. apply Hnonneg. assumption. }
      assert (Hle : latencyLe e e' \/ e' = e).
      { apply Permutation_sym in Hperm.
        pose proof (Permutation_in _ Hperm H) as [Heq | Htail]; [auto|].
        left. inversion Hsorted as [|? ? _ Hall]; subst.
        rewrite Forall_forall in Hall. apply Hall. assumption. }
      destruct Hle as [[Hz | [Hnz _]] | ->]; [| |assumption].
      * rewrite Hz in H0. exfalso. apply (Qlt_irrefl 0). assumption.
      * apply Qle_lt_or_eq in He. destruct He as [Hlt | Heq]; [assumption|].
        symmetry in Heq. contradiction.
    + assert (Hle : latencyLe e e' \/ e' = e).
      { apply Permutation_sym in Hperm.
        pose proof (Permutation_in _ Hperm H) as [Heq | Htail]; [auto|].
        left. inversion Hsorted as [|? ? _ Hall]; subst.
        rewrite Forall_forall in Hall. apply Hall. assumption. }
      destruct Hle as [[Hz | [_ Hle]] | ->]; [|assumption|apply Qle_refl].
      rewrite Hz in H0. exfalso. apply (Qlt_irrefl 0). assumption.
Qed.

Lemma latency_selects_least_positive_witness :
  exists e,
    latencySelect [unknownA; slowB; fastC] = Some e
    /\ hd_error (sortBy latencyCompare [unknownA; slowB; fastC]) = Some e
    /\ Permutation (sortBy latencyCompare [unknownA; slowB; fastC])
                   [unknownA; slowB; fastC]
    /\ StronglySorted latencyLe (sortBy latencyCompare [unknownA; slowB; fastC])
    /\ In e [unknownA; slowB; fastC]
    /\ (forall e', In e' [unknownA; slowB; fastC] -> 0 < avgResponseTime e' ->
          0 < avgResponseTime e /\ avgResponseTime e <= avgResponseTime e').
Proof.
  apply (latency_selects_least_positive [unknownA; slowB; fastC]).
  - discriminate.
  - repeat constructor; discriminate.
Defined.

Example latency_picks_fastC :
  latencySelect [unknownA; slowB; fastC] = Some fastC.
Proof. reflexivity. Qed.

End LatencyFacts.

(** ** Weighted round-robin *)

Module WrrFacts.

Import Balancer Sample.

Lemma fold_max_ge (ws : list Z) : forall a, a <= fold_left Z.max ws a.
Proof.
  induction ws as [|w ws IH]; simpl; intros a; [lia|].
  specialize (IH (Z.max a w)). lia.
Qed.

Lemma fold_max_bound (ws : list Z) : forall a w,
  In w ws -> w <= fold_left Z.max ws a.
Proof.
  induction ws as [|x ws IH]; simpl; intros a w Hin; [contradiction|].
  destruct Hin as [-> | Hin]; [|apply IH; assumption].
  pose proof (fold_max_ge ws (Z.max a w)). lia.
Qed.

Lemma fold_max_attained (ws : list Z) : forall a,
  fold_left Z.max ws a = a \/ In (fold_left Z.max ws a) ws.
Proof.
  induction ws as [|x ws IH]; simpl; intros a; [left; reflexivity|].
  destruct (IH (Z.max a x)) as [H | H]; [|right; right; assumption].
  rewrite H. destruct (Z.max_spec a x) as [[_ ->] | [_ ->]]; auto.
Qed.

(** No endpoint of the snapshot is heavier than [maxWeight]. *)
Lemma maxWeight_bound (healthy : list RpcEndpoint) e :
  In e healthy -> weight e <= maxWeight healthy.
Proof.
  destruct healthy as [|h hs]; [contradiction|]. simpl.
  intros [-> | Hin]; [apply fold_max_ge|].
  apply fold_max_bound. apply in_map. assumption.
Qed.

(** Some endpoint of a non-empty snapshot weighs [maxWeight]. *)
Lemma maxWeight_attained (healthy : list RpcEndpoint) :
  healthy <> [] ->
  exists j e, nth_error healthy j = Some e /\ weight e = maxWeight healthy.
Proof.
  destruct healthy as [|h hs]; [contradiction|]. intros _. simpl.
  destruct (fold_max_attained (map weight hs) (weight h)) as [H | H].
  - exists 0%nat, h. auto.
  - apply in_map_iff in H. destruct H as (e & He & Hin).
    apply In_nth_error in Hin. destruct Hin as [j Hj].
    exists (S j), e. auto.
Qed.

Section Snapshot.

Variable healthy : list RpcEndpoint.
Hypothesis nonEmpty : healthy <> [].

Let len := List.length healthy.
Let maxW := maxWeight healthy.
Let tick := wrrAdvance len maxW.

Lemma len_pos : (0 < len)%nat.
Proof. unfold len. destruct healthy; [contradiction|simpl; lia]. Qed.

(** One iteration of the loop body. *)
Lemma wrrLoop_unfold fuel st :
  wrrLoop (S fuel) healthy maxW st
  = if wrrAccepts healthy (tick st)
    then match nth_error healthy (currentIndex (tick st)) with
         | Some ep => Some (ep, tick st)
         | None => None
         end
    else wrrLoop fuel healthy maxW (tick st).
Proof.
  cbn [wrrLoop]. unfold wrrAccepts, tick, len.
  destruct (nth_error healthy _) as [ep|]; [|reflexivity].
  destruct (weight ep >=? _); reflexivity.
Qed.

(** More fuel does not change a result. *)
Lemma wrrLoop_more_fuel fuel : forall st r,
  wrrLoop fuel healthy maxW st = Some r ->
  wrrLoop (S fuel) healthy maxW st = Some r.
Proof.
  induction fuel as [|fuel IH]; intros st r H; [discriminate|].
  rewrite wrrLoop_unfold in H. rewrite wrrLoop_unfold.
  destruct (wrrAccepts healthy (tick st)); [assumption|].
  apply IH. assumption.
Qed.

Lemma wrrLoop_fuel_le fuel fuel' st r :
  (fuel <= fuel')%nat ->
  wrrLoop fuel healthy maxW st = Some r ->
  wrrLoop fuel' healthy maxW st = Some r.
Proof.
  induction 1 as [|f Hle IH]; intros H; [assumption|].
  apply wrrLoop_more_fuel. apply IH. assumption.
Qed.

(** What the loop returns is an endpoint of the snapshot, standing
    at the new cursor. *)
Lemma wrrLoop_returns fuel : forall st ep st',
  wrrLoop fuel healthy maxW st = Some (ep, st') ->
  nth_error healthy (currentIndex st') = Some ep
  /\ wrrAccepts healthy st' = true.
Proof.
  induction fuel as [|fuel IH]; intros st ep st' H; [discriminate|].
  rewrite wrrLoop_unfold in H.
  destruct (wrrAccepts healthy (tick st)) eqn:Hacc; [|eapply IH; eassumption].
  destruct (nth_error healthy (currentIndex (tick st))) as [e|] eqn:Hn;
    [|discriminate].
  injection H as <- <-. auto.
Qed.

Lemma tick_index st :
  currentIndex (tick st) = ((currentIndex st + 1) mod len)%nat.
Proof.
  unfold tick, wrrAdvance.
  destruct (Nat.eqb _ 0); reflexivity.
Qed.

Lemma tick_weight_le st bound :
  maxW <= bound -> currentWeight st <= bound ->
  currentWeight (tick st) <= bound.
Proof.
  intros HM Hst. unfold tick, wrrAdvance.
  destruct (Nat.eqb _ 0); simpl; [|assumption].
  destruct (_ <=? 0); lia.
Qed.

(** At a wrap the weight level comes down by one, or is reset. *)
Lemma tick_wrap_weight st bound :
  currentIndex (tick st) = 0%nat ->
  maxW <= bound -> currentWeight st <= bound + 1 ->
  currentWeight (tick st) <= bound.
Proof.
  intros Hidx HM Hst. rewrite tick_index in Hidx.
  unfold tick, wrrAdvance. rewrite Hidx. simpl.
  destruct (_ <=? 0); lia.
Qed.

(** With the level at or below [maxWeight], the loop returns by the
    time the cursor reaches a heaviest endpoint. *)
Lemma wrrLoop_reaches_heaviest j e :
  nth_error healthy j = Some e -> weight e = maxW ->
  forall k st,
    currentWeight st <= maxW ->
    ((currentIndex st + S k) mod len)%nat = j ->
    exists r, wrrLoop (S k) healthy maxW st = Some r.
Proof.
  intros Hj Hw. induction k as [|k IH]; intros st Hcw Hk.
  - rewrite wrrLoop_unfold.
    assert (Hidx : currentIndex (tick st) = j) by (rewrite tick_index; exact Hk).
    assert (Hacc : wrrAccepts healthy (tick st) = true).
    { unfold wrrAccepts. rewrite Hidx, Hj.
      pose proof (tick_weight_le st maxW (Z.le_refl _) Hcw).
      apply Z.geb_le. lia. }
    rewrite Hacc, Hidx, Hj. eauto.
  - rewrite wrrLoop_unfold.
    destruct (wrrAccepts healthy (tick st)) eqn:Hacc.
    + unfold wrrAccepts in Hacc.
      destruct (nth_error healthy (currentIndex (tick st))); [eauto|discriminate].
    + apply IH.
      * apply tick_weight_le; [lia|assumption].
      * rewrite tick_index. rewrite Nat.Div0.add_mod_idemp_l.
        rewrite <- Hk. f_equal. lia.
Qed.

(** Some number of iterations between 1 and [len] brings the cursor
    to any given position. *)
Lemma cursor_distance (i j : nat) :
  (j < len)%nat ->
  exists k, (S k <= len)%nat /\ ((i + S k) mod len)%nat = j.
Proof.
  intros Hj. pose proof len_pos as Hlen.
  pose proof (Nat.mod_upper_bound i len ltac:(lia)) as Hr.
  destruct (Nat.ltb (i mod len) j) eqn:E.
  - apply Nat.ltb_lt in E. exists (j - i mod len - 1)%nat. split; [lia|].
    rewrite <- Nat.Div0.add_mod_idemp_l.
    replace (i mod len + S (j - i mod len - 1))%nat with j by lia.
    apply Nat.mod_small. assumption.
  - apply Nat.ltb_ge in E. exists (j + len - i mod len - 1)%nat. split; [lia|].
    rewrite <- Nat.Div0.add_mod_idemp_l.
    replace (i mod len + S (j + len - i mod len - 1))%nat
      with (j + 1 * len)%nat by lia.
    rewrite Nat.Div0.mod_add. apply Nat.mod_small. assumption.
Qed.

(** From a state whose level does not exceed [maxWeight] (every
    state reached over this snapshot), [len] iterations suffice. *)
Lemma wrrLoop_within_len st :
  currentWeight st <= maxW ->
  exists r, wrrLoop len healthy maxW st = Some r.
Proof.
  intros Hcw.
  destruct (maxWeight_attained healthy nonEmpty) as (j & e & Hj & Hw).
  assert (Hjlen : (j < len)%nat).
  { apply nth_error_Some. rewrite Hj. discriminate. }
  destruct (cursor_distance (currentIndex st) j Hjlen) as (k & Hk & Hmod).
  destruct (wrrLoop_reaches_heaviest j e Hj Hw k st Hcw Hmod) as [r Hr].
  exists r. eapply wrrLoop_fuel_le; eassumption.
Qed.

(** From a level that exceeds [maxWeight] by at most [d], the loop
    still returns: each wrap of the cursor brings the level down. *)
Lemma wrrLoop_from_any_level (d : nat) : forall st,
  currentWeight st <= maxW + Z.of_nat d ->
  exists fuel r, wrrLoop fuel healthy maxW st = Some r.
Proof.
  induction d as [|d IHd]; intros st Hcw.
  - exists len. apply wrrLoop_within_len. lia.
  - assert (W : forall k st,
               currentWeight st <= maxW + Z.of_nat (S d) ->
               ((currentIndex st + S k) mod len)%nat = 0%nat ->
               exists fuel r, wrrLoop fuel healthy maxW st = Some r).
    { induction k as [|k IHk]; intros s Hs Hk.
      - assert (Hidx : currentIndex (tick s) = 0%nat)
          by (rewrite tick_index; exact Hk).
        destruct (IHd (tick s)) as (fuel & r & Hr).
        { apply tick_wrap_weight; [assumption|lia|lia]. }
        exists (S fuel). rewrite wrrLoop_unfold.
        destruct (wrrAccepts healthy (tick s)) eqn:Hacc; [|eauto].
        unfold wrrAccepts in Hacc.
        destruct (nth_error healthy (currentIndex (tick s)));
          [eauto|discriminate].
      - destruct (IHk (tick s)) as (fuel & r & Hr).
        + apply tick_weight_le; [lia|assumption].
        + rewrite tick_index. rewrite Nat.Div0.add_mod_idemp_l.
          rewrite <- Hk. f_equal. lia.
        + exists (S fuel). rewrite wrrLoop_unfold.
          destruct (wrrAccepts healthy (tick s)) eqn:Hacc; [|eauto].
          unfold wrrAccepts in Hacc.
          destruct (nth_error healthy (currentIndex (tick s)));
            [eauto|discriminate]. }
    destruct (cursor_distance (currentIndex st) 0 len_pos) as (k & _ & Hmod).
    apply (W k st Hcw Hmod).
Qed.

End Snapshot.

(** *** The loop on binary64 levels *)

Lemma nearest_exact z : Binary64.exact z -> Binary64.nearest z = z.
Proof.
  unfold Binary64.exact, Binary64.nearest. intros Hz.
  destruct (Z.abs z <? 2 ^ 53) eqn:E; [reflexivity|].
  apply Z.ltb_ge in E.
  assert (Hc : z = 2 ^ 53 \/ z = - 2 ^ 53) by lia.
  destruct Hc as [-> | ->]; vm_compute; reflexivity.
Qed.

(** Within the exact range the subtraction is the integer one, but
    for the bottom of the range, where both results are negative. *)
Lemma minusOne_exact x :
  Binary64.exact x ->
  Binary64.minusOne x = x - 1
  \/ (x - 1 <= 0 /\ Binary64.minusOne x <= 0).
Proof.
  intros Hx. unfold Binary64.minusOne.
  destruct (Z.eq_dec x (- 2 ^ 53)) as [-> | Hne].
  - right. split; vm_compute; discriminate.
  - left. apply nearest_exact. unfold Binary64.exact in *. lia.
Qed.

(** The hardware subtraction, at levels on both sides of 2^53. *)
Example minusOne_is_the_binary64_subtraction :
  forallb Binary64.agrees
    [0; 1; 7; -3; 2 ^ 53 - 1; 2 ^ 53; 2 ^ 53 + 2; 2 ^ 53 + 4; 2 ^ 54;
     2 ^ 55 + 8; 2 ^ 55 + 16; 2 ^ 60; - 2 ^ 53; - 2 ^ 53 - 2]
  = true.
Proof. vm_compute. reflexivity. Qed.

Lemma wrrAdvance64_exact len maxW st :
  Binary64.exact (currentWeight st) ->
  wrrAdvance64 len maxW st = wrrAdvance len maxW st.
Proof.
  intros Hst. unfold wrrAdvance64, wrrAdvance.
  destruct (Nat.eqb _ 0); [|reflexivity].
  destruct (minusOne_exact _ Hst) as [-> | [Hz Hm]]; [reflexivity|].
  replace (Binary64.minusOne (currentWeight st) <=? 0) with true
    by (symmetry; apply Z.leb_le; assumption).
  replace (currentWeight st - 1 <=? 0) with true
    by (symmetry; apply Z.leb_le; assumption).
  reflexivity.
Qed.

(** A level in the exact range stays there, whatever list it meets,
    as long as the weights are in it. *)
Lemma wrrAdvance_keeps_exact len maxW st :
  Binary64.exact maxW -> Binary64.exact (currentWeight st) ->
  Binary64.exact (currentWeight (wrrAdvance len maxW st)).
Proof.
  unfold Binary64.exact, wrrAdvance. intros HM Hst.
  destruct (Nat.eqb _ 0); cbn [currentWeight]; [|assumption].
  destruct (currentWeight st - 1 <=? 0) eqn:E; [assumption|].
  apply Z.leb_gt in E. lia.
Qed.

Lemma wrrLoop64_exact (healthy : list RpcEndpoint) maxW fuel : forall st,
  Binary64.exact maxW -> Binary64.exact (currentWeight st) ->
  wrrLoop64 fuel healthy maxW st = wrrLoop fuel healthy maxW st.
Proof.
  induction fuel as [|fuel IH]; intros st HM Hst; [reflexivity|].
  cbn [wrrLoop64 wrrLoop]. rewrite (wrrAdvance64_exact _ _ _ Hst).
  pose proof (wrrAdvance_keeps_exact (List.length healthy) maxW st HM Hst) as Hk.
  destruct (nth_error healthy _) as [ep|]; [|apply IH; assumption].
  destruct (weight ep >=? _); [reflexivity|apply IH; assumption].
Qed.

Lemma wrrLoop_keeps_exact (healthy : list RpcEndpoint) maxW fuel :
  forall st ep st',
    Binary64.exact maxW -> Binary64.exact (currentWeight st) ->
    wrrLoop fuel healthy maxW st = Some (ep, st') ->
    Binary64.exact (currentWeight st').
Proof.
  induction fuel as [|fuel IH]; intros st ep st' HM Hst H; [discriminate|].
  cbn [wrrLoop] in H.
  pose proof (wrrAdvance_keeps_exact (List.length healthy) maxW st HM Hst) as Hk.
  destruct (nth_error healthy _) as [e|]; [|eapply IH; eassumption].
  destruct (weight e >=? _); [|eapply IH; eassumption].
  injection H as _ <-. assumption.
Qed.

Lemma maxWeight_exact (healthy : list RpcEndpoint) :
  Forall (fun e => Binary64.exact (weight e)) healthy ->
  Binary64.exact (maxWeight healthy).
Proof.
  intros Hall. destruct healthy as [|h hs] eqn:E.
  - unfold Binary64.exact. simpl. lia.
  - rewrite <- E in *.
    destruct (maxWeight_attained healthy) as (j & e & Hj & <-);
      [rewrite E; discriminate|].
    rewrite Forall_forall in Hall. apply Hall.
    eapply nth_error_In; eassumption.
Qed.

Lemma wrrSelect64_nonempty (healthy : list RpcEndpoint) fuel st :
  healthy <> [] ->
  wrrSelect64 fuel healthy st
  = match wrrLoop64 fuel healthy (maxWeight healthy) st with
    | Some (ep, s) => Some (Some ep, s)
    | None => None
    end.
Proof. destruct healthy; [contradiction|reflexivity]. Qed.

(** With weights and level in the exact range the loop returns, and
    leaves a level in the range. *)
Lemma wrrSelect64_returns (healthy : list RpcEndpoint) (st : WrrState) :
  healthy <> [] ->
  Forall (fun e => Binary64.exact (weight e)) healthy ->
  Binary64.exact (currentWeight st) ->
  exists fuel ep st',
    In ep healthy
    /\ (forall f, (fuel <= f)%nat ->
          wrrSelect64 f healthy st = Some (Some ep, st'))
    /\ Binary64.exact (currentWeight st')
    /\ (currentWeight st <= maxWeight healthy ->
          wrrSelect64 (List.length healthy) healthy st = Some (Some ep, st')).
Proof.
  intros Hne Hall Hst.
  pose proof (maxWeight_exact healthy Hall) as HM.
  destruct (wrrLoop_from_any_level healthy Hne
              (Z.to_nat (currentWeight st - maxWeight healthy)) st)
    as (fuel & [ep st'] & Hr); [lia|].
  assert (Hsel : forall f, wrrLoop f healthy (maxWeight healthy) st = Some (ep, st') ->
              wrrSelect64 f healthy st = Some (Some ep, st')).
  { intros f H. rewrite wrrSelect64_nonempty by assumption.
    rewrite wrrLoop64_exact by assumption. rewrite H. reflexivity. }
  exists fuel, ep, st'. split; [|split; [|split]].
  - destruct (wrrLoop_returns healthy fuel st ep st' Hr) as [Hn _].
    eapply nth_error_In; eassumption.
  - intros f Hf. apply Hsel. eapply wrrLoop_fuel_le; eassumption.
  - eapply wrrLoop_keeps_exact; eassumption.
  - intros Hcw.
    destruct (wrrLoop_within_len healthy Hne st Hcw) as [r Hlen].
    assert (r = (ep, st')).
    { destruct (Nat.le_ge_cases fuel (List.length healthy)) as [Hle | Hle].
      - pose proof (wrrLoop_fuel_le healthy _ _ st _ Hle Hr). congruence.
      - pose proof (wrrLoop_fuel_le healthy _ _ st _ Hle Hlen). congruence. }
    subst r. apply Hsel. assumption.
Qed.

(** At level 2^54 over the one endpoint of weight 1 the loop body
    leaves the state as it found it. *)
Lemma level_stuck :
  wrrAdvance64 1 1 (mkWrr 0 (2 ^ 54)) = mkWrr 0 (2 ^ 54).
Proof. vm_compute. reflexivity. Qed.

Lemma stuck_loop_never_returns fuel :
  wrrLoop64 fuel [lightB] 1 (mkWrr 0 (2 ^ 54)) = None.
Proof.
  induction fuel as [|fuel IH]; [reflexivity|].
  cbn [wrrLoop64]. change (List.length [lightB]) with 1%nat.
  rewrite level_stuck. cbn [currentIndex currentWeight nth_error].
  replace (weight lightB >=? 2 ^ 54) with false by (vm_compute; reflexivity).
  exact IH.
Qed.

(** C10, as worded, does not hold.  The weights are positive
    integers, the healthy list is never empty, and the state is
    reached from the initial one by calls of [selectEndpoint]; yet the
    loop never returns.  Over a pool of endpoint a, weight 2^54, and endpoint b,
    weight 1, the first call returns b and the second returns a,
    leaving the level at 2^54.  Once a is marked unhealthy the list
    is [b]: the cursor wraps at every iteration, 2^54 - 1 is 2^54 in
    binary64, so the level stays where it is, above the weight of b,
    for any number of iterations. *)
Example level_past_2_53_never_returns :
  (Pool.getHealthyEndpoints heavyPool = [heavyA; lightB]
   /\ Pool.getHealthyEndpoints (Pool.markUnhealthy heavyPool "http://a") = [lightB]
   /\ Forall (fun e => 0 < weight e) (Pool.getAllEndpoints heavyPool))
  /\ wrrSelectEndpoint64 1 heavyPool wrrInitial = Some (Some lightB, mkWrr 1 0)
  /\ wrrSelectEndpoint64 1 heavyPool (mkWrr 1 0)
     = Some (Some heavyA, mkWrr 0 (2 ^ 54))
  /\ forall fuel,
       wrrSelectEndpoint64 fuel (Pool.markUnhealthy heavyPool "http://a")
         (mkWrr 0 (2 ^ 54))
       = None.
Proof.
  split; [|split; [|split]].
  - split; [reflexivity|split; [reflexivity|]].
    repeat constructor.
  - vm_compute. reflexivity.
  - vm_compute. reflexivity.
  - intros fuel. unfold wrrSelectEndpoint64.
    change (Pool.getHealthyEndpoints (Pool.markUnhealthy heavyPool "http://a"))
      with [lightB].
    rewrite wrrSelect64_nonempty by discriminate.
    change (maxWeight [lightB]) with 1.
    rewrite stuck_loop_never_returns. reflexivity.
Qed.

(** C10, amended.  On a non-empty healthy snapshot whose weights are
    integers of magnitude at most 2^53, the loop of the weighted
    round-robin [selectEndpoint] ends from every state whose weight
    level is such an integer: some number of iterations suffices, any
    larger number gives the same answer, the answer is an endpoint of
    the snapshot, and the level left behind is again in that range, so
    that the next call, over whatever snapshot of such weights, is
    covered too.  From the states met while the snapshot stays the
    same (level at most the maximum weight) as many iterations as
    there are endpoints suffice.  The weights need not be positive for
    this. *)
Theorem wrr_select_terminates :
  forall (healthy : list RpcEndpoint) (st : WrrState),
    healthy <> [] ->
    Forall (fun e => Binary64.exact (weight e)) healthy ->
    Binary64.exact (currentWeight st) ->
    exists fuel ep st',
      In ep healthy
      /\ (forall f, (fuel <= f)%nat ->
            wrrSelect64 f healthy st = Some (Some ep, st'))
      /\ Binary64.exact (currentWeight st')
      /\ (currentWeight st <= maxWeight healthy ->
            wrrSelect64 (List.length healthy) healthy st = Some (Some ep, st')).
Proof. exact wrrSelect64_returns. Qed.

Lemma wrr_select_terminates_witness :
  exists fuel ep st',
    In ep threeOne
    /\ (forall f, (fuel <= f)%nat ->
          wrrSelect64 f threeOne (mkWrr 7 9) = Some (Some ep, st'))
    /\ Binary64.exact (currentWeight st')
    /\ (currentWeight (mkWrr 7 9) <= maxWeight threeOne ->
          wrrSelect64 (List.length threeOne) threeOne (mkWrr 7 9)
          = Some (Some ep, st')).
Proof.
  apply (wrr_select_terminates threeOne (mkWrr 7 9)).
  - discriminate.
  - repeat constructor; vm_compute; discriminate.
  - split; vm_compute; discriminate.
Defined.

End WrrFacts.

(** ** Weighted round-robin: selection frequency *)

Module WrrFairness.

Import Balancer WrrFacts Analysis Sample.

Ltac boolcases :=
  repeat match goal with
         | |- context [if ?b then _ else _] => destruct b eqn:?
         end;
  repeat match goal with
         | H : andb _ _ = true |- _ => apply andb_true_iff in H; destruct H
         | H : andb _ _ = false |- _ => apply andb_false_iff in H; destruct H
         | H : (_ <? _)%nat = true |- _ => apply Nat.ltb_lt in H
         | H : (_ <? _)%nat = false |- _ => apply Nat.ltb_ge in H
         | H : (_ =? _)%nat = true |- _ => apply Nat.eqb_eq in H
         | H : (_ =? _)%nat = false |- _ => apply Nat.eqb_neq in H
         | H : (_ <=? _) = true |- _ => apply Z.leb_le in H
         | H : (_ <=? _) = false |- _ => apply Z.leb_gt in H
         end.

Section Cycle.

Variable healthy : list RpcEndpoint.
Hypothesis nonEmpty : healthy <> [].
Hypothesis positive : Forall (fun e => 1 <= weight e) healthy.

Local Abbreviation len := (List.length healthy).
Local Abbreviation maxW := (maxWeight healthy).
Local Abbreviation tick := (wrrAdvance (List.length healthy) (maxWeight healthy)).

Lemma weightAt_bounds i :
  (i < len)%nat -> 1 <= weightAt healthy i <= maxW.
Proof.
  intros Hi. unfold weightAt.
  destruct (nth_error healthy i) as [e|] eqn:He;
    [|apply nth_error_None in He; lia].
  apply nth_error_In in He. split.
  - rewrite Forall_forall in positive. apply positive. assumption.
  - apply maxWeight_bound. assumption.
Qed.

Lemma maxW_pos : 1 <= maxW.
Proof.
  pose proof (len_pos healthy nonEmpty) as Hlen.
  pose proof (weightAt_bounds 0 Hlen). lia.
Qed.

Lemma hit_spec st i :
  (i < len)%nat ->
  hit healthy st i
  = if (currentIndex st =? i)%nat && (currentWeight st <=? weightAt healthy i)
    then 1 else 0.
Proof.
  intros Hi. unfold hit, wrrAccepts, weightAt.
  destruct (currentIndex st =? i)%nat eqn:E.
  - apply Nat.eqb_eq in E. rewrite E.
    destruct (nth_error healthy i) as [e|] eqn:He;
      [|apply nth_error_None in He; lia].
    rewrite Z.geb_leb. rewrite !andb_true_r. reflexivity.
  - rewrite andb_false_r. reflexivity.
Qed.

(** The cursor after one iteration. *)
Lemma tick_cases st :
  (currentIndex st < len)%nat ->
  ((currentIndex st + 1 < len)%nat
   /\ tick st = mkWrr (currentIndex st + 1) (currentWeight st))
  \/ ((currentIndex st + 1 = len)%nat
      /\ tick st = mkWrr 0 (if currentWeight st - 1 <=? 0 then maxW
                            else currentWeight st - 1)).
Proof.
  intros Hi. unfold wrrAdvance.
  destruct (Nat.eq_dec (currentIndex st + 1) len) as [E | E].
  - right. split; [assumption|]. rewrite E, Nat.Div0.mod_same. reflexivity.
  - left. split; [lia|]. rewrite Nat.mod_small by lia.
    replace (currentIndex st + 1 =? 0)%nat with false; [reflexivity|].
    symmetry. apply Nat.eqb_neq. lia.
Qed.

(** One iteration moves one step on in the sweep, and accounts for the
    position it returns, if any; at the end of the sweep a new one
    starts, in which position [i] is due [weightAt i] times. *)
Lemma tick_potential st i :
  inCycle healthy st ->
  (i < len)%nat ->
  inCycle healthy (tick st)
  /\ exists k,
       0 <= k
       /\ position healthy st + 1 = position healthy (tick st) + period healthy * k
       /\ remaining (weightAt healthy i) i (tick st) + hit healthy (tick st) i
          = remaining (weightAt healthy i) i st + weightAt healthy i * k.
Proof.
  intros [Hidx Hcw] Hi.
  pose proof (weightAt_bounds i Hi) as Hw. pose proof maxW_pos as HM.
  rewrite hit_spec by assumption.
  destruct (tick_cases st Hidx) as [[Hlt ->] | [Heq ->]].
  - split; [split; cbn [currentIndex currentWeight]; lia|].
    exists 0. split; [lia|]. unfold position, period, remaining.
    cbn [currentIndex currentWeight].
    split; [lia|]. boolcases; lia.
  - destruct (currentWeight st - 1 <=? 0) eqn:Hlow.
    + apply Z.leb_le in Hlow. split; [split; cbn [currentIndex currentWeight]; lia|].
      exists 1. split; [lia|]. unfold position, period, remaining.
    cbn [currentIndex currentWeight].
      split; [nia|]. boolcases; lia.
    + apply Z.leb_gt in Hlow. split; [split; cbn [currentIndex currentWeight]; lia|].
      exists 0. split; [lia|]. unfold position, period, remaining.
    cbn [currentIndex currentWeight].
      split; [nia|]. boolcases; lia.
Qed.

Lemma occurrences_cons i x (l : list nat) :
  occurrences i (x :: l) = (if (x =? i)%nat then 1 else 0) + occurrences i l.
Proof.
  unfold occurrences. cbn [count_occ].
  destruct (Nat.eq_dec x i) as [E | E].
  - apply Nat.eqb_eq in E. rewrite E. lia.
  - apply Nat.eqb_neq in E. rewrite E. lia.
Qed.

Lemma occurrences_app i (l l' : list nat) :
  occurrences i (l ++ l') = occurrences i l + occurrences i l'.
Proof. unfold occurrences. rewrite count_occ_app. lia. Qed.

Lemma occurrences_tick i n st :
  occurrences i (acceptedTicks healthy (S n) st)
  = hit healthy (tick st) i + occurrences i (acceptedTicks healthy n (tick st)).
Proof.
  cbn [acceptedTicks]. unfold hit.
  destruct (wrrAccepts healthy (tick st)); [|reflexivity].
  rewrite occurrences_cons. reflexivity.
Qed.

(** The same account over any number of iterations. *)
Lemma ticks_potential i :
  (i < len)%nat ->
  forall n st,
    inCycle healthy st ->
    inCycle healthy (afterTicks healthy n st)
    /\ exists k,
         0 <= k
         /\ position healthy st + Z.of_nat n
            = position healthy (afterTicks healthy n st) + period healthy * k
         /\ remaining (weightAt healthy i) i (afterTicks healthy n st)
            + occurrences i (acceptedTicks healthy n st)
            = remaining (weightAt healthy i) i st + weightAt healthy i * k.
Proof.
  intros Hi. induction n as [|n IH]; intros st Hst.
  - split; [assumption|]. exists 0. cbn [afterTicks acceptedTicks].
    unfold occurrences. simpl. lia.
  - destruct (tick_potential st i Hst Hi) as (Hst1 & k1 & Hk1 & Hp1 & Hr1).
    destruct (IH (tick st) Hst1) as (Hst2 & k2 & Hk2 & Hp2 & Hr2).
    cbn [afterTicks]. split; [assumption|].
    exists (k1 + k2). rewrite occurrences_tick.
    split; [lia|]. split; [|lia].
    rewrite Nat2Z.inj_succ. lia.
Qed.

Lemma position_range st :
  inCycle healthy st -> 0 <= position healthy st < period healthy.
Proof.
  intros [Hidx Hcw]. pose proof maxW_pos as HM.
  unfold position, period. nia.
Qed.

(** States of equal rank have the same positions still due. *)
Lemma remaining_of_position w i st st' :
  inCycle healthy st -> inCycle healthy st' ->
  position healthy st = position healthy st' ->
  remaining w i st = remaining w i st'.
Proof.
  intros [Hidx Hcw] [Hidx' Hcw'] Hpos. unfold position in Hpos.
  assert (Hlevel : Z.max (currentWeight st) 1 = Z.max (currentWeight st') 1) by nia.
  assert (Hcursor : currentIndex st = currentIndex st') by nia.
  unfold remaining. rewrite Hlevel, Hcursor. reflexivity.
Qed.

(** Over one full sweep (maxWeight * length iterations) position [i]
    is returned exactly [weightAt i] times, wherever the sweep is
    entered. *)
Lemma full_sweep_occurrences i st :
  (i < len)%nat ->
  inCycle healthy st ->
  occurrences i (acceptedTicks healthy (Z.to_nat (period healthy)) st)
  = weightAt healthy i.
Proof.
  intros Hi Hst.
  destruct (ticks_potential i Hi (Z.to_nat (period healthy)) st Hst)
    as (Hst' & k & Hk & Hpos & Hrem).
  pose proof (position_range st Hst) as Hr.
  pose proof (position_range _ Hst') as Hr'.
  rewrite Z2Nat.id in Hpos by lia.
  assert (Hone : k = 1) by nia. subst k.
  assert (Hsame : position healthy st
                  = position healthy (afterTicks healthy (Z.to_nat (period healthy)) st))
    by lia.
  rewrite (remaining_of_position _ i _ _ Hst Hst' Hsame) in Hrem. lia.
Qed.

Lemma acceptedTicks_in_range n : forall st,
  Forall (fun x => (x < len)%nat) (acceptedTicks healthy n st).
Proof.
  induction n as [|n IH]; intros st; cbn [acceptedTicks]; [constructor|].
  destruct (wrrAccepts healthy (tick st)) eqn:Hacc; [|apply IH].
  constructor; [|apply IH].
  unfold wrrAccepts in Hacc. apply nth_error_Some.
  destruct (nth_error healthy (currentIndex (tick st))); discriminate.
Qed.

End Cycle.

Lemma sumBelow_ext n (f g : nat -> Z) :
  (forall i, (i < n)%nat -> f i = g i) -> sumBelow n f = sumBelow n g.
Proof.
  induction n as [|n IH]; intros H; simpl; [reflexivity|].
  rewrite IH by (intros; apply H; lia). rewrite H by lia. reflexivity.
Qed.

Lemma sumBelow_indicator n x :
  sumBelow n (fun i => if (x =? i)%nat then 1 else 0)
  = if (x <? n)%nat then 1 else 0.
Proof.
  induction n as [|n IH]; simpl sumBelow; [reflexivity|]. rewrite IH.
  destruct (x <? n)%nat eqn:E1; destruct (x =? n)%nat eqn:E2;
    destruct (x <? S n)%nat eqn:E3; try reflexivity;
    rewrite ?Nat.ltb_lt, ?Nat.ltb_ge, ?Nat.eqb_eq, ?Nat.eqb_neq in *; lia.
Qed.

Lemma sumBelow_plus n (f g : nat -> Z) :
  sumBelow n (fun i => f i + g i) = sumBelow n f + sumBelow n g.
Proof. induction n as [|n IH]; simpl; lia. Qed.

(** A list of positions is as long as its positions occur in it. *)
Lemma length_by_occurrences n (l : list nat) :
  Forall (fun x => (x < n)%nat) l ->
  Z.of_nat (List.length l) = sumBelow n (fun i => occurrences i l).
Proof.
  induction 1 as [|x l Hx Hall IH].
  - unfold occurrences. simpl. induction n; simpl; lia.
  - rewrite (sumBelow_ext n _ (fun i => (if (x =? i)%nat then 1 else 0)
                                          + occurrences i l))
      by (intros; apply occurrences_cons).
    rewrite sumBelow_plus, sumBelow_indicator, <- IH.
    apply Nat.ltb_lt in Hx. rewrite Hx. simpl List.length. lia.
Qed.

Lemma totalWeight_app (l l' : list RpcEndpoint) :
  totalWeight (l ++ l') = totalWeight l + totalWeight l'.
Proof.
  unfold totalWeight. induction l as [|e l IH]; simpl; lia.
Qed.

Lemma totalWeight_by_position (healthy : list RpcEndpoint) :
  sumBelow (List.length healthy) (weightAt healthy) = totalWeight healthy.
Proof.
  induction healthy as [|e l IH] using rev_ind; [reflexivity|].
  rewrite length_app, Nat.add_comm. simpl sumBelow.
  rewrite totalWeight_app, <- IH.
  rewrite (sumBelow_ext _ (weightAt (l ++ [e])) (weightAt l)).
  - unfold weightAt at 2. rewrite nth_error_app2 by lia.
    rewrite Nat.sub_diag. unfold totalWeight. simpl. lia.
  - intros i Hi. unfold weightAt. rewrite nth_error_app1 by assumption.
    reflexivity.
Qed.

Section Calls.

Variable healthy : list RpcEndpoint.
Hypothesis nonEmpty : healthy <> [].
Hypothesis positive : Forall (fun e => 1 <= weight e) healthy.

Local Abbreviation len := (List.length healthy).
Local Abbreviation maxW := (maxWeight healthy).
Local Abbreviation tick := (wrrAdvance (List.length healthy) (maxWeight healthy)).

Lemma totalWeight_pos : 1 <= totalWeight healthy.
Proof.
  destruct healthy as [|e l]; [contradiction|].
  inversion positive as [|? ? He Hl]; subst.
  unfold totalWeight. simpl.
  assert (G : 0 <= fold_right Z.add 0 (map weight l)).
  { clear - Hl. induction Hl; simpl; lia. }
  lia.
Qed.

(** A full sweep returns [sum(wi)] positions in all. *)
Lemma full_sweep_length st :
  inCycle healthy st ->
  List.length (acceptedTicks healthy (Z.to_nat (period healthy)) st)
  = Z.to_nat (totalWeight healthy).
Proof.
  intros Hst. apply Nat2Z.inj.
  rewrite (length_by_occurrences len) by apply acceptedTicks_in_range.
  rewrite (sumBelow_ext _ _ (weightAt healthy)).
  - rewrite totalWeight_by_position. pose proof totalWeight_pos. lia.
  - intros i Hi.
    apply (full_sweep_occurrences healthy nonEmpty positive); assumption.
Qed.

Lemma tick_inCycle st : inCycle healthy st -> inCycle healthy (tick st).
Proof.
  intros Hst.
  apply (tick_potential healthy nonEmpty positive st 0 Hst (len_pos healthy nonEmpty)).
Qed.

Lemma wrrLoop_inCycle fuel : forall st ep st',
  inCycle healthy st ->
  wrrLoop fuel healthy maxW st = Some (ep, st') ->
  inCycle healthy st'.
Proof.
  induction fuel as [|fuel IH]; intros st ep st' Hst H; [discriminate|].
  rewrite wrrLoop_unfold in H.
  destruct (wrrAccepts healthy (tick st)).
  - destruct (nth_error healthy (currentIndex (tick st))); [|discriminate].
    injection H as _ <-. apply tick_inCycle. assumption.
  - eapply IH; [|eassumption]. apply tick_inCycle. assumption.
Qed.

(** An iteration that returns nothing belongs to the same call as the
    next one. *)
Lemma wrrLoop_skip fuel st :
  inCycle healthy st ->
  (len <= fuel)%nat ->
  wrrAccepts healthy (tick st) = false ->
  wrrLoop fuel healthy maxW (tick st) <> None ->
  wrrLoop fuel healthy maxW st = wrrLoop fuel healthy maxW (tick st).
Proof.
  intros [_ Hcw] Hfuel Hacc Hsome.
  destruct (wrrLoop fuel healthy maxW (tick st)) as [r1|] eqn:H1; [|contradiction].
  destruct (wrrLoop_within_len healthy nonEmpty st) as [r Hr]; [lia|].
  pose proof (wrrLoop_fuel_le healthy _ _ st r Hfuel Hr) as Hf.
  pose proof (wrrLoop_more_fuel healthy fuel st r Hf) as HS.
  rewrite wrrLoop_unfold, Hacc, H1 in HS. congruence.
Qed.

(** The calls return, in order, the positions that the iterations of
    the loop body return: as many calls as there are returning
    iterations among the first [n] give the positions of just these. *)
Lemma calls_follow_ticks fuel :
  (len <= fuel)%nat ->
  forall n st,
    inCycle healthy st ->
    exists st',
      wrrCalls fuel (List.length (acceptedTicks healthy n st)) healthy st
      = Some (acceptedTicks healthy n st, st')
      /\ inCycle healthy st'.
Proof.
  intros Hfuel. induction n as [|n IH]; intros st Hst.
  - exists st. split; [reflexivity|assumption].
  - pose proof (tick_inCycle st Hst) as Hst1.
    destruct (IH (tick st) Hst1) as (st' & Hcalls & Hst').
    cbn [acceptedTicks].
    destruct (wrrAccepts healthy (tick st)) eqn:Hacc.
    + exists st'. split; [|assumption].
      cbn [List.length wrrCalls].
      destruct fuel as [|fuel']; [pose proof (len_pos healthy nonEmpty); lia|].
      rewrite wrrLoop_unfold, Hacc.
      unfold wrrAccepts in Hacc.
      destruct (nth_error healthy (currentIndex (tick st))); [|discriminate].
      rewrite Hcalls. reflexivity.
    + destruct (acceptedTicks healthy n (tick st)) as [|x l] eqn:Hl.
      * exists st. split; [reflexivity|assumption].
      * exists st'. split; [|assumption].
        cbn [List.length wrrCalls] in *.
        rewrite wrrLoop_skip; [assumption|assumption|assumption|assumption|].
        intros Hnone. rewrite Hnone in Hcalls. discriminate.
Qed.

Lemma wrrCalls_app fuel a : forall b st,
  wrrCalls fuel (a + b) healthy st
  = match wrrCalls fuel a healthy st with
    | None => None
    | Some (picks1, st1) =>
        match wrrCalls fuel b healthy st1 with
        | None => None
        | Some (picks2, st2) => Some (picks1 ++ picks2, st2)
        end
    end.
Proof.
  induction a as [|a IH]; intros b st.
  - simpl. destruct (wrrCalls fuel b healthy st) as [[p s]|]; reflexivity.
  - cbn [Nat.add wrrCalls].
    destruct (wrrLoop fuel healthy maxW st) as [[e st1]|]; [|reflexivity].
    rewrite IH.
    destruct (wrrCalls fuel a healthy st1) as [[p1 s1]|]; [|reflexivity].
    destruct (wrrCalls fuel b healthy s1) as [[p2 s2]|]; reflexivity.
Qed.

(** [sum(wi)] calls return position [i] exactly [wi] times. *)
Lemma one_cycle fuel st :
  (len <= fuel)%nat ->
  inCycle healthy st ->
  exists picks st',
    wrrCalls fuel (Z.to_nat (totalWeight healthy)) healthy st = Some (picks, st')
    /\ inCycle healthy st'
    /\ forall i, (i < len)%nat -> occurrences i picks = weightAt healthy i.
Proof.
  intros Hfuel Hst.
  destruct (calls_follow_ticks fuel Hfuel (Z.to_nat (period healthy)) st Hst)
    as (st' & Hcalls & Hst').
  rewrite full_sweep_length in Hcalls by assumption.
  exists (acceptedTicks healthy (Z.to_nat (period healthy)) st), st'.
  split; [assumption|]. split; [assumption|].
  intros i Hi. apply (full_sweep_occurrences healthy nonEmpty positive); assumption.
Qed.

Lemma many_cycles fuel :
  (len <= fuel)%nat ->
  forall m st,
    inCycle healthy st ->
    exists picks st',
      wrrCalls fuel (m * Z.to_nat (totalWeight healthy)) healthy st = Some (picks, st')
      /\ inCycle healthy st'
      /\ forall i, (i < len)%nat ->
           occurrences i picks = Z.of_nat m * weightAt healthy i.
Proof.
  intros Hfuel. induction m as [|m IH]; intros st Hst.
  - exists [], st. split; [reflexivity|]. split; [assumption|].
    intros i _. unfold occurrences. simpl. lia.
  - destruct (one_cycle fuel st Hfuel Hst) as (p1 & st1 & H1 & Hst1 & Hocc1).
    destruct (IH st1 Hst1) as (p2 & st2 & H2 & Hst2 & Hocc2).
    exists (p1 ++ p2), st2.
    cbn [Nat.mul]. rewrite wrrCalls_app, H1, H2.
    split; [reflexivity|]. split; [assumption|].
    intros i Hi. rewrite occurrences_app, Hocc1, Hocc2 by assumption. lia.
Qed.

End Calls.

(** A freshly constructed balancer is in the cycle of any non-empty
    snapshot. *)
Lemma wrrInitial_inCycle (healthy : list RpcEndpoint) :
  healthy <> [] ->
  Forall (fun e => 1 <= weight e) healthy ->
  inCycle healthy wrrInitial.
Proof.
  intros Hne Hpos. split; simpl.
  - apply len_pos. assumption.
  - pose proof (maxW_pos healthy Hne Hpos). lia.
Qed.

(** C3. Over an unchanging non-empty healthy list with integer weights
    wi >= 1, from the initial state or any state met later (cursor
    inside the list, level between 0 and the maximum weight), every run
    of N = m * sum(wi) successive calls of the weighted round-robin
    [selectEndpoint] (each given at least as many loop iterations as
    there are endpoints) returns the endpoint at position i exactly
    m * wi times, that is N * wi / sum(wi) times, with no transient and
    no rounding; the run ends in a state of the same kind. *)
Theorem wrr_selection_proportional_to_weight :
  forall (healthy : list RpcEndpoint) (st : WrrState) (m fuel : nat),
    healthy <> [] ->
    Forall (fun e => 1 <= weight e) healthy ->
    inCycle healthy st ->
    (List.length healthy <= fuel)%nat ->
    exists picks st',
      wrrCalls fuel (m * Z.to_nat (totalWeight healthy)) healthy st = Some (picks, st')
      /\ inCycle healthy st'
      /\ forall i e,
           nth_error healthy i = Some e ->
           occurrences i picks = Z.of_nat m * weight e
           /\ occurrences i picks * totalWeight healthy
              = Z.of_nat (m * Z.to_nat (totalWeight healthy)) * weight e.
Proof.
  intros healthy st m fuel Hne Hpos Hst Hfuel.
  destruct (many_cycles healthy Hne Hpos fuel Hfuel m st Hst)
    as (picks & st' & Hcalls & Hst' & Hocc).
  exists picks, st'. split; [assumption|]. split; [assumption|].
  intros i e Hi.
  assert (Hlt : (i < List.length healthy)%nat).
  { apply nth_error_Some. rewrite Hi. discriminate. }
  specialize (Hocc i Hlt). unfold weightAt in Hocc. rewrite Hi in Hocc.
  split; [assumption|].
  pose proof (totalWeight_pos healthy Hne Hpos).
  rewrite Hocc, Nat2Z.inj_mul, Z2Nat.id by lia. ring.
Qed.

Lemma wrr_selection_proportional_witness :
  exists picks st',
    wrrCalls 2 (5 * Z.to_nat (totalWeight threeOne)) threeOne wrrInitial
    = Some (picks, st')
    /\ inCycle threeOne st'
    /\ forall i e,
         nth_error threeOne i = Some e ->
         occurrences i picks = Z.of_nat 5 * weight e
         /\ occurrences i picks * totalWeight threeOne
            = Z.of_nat (5 * Z.to_nat (totalWeight threeOne)) * weight e.
Proof.
  apply (wrr_selection_proportional_to_weight threeOne wrrInitial 5 2).
  - discriminate.
  - repeat constructor; discriminate.
  - split; simpl; lia.
  - simpl; lia.
Defined.

Example wrr_three_one_first_cycles :
  option_map fst (wrrCalls 2 8 threeOne wrrInitial)
  = Some [1; 0; 0; 0; 1; 0; 0; 0]%nat.
Proof. reflexivity. Qed.

End WrrFairness.

(* ------------------------------------------------------------------ *)
(** * Further properties of the code *)

(** ** The pool as a map *)

Module PoolLaws.

Import Pool PoolFacts Notions.

Lemma get_set_same (p : Pool.t) u e : get (set p u e) u = Some e.
Proof.
  induction p as [|[k v] p IH]; simpl.
  - rewrite String.eqb_refl. reflexivity.
  - destruct (String.eqb u k) eqn:E; simpl; rewrite ?String.eqb_refl, ?E; auto.
Qed.

Lemma get_set_other (p : Pool.t) u u' e :
  u <> u' -> get (set p u e) u' = get p u'.
Proof.
  intros Hne. induction p as [|[k v] p IH]; simpl.
  - destruct (String.eqb u' u) eqn:E; [|reflexivity].
    apply String.eqb_eq in E. congruence.
  - destruct (String.eqb u k) eqn:E; simpl.
    + apply String.eqb_eq in E. subst k.
      destruct (String.eqb u' u) eqn:E'; [|reflexivity].
      apply String.eqb_eq in E'. congruence.
    + rewrite IH. reflexivity.
Qed.

Lemma get_none_keys (p : Pool.t) u : get p u = None <-> ~ In u (map fst p).
Proof.
  induction p as [|[k v] p IH]; simpl; [tauto|].
  destruct (String.eqb u k) eqn:E.
  - apply String.eqb_eq in E. subst. split; [discriminate|]. intros H. tauto.
  - apply String.eqb_neq in E. rewrite IH. split; [|tauto].
    intros H [Heq | Hin]; [congruence|tauto].
Qed.

Lemma keys_set (p : Pool.t) u e :
  map fst (set p u e)
  = match get p u with
    | Some _ => map fst p
    | None => map fst p ++ [u]
    end.
Proof.
  induction p as [|[k v] p IH]; simpl; [reflexivity|].
  destruct (String.eqb u k) eqn:E; simpl.
  - apply String.eqb_eq in E. subst. reflexivity.
  - rewrite IH. destruct (get p u); reflexivity.
Qed.

Lemma keys_modify (p : Pool.t) u f : map fst (modify p u f) = map fst p.
Proof.
  induction p as [|[k v] p IH]; simpl; [reflexivity|].
  destruct (String.eqb u k); simpl; [reflexivity|]. rewrite IH. reflexivity.
Qed.

Lemma modify_absent (p : Pool.t) u f : get p u = None -> modify p u f = p.
Proof.
  induction p as [|[k v] p IH]; simpl; [reflexivity|].
  destruct (String.eqb u k); [discriminate|]. intros H. rewrite IH by assumption.
  reflexivity.
Qed.

Lemma delete_present (p : Pool.t) u :
  snd (delete p u) = match get p u with Some _ => true | None => false end.
Proof.
  induction p as [|[k v] p IH]; simpl; [reflexivity|].
  destruct (String.eqb u k); [reflexivity|].
  destruct (delete p u) as [r b]. simpl in *. assumption.
Qed.

Lemma delete_absent (p : Pool.t) u : get p u = None -> delete p u = (p, false).
Proof.
  induction p as [|[k v] p IH]; simpl; [reflexivity|].
  destruct (String.eqb u k); [discriminate|]. intros H.
  rewrite IH by assumption. reflexivity.
Qed.

Lemma get_delete_other (p : Pool.t) u u' :
  u <> u' -> get (fst (delete p u)) u' = get p u'.
Proof.
  intros Hne. induction p as [|[k v] p IH]; simpl; [reflexivity|].
  destruct (String.eqb u k) eqn:E; simpl.
  - apply String.eqb_eq in E. subst k.
    destruct (String.eqb u' u) eqn:E'; [|reflexivity].
    apply String.eqb_eq in E'. congruence.
  - destruct (delete p u) as [r b]. simpl in *. rewrite IH. reflexivity.
Qed.

Lemma keys_delete_subset (p : Pool.t) u x :
  In x (map fst (fst (delete p u))) -> In x (map fst p).
Proof.
  induction p as [|[k v] p IH]; simpl; [tauto|].
  destruct (String.eqb u k); simpl; [tauto|].
  destruct (delete p u) as [r b]. simpl in *. tauto.
Qed.

Lemma get_delete_same (p : Pool.t) u :
  NoDup (map fst p) -> get (fst (delete p u)) u = None.
Proof.
  induction p as [|[k v] p IH]; simpl; intros Hnd; [reflexivity|].
  inversion Hnd as [|? ? Hk Hnd']; subst.
  destruct (String.eqb u k) eqn:E; simpl.
  - apply String.eqb_eq in E. subst k. apply get_none_keys. assumption.
  - destruct (delete p u) as [r b] eqn:D. simpl in *. rewrite E. auto.
Qed.

Lemma length_delete (p : Pool.t) u :
  Z.of_nat (List.length (fst (delete p u)))
  = Z.of_nat (List.length p) - (if snd (delete p u) then 1 else 0).
Proof.
  induction p as [|[k v] p IH]; [reflexivity|].
  cbn [delete]. destruct (String.eqb u k).
  - cbn [fst snd List.length]. lia.
  - destruct (delete p u) as [r b]. cbn [fst snd List.length] in *. lia.
Qed.

Lemma wellKeyed_set (p : Pool.t) u e :
  url e = u -> wellKeyed p -> wellKeyed (set p u e).
Proof.
  intros He [Hnd Hall]. split.
  - rewrite keys_set. destruct (get p u) eqn:G; [assumption|].
    apply get_none_keys in G.
    apply NoDup_rev in Hnd. rewrite <- (rev_involutive (map fst p ++ [u])).
    apply NoDup_rev. rewrite rev_app_distr. simpl. constructor; [|assumption].
    rewrite <- in_rev. assumption.
  - clear Hnd. induction p as [|[k v] p IH]; simpl.
    + repeat constructor. assumption.
    + inversion Hall as [|x l Hh Ht]; subst x l.
      destruct (String.eqb u k); constructor; auto.
Qed.

Lemma wellKeyed_modify (p : Pool.t) u f :
  (forall e, url (f e) = url e) -> wellKeyed p -> wellKeyed (modify p u f).
Proof.
  intros Hf [Hnd Hall]. split; [rewrite keys_modify; assumption|].
  clear Hnd. induction p as [|[k v] p IH]; simpl; [constructor|].
  inversion Hall; subst.
  destruct (String.eqb u k); constructor; simpl in *; auto.
  rewrite Hf. assumption.
Qed.

Lemma wellKeyed_delete (p : Pool.t) u :
  wellKeyed p -> wellKeyed (fst (delete p u)).
Proof.
  intros [Hnd Hall]. induction p as [|[k v] p IH]; simpl; [split; constructor|].
  inversion Hnd as [|? ? Hk Hnd']; inversion Hall; subst.
  destruct (String.eqb u k); simpl; [split; assumption|].
  destruct (IH Hnd' ltac:(assumption)) as [Hnd2 Hall2].
  pose proof (keys_delete_subset p u k) as Hsub.
  destruct (delete p u) as [r b]. simpl in *. split.
  - constructor; [|assumption]. intros Hin. apply Hk. apply Hsub. assumption.
  - constructor; assumption.
Qed.

Lemma wellKeyed_apply (p : Pool.t) (o : op) : wellKeyed p -> wellKeyed (apply p o).
Proof.
  intros H. destruct o; simpl.
  - apply wellKeyed_set; [reflexivity|assumption].
  - apply wellKeyed_delete. assumption.
  - apply wellKeyed_modify; [reflexivity|assumption].
  - apply wellKeyed_modify; [reflexivity|assumption].
  - apply wellKeyed_modify; [reflexivity|assumption].
  - apply wellKeyed_modify; [reflexivity|assumption].
Qed.

Lemma wellKeyed_create now (rpcs : list RpcConfig) : wellKeyed (create now rpcs).
Proof.
  unfold create.
  assert (G : forall p, wellKeyed p -> wellKeyed (fold_left (addEndpoint now) rpcs p)).
  { induction rpcs as [|r rs IH]; simpl; intros p Hp; [assumption|].
    apply IH. apply (wellKeyed_apply p (OpAdd now r)). assumption. }
  apply G. split; constructor.
Qed.

(** Decides [wellKeyed] on a pool given in full. *)
Ltac keyed :=
  split;
  [repeat (constructor; [simpl; intuition discriminate|]); constructor
  |repeat constructor].

(** X1. In every pool reached from construction by the six mutators no
    URL occurs twice and every endpoint is stored under its own [url]. *)
Theorem pool_keys_unique :
  forall (now : Z) (rpcs : list RpcConfig) (ops : list op),
    wellKeyed (run (create now rpcs) ops).
Proof.
  intros now rpcs ops. generalize (wellKeyed_create now rpcs).
  generalize (create now rpcs). unfold run.
  induction ops as [|o ops IH]; simpl; intros p Hp; [assumption|].
  apply IH. apply wellKeyed_apply. assumption.
Qed.

(** X2. [addEndpoint] then [getEndpoint]: the URL now holds a healthy
    endpoint of the given weight with every counter and the average at
    zero, whatever it held before; no other URL is affected; an
    existing URL keeps its place in the iteration order and the count,
    a new one goes to the end and the count grows by one. *)
Theorem add_then_get :
  forall (now : Z) (p : Pool.t) (rpc : RpcConfig),
    getEndpoint (addEndpoint now p rpc) (cfg_url rpc)
    = Some (mkRpcEndpoint (cfg_url rpc) (cfg_weight rpc) true now 0 0 0 0 0)
    /\ (forall u, u <> cfg_url rpc ->
          getEndpoint (addEndpoint now p rpc) u = getEndpoint p u)
    /\ map fst (addEndpoint now p rpc)
       = match getEndpoint p (cfg_url rpc) with
         | Some _ => map fst p
         | None => map fst p ++ [cfg_url rpc]
         end
    /\ getTotalCount (addEndpoint now p rpc)
       = getTotalCount p + match getEndpoint p (cfg_url rpc) with
                           | Some _ => 0
                           | None => 1
                           end.
Proof.
  intros now p rpc. unfold getEndpoint, addEndpoint, getTotalCount.
  split; [apply get_set_same|].
  split; [intros u Hu; apply get_set_other; congruence|].
  split; [apply keys_set|].
  rewrite <- (length_map fst), keys_set, <- (length_map fst p).
  destruct (get p (cfg_url rpc)); [lia|].
  rewrite length_app. simpl. lia.
Qed.

(** X3. [removeEndpoint] on a pool with unique URLs: it returns true
    exactly when the URL was present; afterwards the URL is absent,
    every other URL holds what it held, and the count is down by one
    if and only if true was returned. *)
Theorem remove_then_get :
  forall (p : Pool.t) (u : string),
    wellKeyed p ->
    snd (removeEndpoint p u)
    = match getEndpoint p u with Some _ => true | None => false end
    /\ getEndpoint (fst (removeEndpoint p u)) u = None
    /\ (forall u', u' <> u ->
          getEndpoint (fst (removeEndpoint p u)) u' = getEndpoint p u')
    /\ getTotalCount (fst (removeEndpoint p u))
       = getTotalCount p - (if snd (removeEndpoint p u) then 1 else 0).
Proof.
  intros p u [Hnd _]. unfold removeEndpoint, getEndpoint, getTotalCount.
  split; [apply delete_present|].
  split; [apply get_delete_same; assumption|].
  split; [intros u' Hu'; apply get_delete_other; congruence|].
  apply length_delete.
Qed.

Lemma remove_then_get_witness :
  getEndpoint (fst (removeEndpoint (create 0 [mkRpcConfig "http://a" 1;
                                             mkRpcConfig "http://b" 2])
                      "http://a")) "http://a" = None.
Proof.
  apply (remove_then_get (create 0 [mkRpcConfig "http://a" 1; mkRpcConfig "http://b" 2])
           "http://a").
  keyed.
Defined.

(** X4. On a URL that is not in the pool the mutators do nothing:
    [recordSuccess], [recordFailure], [markHealthy] and [markUnhealthy]
    return the pool as it was and [removeEndpoint] returns false. *)
Theorem unknown_url_is_noop :
  forall (now rt : Z) (p : Pool.t) (u : string),
    getEndpoint p u = None ->
    recordSuccess now p u rt = p
    /\ recordFailure now p u = p
    /\ markHealthy p u = p
    /\ markUnhealthy p u = p
    /\ removeEndpoint p u = (p, false).
Proof.
  intros now rt p u H. unfold getEndpoint in H.
  unfold recordSuccess, recordFailure, markHealthy, markUnhealthy, removeEndpoint.
  rewrite !modify_absent by assumption. rewrite delete_absent by assumption.
  repeat split.
Qed.

Lemma unknown_url_is_noop_witness :
  recordFailure 5 (create 0 [mkRpcConfig "http://a" 1]) "http://zz"
  = create 0 [mkRpcConfig "http://a" 1].
Proof.
  apply (unknown_url_is_noop 5 0 (create 0 [mkRpcConfig "http://a" 1]) "http://zz").
  reflexivity.
Defined.

Lemma shape_modify (p : Pool.t) u f :
  (forall e, url (f e) = url e /\ weight (f e) = weight e /\ healthy (f e) = healthy e) ->
  shape (modify p u f) = shape p.
Proof.
  intros Hf. unfold shape. induction p as [|[k v] p IH]; simpl; [reflexivity|].
  destruct (String.eqb u k); simpl; [|rewrite IH; reflexivity].
  destruct (Hf v) as (-> & -> & ->). reflexivity.
Qed.

(** X5. The metric updates are local: [recordSuccess] and
    [recordFailure] leave the URLs, their order, every weight and every
    health flag as they were, [markHealthy] and [markUnhealthy] leave
    the URLs and their order, and none of the four changes what
    another URL holds. *)
Theorem metric_updates_are_local :
  forall (now rt : Z) (p : Pool.t) (u : string),
    shape (recordSuccess now p u rt) = shape p
    /\ shape (recordFailure now p u) = shape p
    /\ map fst (markHealthy p u) = map fst p
    /\ map fst (markUnhealthy p u) = map fst p
    /\ (forall u', u <> u' ->
          getEndpoint (recordSuccess now p u rt) u' = getEndpoint p u'
          /\ getEndpoint (recordFailure now p u) u' = getEndpoint p u'
          /\ getEndpoint (markHealthy p u) u' = getEndpoint p u'
          /\ getEndpoint (markUnhealthy p u) u' = getEndpoint p u').
Proof.
  intros now rt p u.
  unfold recordSuccess, recordFailure, markHealthy, markUnhealthy, getEndpoint.
  split; [apply shape_modify; intros e; simpl; auto|].
  split; [apply shape_modify; intros e; simpl; auto|].
  split; [apply keys_modify|]. split; [apply keys_modify|].
  intros u' Hne. rewrite !get_modify_other by assumption. auto.
Qed.

Lemma countersOk_apply (p : Pool.t) (o : op) :
  Forall countersOk (getAllEndpoints p) ->
  Forall countersOk (getAllEndpoints (apply p o)).
Proof.
  intros Hall. destruct o; simpl.
  - apply all_set; [|assumption]. unfold countersOk; simpl. lia.
  - apply all_delete; assumption.
  - apply all_modify; [|assumption].
    intros e He. unfold countersOk in *; simpl. lia.
  - apply all_modify; [|assumption].
    intros e He. unfold countersOk in *; simpl. lia.
  - apply all_modify; [|assumption].
    intros e He. unfold countersOk in *; simpl. lia.
  - apply all_modify; [|assumption].
    intros e He. unfold countersOk in *; simpl. assumption.
Qed.

(** X6. In every pool reached from construction, each endpoint's
    streak counters are non-negative and bounded by the lifetime
    counters: 0 <= consecutiveSuccesses <= successCount and
    0 <= consecutiveFailures <= failureCount. *)
Theorem streaks_within_lifetime_counts :
  forall (now : Z) (rpcs : list RpcConfig) (ops : list op),
    Forall countersOk (getAllEndpoints (run (create now rpcs) ops)).
Proof.
  intros now rpcs ops.
  assert (Hc : Forall countersOk (getAllEndpoints (create now rpcs))).
  { unfold create.
    assert (G : forall p, Forall countersOk (getAllEndpoints p) ->
                Forall countersOk (getAllEndpoints (fold_left (addEndpoint now) rpcs p))).
    { induction rpcs as [|r rs IH]; simpl; intros p Hp; [assumption|].
      apply IH. apply (countersOk_apply p (OpAdd now r)). assumption. }
    apply G. constructor. }
  revert Hc. generalize (create now rpcs). unfold run.
  induction ops as [|o ops IH]; simpl; intros p Hp; [assumption|].
  apply IH. apply countersOk_apply. assumption.
Qed.

End PoolLaws.

(** ** Statistics and log lines *)

Module PoolViewLaws.

Import Pool PoolFacts PoolView.

Lemma mathRound_nearest (q : Q) :
  (inject_Z (mathRound q) - (1 # 2) <= q)%Q
  /\ (q < inject_Z (mathRound q) + (1 # 2))%Q.
Proof.
  unfold mathRound.
  pose proof (Qfloor_le (q + (1 # 2))) as Hle.
  pose proof (Qlt_floor (q + (1 # 2))) as Hlt.
  rewrite inject_Z_plus in Hlt. change (inject_Z 1) with 1%Q in Hlt.
  split; lra.
Qed.

(** X8. [getStats] reports the endpoints one for one in the pool's
    iteration order, with their URL, health flag, lifetime counters and
    last check unchanged, and the average rounded to a nearest integer:
    the reported value differs from the average by at most 1/2. *)
Theorem stats_follow_the_pool :
  forall p : Pool.t,
    Forall2
      (fun ep s =>
         s_url s = url ep
         /\ s_healthy s = healthy ep
         /\ s_successCount s = successCount ep
         /\ s_failureCount s = failureCount ep
         /\ s_lastCheck s = lastCheck ep
         /\ (inject_Z (s_avgResponseTime s) - (1 # 2) <= avgResponseTime ep)%Q
         /\ (avgResponseTime ep < inject_Z (s_avgResponseTime s) + (1 # 2))%Q)
      (getAllEndpoints p) (getStats p).
Proof.
  intros p. unfold getStats.
  induction (getAllEndpoints p) as [|ep l IH]; simpl; constructor; [|assumption].
  simpl. pose proof (mathRound_nearest (avgResponseTime ep)) as [H1 H2].
  repeat split; assumption.
Qed.

(** X9. The "RPC recovered" line of [markHealthy] is printed exactly
    when the endpoint exists and was unhealthy; a [markHealthy] that
    follows another prints nothing, and one that follows
    [markUnhealthy] prints the line whenever the endpoint exists. *)
Theorem recovered_is_logged_on_a_flip_only :
  forall (p : Pool.t) (u : string),
    (markHealthyLogs p u = true
     <-> exists e, getEndpoint p u = Some e /\ healthy e = false)
    /\ markHealthyLogs (markHealthy p u) u = false
    /\ markHealthyLogs (markUnhealthy p u) u = markUnhealthyLogs p u.
Proof.
  intros p u. unfold markHealthyLogs, markUnhealthyLogs, markHealthy, markUnhealthy,
    getEndpoint.
  rewrite !get_modify_same. split; [|split].
  - destruct (get p u) as [e|]; split.
    + intros H. exists e. split; [reflexivity|].
      destruct (healthy e); [discriminate|reflexivity].
    + intros (e' & He' & Hh). injection He' as <-. rewrite Hh. reflexivity.
    + discriminate.
    + intros (e' & He' & _). discriminate.
  - destruct (get p u); reflexivity.
  - destruct (get p u); reflexivity.
Qed.

End PoolViewLaws.

(** ** Selection by any strategy *)

Module StrategyLaws.

Import Balancer Factory WrrFacts LatencyFacts.









(** X11. With all weights equal the weighted variant is plain
    round-robin: from a state whose level does not exceed that weight,
    one iteration suffices and each call returns the endpoint after the
    cursor, wrapping at the end, and leaves such a state again. *)
Theorem equal_weights_rotate :
  forall (hs : list RpcEndpoint) (w : Z) (st : WrrState) (fuel : nat),
    hs <> [] ->
    Forall (fun e => weight e = w) hs ->
    currentWeight st <= w ->
    exists e st',
      wrrSelect (S fuel) hs st = Some (Some e, st')
      /\ currentIndex st' = ((currentIndex st + 1) mod List.length hs)%nat
      /\ nth_error hs (currentIndex st') = Some e
      /\ currentWeight st' <= w.
Proof.
  intros hs w st fuel Hne Hall Hcw.
  assert (HM : maxWeight hs = w).
  { destruct (maxWeight_attained hs Hne) as (j & e & Hj & Hw).
    rewrite Forall_forall in Hall. rewrite <- Hw. apply Hall.
    eapply nth_error_In; eassumption. }
  pose proof (len_pos hs Hne) as Hlen.
  set (st' := wrrAdvance (List.length hs) (maxWeight hs) st).
  assert (Hidx : currentIndex st' = ((currentIndex st + 1) mod List.length hs)%nat)
    by apply tick_index.
  assert (Hcw' : currentWeight st' <= w).
  { apply tick_weight_le; lia. }
  destruct (nth_error hs (currentIndex st')) as [e|] eqn:Hn.
  - exists e, st'.
    assert (He : weight e = w).
    { rewrite Forall_forall in Hall. apply Hall. eapply nth_error_In; eassumption. }
    assert (Hsel : wrrSelect (S fuel) hs st
                   = match wrrLoop (S fuel) hs (maxWeight hs) st with
                     | Some (ep, s) => Some (Some ep, s)
                     | None => None
                     end)
      by (destruct hs; [contradiction|reflexivity]).
    rewrite Hsel, wrrLoop_unfold. fold st'. unfold wrrAccepts. rewrite Hn.
    replace (weight e >=? currentWeight st') with true
      by (symmetry; apply Z.geb_le; lia).
    auto.
  - apply nth_error_None in Hn. rewrite Hidx in Hn.
    pose proof (Nat.mod_upper_bound (currentIndex st + 1) (List.length hs)). lia.
Qed.

Lemma equal_weights_rotate_witness :
  exists e st',
    wrrSelect 1 [Sample.unknownA; Sample.slowB; Sample.fastC] wrrInitial
    = Some (Some e, st')
    /\ currentIndex st' = ((0 + 1) mod 3)%nat
    /\ nth_error [Sample.unknownA; Sample.slowB; Sample.fastC] (currentIndex st')
       = Some e
    /\ currentWeight st' <= 1.
Proof.
  apply (equal_weights_rotate [Sample.unknownA; Sample.slowB; Sample.fastC] 1
           wrrInitial 0).
  - discriminate.
  - repeat constructor.
  - simpl. lia.
Defined.

End StrategyLaws.

(** ** Probes and passes of the health checker *)

Module HealthLaws.

Import Pool Health PoolFacts PoolLaws HealthFacts Analysis Notions Checker Sample.

Lemma modify_modify (p : Pool.t) u f g :
  modify (modify p u f) u g = modify p u (fun e => g (f e)).
Proof.
  induction p as [|[k v] p IH]; simpl; [reflexivity|].
  destruct (String.eqb u k) eqn:E; simpl; rewrite E; [reflexivity|].
  rewrite IH. reflexivity.
Qed.

Lemma modify_agree (p : Pool.t) u e f g :
  get p u = Some e -> f e = g e -> modify p u f = modify p u g.
Proof.
  induction p as [|[k v] p IH]; simpl; [reflexivity|].
  destruct (String.eqb u k).
  - intros H Hfg. injection H as ->. rewrite Hfg. reflexivity.
  - intros H Hfg. rewrite IH by assumption. reflexivity.
Qed.

Lemma modify_comm (p : Pool.t) u u' f g :
  u <> u' ->
  modify (modify p u f) u' g = modify (modify p u' g) u f.
Proof.
  intros Hne. induction p as [|[k v] p IH]; simpl; [reflexivity|].
  destruct (String.eqb u k) eqn:E; destruct (String.eqb u' k) eqn:E'; simpl;
    rewrite ?E, ?E'; try reflexivity.
  - apply String.eqb_eq in E, E'. congruence.
  - rewrite IH. reflexivity.
Qed.

(** A probe is one in-place update of the probed endpoint. *)
Lemma step_as_modify config u (p : Pool.t) x :
  step config u p x = modify p u (probeEffect config x).
Proof.
  destruct (get p u) as [e|] eqn:Hget.
  - unfold step, checkEndpoint, probeEffect.
    destruct (probeSucceeds (pr_outcome x)).
    + unfold recordSuccess, markHealthy, getEndpoint.
      rewrite get_modify_same, Hget. simpl.
      destruct (consecutiveSuccesses e + 1 >=? healthyThreshold config) eqn:G.
      * rewrite modify_modify. apply (modify_agree p u e); [assumption|].
        unfold afterSuccess. rewrite G. reflexivity.
      * apply (modify_agree p u e); [assumption|].
        unfold afterSuccess. rewrite G. reflexivity.
    + unfold recordFailure, markUnhealthy, getEndpoint.
      rewrite get_modify_same, Hget. simpl.
      destruct (consecutiveFailures e + 1 >=? unhealthyThreshold config) eqn:G.
      * rewrite modify_modify. apply (modify_agree p u e); [assumption|].
        unfold afterFailure. rewrite G. reflexivity.
      * apply (modify_agree p u e); [assumption|].
        unfold afterFailure. rewrite G. reflexivity.
  - rewrite (modify_absent p u _ Hget).
    unfold step, checkEndpoint.
    destruct (probeSucceeds (pr_outcome x)).
    + unfold recordSuccess, getEndpoint. rewrite (modify_absent p u _ Hget), Hget.
      reflexivity.
    + unfold recordFailure, getEndpoint. rewrite (modify_absent p u _ Hget), Hget.
      reflexivity.
Qed.

(** X12. Probes of different endpoints do not interfere: a probe of
    one URL leaves what every other URL holds, and the URLs and their
    order, as they were, and two probes of different URLs give the same
    pool in either order of completion. *)
Theorem probes_do_not_interfere :
  forall config (p : Pool.t) (u1 u2 : string) (x1 x2 : probe),
    u1 <> u2 ->
    getEndpoint (step config u1 p x1) u2 = getEndpoint p u2
    /\ map fst (step config u1 p x1) = map fst p
    /\ step config u1 (step config u2 p x2) x1
       = step config u2 (step config u1 p x1) x2.
Proof.
  intros config p u1 u2 x1 x2 Hne. rewrite !step_as_modify.
  split; [apply get_modify_other; assumption|].
  split; [apply keys_modify|].
  apply modify_comm. congruence.
Qed.

Lemma probes_do_not_interfere_witness :
  step thresholds "http://a"
    (step thresholds "http://b"
       (create 0 [mkRpcConfig "http://a" 1; mkRpcConfig "http://b" 1])
       Sample.probeAnswered)
    Sample.probeFailed
  = step thresholds "http://b"
      (step thresholds "http://a"
         (create 0 [mkRpcConfig "http://a" 1; mkRpcConfig "http://b" 1])
         Sample.probeFailed)
      Sample.probeAnswered.
Proof.
  apply (probes_do_not_interfere thresholds
           (create 0 [mkRpcConfig "http://a" 1; mkRpcConfig "http://b" 1])
           "http://a" "http://b" Sample.probeFailed Sample.probeAnswered).
  discriminate.
Defined.

Lemma checkAll_cons config probeOf u us (p : Pool.t) :
  checkAll config probeOf (u :: us) p
  = checkAll config probeOf us (step config u p (probeOf u)).
Proof. reflexivity. Qed.

Lemma checkAll_order config probeOf us us' :
  Permutation us us' ->
  forall p : Pool.t, checkAll config probeOf us p = checkAll config probeOf us' p.
Proof.
  induction 1 as [|u l l' Hperm IH|a b l|l l' l'' H1 IH1 H2 IH2]; intros p.
  - reflexivity.
  - rewrite !checkAll_cons. apply IH.
  - rewrite !checkAll_cons. f_equal.
    destruct (string_dec a b) as [->|Hne]; [reflexivity|].
    rewrite !step_as_modify. apply modify_comm. congruence.
  - rewrite IH1. apply IH2.
Qed.

Lemma get_checkAll config probeOf us : forall (p : Pool.t) u,
  NoDup us ->
  getEndpoint (checkAll config probeOf us p) u
  = if in_dec string_dec u us
    then option_map (probeEffect config (probeOf u)) (getEndpoint p u)
    else getEndpoint p u.
Proof.
  induction us as [|a us IH]; intros p u Hnd; [reflexivity|].
  inversion Hnd as [|? ? Ha Hnd']; subst.
  rewrite checkAll_cons, IH by assumption.
  rewrite step_as_modify. unfold getEndpoint.
  destruct (in_dec string_dec u (a :: us)) as [Hin | Hout];
    destruct (in_dec string_dec u us) as [Hin' | Hout'].
  - assert (a <> u) by (intros ->; contradiction).
    rewrite get_modify_other by assumption. reflexivity.
  - destruct Hin as [-> | Hin]; [|contradiction].
    rewrite get_modify_same. reflexivity.
  - exfalso. apply Hout. right. assumption.
  - assert (a <> u) by (intros ->; apply Hout; left; reflexivity).
    rewrite get_modify_other by assumption. reflexivity.
Qed.

Lemma probed_keys (p : Pool.t) : wellKeyed p -> probed p = map fst p.
Proof.
  intros [_ Hall]. unfold probed, getAllEndpoints. rewrite map_map.
  induction Hall as [|kv l Hkv _ IH]; simpl; [reflexivity|].
  rewrite Hkv, IH. reflexivity.
Qed.

(** X13. A full pass probes every endpoint of the pool, healthy or
    not, and, in whatever order the probes complete, leaves each
    endpoint with exactly the effect of its own probe: the success or
    failure record and, at the threshold, the change of its health
    flag. *)
Theorem pass_applies_each_probe_once :
  forall config (probeOf : string -> probe) (completion : list string)
         (p : Pool.t),
    wellKeyed p ->
    Permutation completion (probed p) ->
    checkAll config probeOf completion p = checkAll config probeOf (probed p) p
    /\ forall u,
         getEndpoint (checkAll config probeOf completion p) u
         = option_map (probeEffect config (probeOf u)) (getEndpoint p u).
Proof.
  intros config probeOf completion p Hwk Hperm.
  split; [apply checkAll_order; assumption|].
  intros u. rewrite (checkAll_order config probeOf _ _ Hperm).
  rewrite get_checkAll
    by (rewrite probed_keys by assumption; destruct Hwk; assumption).
  destruct (in_dec string_dec u (probed p)) as [Hin | Hout]; [reflexivity|].
  rewrite probed_keys in Hout by assumption.
  apply get_none_keys in Hout. unfold getEndpoint. rewrite Hout. reflexivity.
Qed.

Lemma pass_applies_each_probe_once_witness :
  checkAll thresholds (fun _ => Sample.probeFailed) ["http://b"; "http://a"]%string
    (create 0 [mkRpcConfig "http://a" 1; mkRpcConfig "http://b" 1])
  = checkAll thresholds (fun _ => Sample.probeFailed)
      (probed (create 0 [mkRpcConfig "http://a" 1; mkRpcConfig "http://b" 1]))
      (create 0 [mkRpcConfig "http://a" 1; mkRpcConfig "http://b" 1]).
Proof.
  apply (pass_applies_each_probe_once thresholds (fun _ => Sample.probeFailed)
           ["http://b"; "http://a"]%string
           (create 0 [mkRpcConfig "http://a" 1; mkRpcConfig "http://b" 1])).
  - keyed.
  - apply perm_swap.
Defined.

(** X14. For any unhealthy-threshold: a healthy endpoint with no
    failure in a row stays healthy over every probe sequence in which
    no run of failures reaches the threshold, its counter being the
    length of the run in progress; and the failed probe that brings
    the run to the threshold marks it unhealthy. *)
Theorem unhealthy_exactly_at_threshold :
  forall config u (p : Pool.t) e (xs : list probe) (f : probe),
    getEndpoint p u = Some e ->
    healthy e = true ->
    consecutiveFailures e = 0 ->
    reachesStreak (unhealthyThreshold config) xs 0 = false ->
    probeSucceeds (pr_outcome f) = false ->
    option_map healthy (getEndpoint (steps config u p xs) u) = Some true
    /\ option_map consecutiveFailures (getEndpoint (steps config u p xs) u)
       = Some (trailingFailures xs 0)
    /\ option_map healthy (getEndpoint (steps config u p (xs ++ [f])) u)
       = Some (negb (trailingFailures xs 0 + 1 >=? unhealthyThreshold config)).
Proof.
  intros config u p e xs f Hget Hh Hcf Hno Hf.
  destruct (below_threshold_stays_healthy config u xs p e 0 Hget Hh Hcf Hno)
    as (e' & He' & Hh' & Hcf').
  rewrite He'. simpl. rewrite Hh', Hcf'. split; [reflexivity|]. split; [reflexivity|].
  rewrite steps_snoc, (step_failure config u _ f e' He' Hf). simpl.
  unfold afterFailure. rewrite Hcf'.
  destruct (trailingFailures xs 0 + 1 >=? unhealthyThreshold config); simpl;
    rewrite ?Hh'; reflexivity.
Qed.

Lemma unhealthy_exactly_at_threshold_witness :
  option_map healthy
    (getEndpoint (steps thresholds "http://a" Sample.onePool
                    ([Sample.probeFailed; Sample.probeAnswered; Sample.probeFailed;
                      Sample.probeFailed] ++ [Sample.probeFailed]))
       "http://a")
  = Some (negb (trailingFailures
                  [Sample.probeFailed; Sample.probeAnswered; Sample.probeFailed;
                   Sample.probeFailed] 0 + 1 >=? unhealthyThreshold thresholds)).
Proof.
  apply (unhealthy_exactly_at_threshold thresholds "http://a" Sample.onePool
           (mkRpcEndpoint "http://a" 1 true 0 0 0 0 0 0)
           [Sample.probeFailed; Sample.probeAnswered; Sample.probeFailed;
            Sample.probeFailed] Sample.probeFailed); reflexivity.
Defined.

Lemma below_recovery_stays_unhealthy config u xs : forall (p : Pool.t) e acc,
  getEndpoint p u = Some e ->
  healthy e = false ->
  consecutiveSuccesses e = acc ->
  reachesSuccessStreak (healthyThreshold config) xs acc = false ->
  exists e', getEndpoint (steps config u p xs) u = Some e'
             /\ healthy e' = false.
Proof.
  induction xs as [|x xs IH]; simpl; intros p e acc Hget Hh Hcs Hno.
  - exists e. auto.
  - apply orb_false_iff in Hno. destruct Hno as [Hlt Hno].
    destruct (probeSucceeds (pr_outcome x)) eqn:E.
    + simpl in Hlt. apply Z.leb_gt in Hlt.
      apply (IH (step config u p x) _ (acc + 1) (step_success config u p x e Hget E)).
      * unfold afterSuccess.
        destruct (consecutiveSuccesses e + 1 >=? healthyThreshold config) eqn:G;
          simpl; [lia|assumption].
      * unfold afterSuccess. destruct (_ >=? _); simpl; lia.
      * assumption.
    + apply (IH (step config u p x) _ 0 (step_failure config u p x e Hget E)).
      * unfold afterFailure. destruct (_ >=? _); simpl; auto.
      * unfold afterFailure. destruct (_ >=? _); reflexivity.
      * assumption.
Qed.

(** X15. For any healthy-threshold: an unhealthy endpoint is not
    readmitted by probes among which no run of successes reaches the
    threshold, and a successful probe that finds the endpoint with
    consecutiveSuccesses + 1 at the threshold or above makes it healthy
    and zeroes consecutiveFailures. *)
Theorem readmitted_exactly_at_threshold :
  forall config u (p : Pool.t) e (xs : list probe) (s : probe),
    getEndpoint p u = Some e ->
    healthy e = false ->
    reachesSuccessStreak (healthyThreshold config) xs (consecutiveSuccesses e) = false ->
    probeSucceeds (pr_outcome s) = true ->
    option_map healthy (getEndpoint (steps config u p xs) u) = Some false
    /\ (forall e',
          getEndpoint (steps config u p xs) u = Some e' ->
          consecutiveSuccesses e' + 1 >= healthyThreshold config ->
          exists e'',
            getEndpoint (steps config u p (xs ++ [s])) u = Some e''
            /\ healthy e'' = true
            /\ consecutiveFailures e'' = 0).
Proof.
  intros config u p e xs s Hget Hh Hno Hs.
  destruct (below_recovery_stays_unhealthy config u xs p e _ Hget Hh eq_refl Hno)
    as (e1 & He1 & Hh1).
  split; [rewrite He1; simpl; congruence|].
  intros e' He' Hreach. rewrite steps_snoc.
  rewrite (step_success config u _ s e' He' Hs).
  eexists. split; [reflexivity|]. unfold afterSuccess.
  replace (consecutiveSuccesses e' + 1 >=? healthyThreshold config) with true
    by (symmetry; apply Z.geb_le; lia).
  split; reflexivity.
Qed.

Lemma readmitted_exactly_at_threshold_witness :
  option_map healthy
    (getEndpoint (steps thresholds "http://a" Sample.downPool
                    [Sample.probeAnswered; Sample.probeFailed; Sample.probeAnswered])
       "http://a")
  = Some false.
Proof.
  apply (readmitted_exactly_at_threshold thresholds "http://a" Sample.downPool
           (mkRpcEndpoint "http://a" 1 false 0 0 0 0 0 0)
           [Sample.probeAnswered; Sample.probeFailed; Sample.probeAnswered]
           Sample.probeAnswered); reflexivity.
Defined.

End HealthLaws.

(** ** The health checker's life cycle *)

Module CheckerLaws.

Import Checker Notions.

Lemma liveTimers_app es1 : forall es2 live,
  liveTimers (es1 ++ es2) live = liveTimers es2 (liveTimers es1 live).
Proof.
  induction es1 as [|e es1 IH]; intros es2 live; [reflexivity|].
  destruct e; simpl; apply IH.
Qed.

Lemma countSet_app es1 es2 : countSet (es1 ++ es2) = (countSet es1 + countSet es2)%nat.
Proof. unfold countSet. rewrite filter_app, length_app. reflexivity. Qed.

Lemma countRuns_app es1 es2 :
  countRuns (es1 ++ es2) = (countRuns es1 + countRuns es2)%nat.
Proof. unfold countRuns. rewrite filter_app, length_app. reflexivity. Qed.

Lemma exec_keeps config c k :
  consistent c ->
  consistent (fst (exec config c k))
  /\ liveTimers (snd (exec config c k)) (timersOf c) = timersOf (fst (exec config c k))
  /\ countRuns (snd (exec config c k)) = countSet (snd (exec config c k))
  /\ (hc_enabled config = false -> intervalId c = None ->
        snd (exec config c k) = [] /\ intervalId (fst (exec config c k)) = None).
Proof.
  intros Hc. unfold consistent in *. destruct k as [timer|]; simpl.
  - unfold start. destruct (hc_enabled config) eqn:En; simpl.
    + destruct (isRunning c) eqn:Er; simpl.
      * repeat split; intros; try discriminate; tauto.
      * assert (Hnone : intervalId c = None).
        { destruct (intervalId c) eqn:Ei; [|reflexivity].
          assert (false = true) by (apply Hc; discriminate). discriminate. }
        unfold timersOf. rewrite Hnone. simpl.
        repeat split; intros; try discriminate; auto.
    + repeat split; intros; auto; tauto.
  - unfold stop, timersOf. destruct (intervalId c) as [t|] eqn:Ei; simpl.
    + destruct (Nat.eq_dec t t) as [_|Hne]; [|contradiction].
      repeat split; intros; try discriminate; try congruence; auto.
    + repeat split; intros; try discriminate; try congruence; auto.
Qed.

Lemma execAll_keeps config ks : forall c,
  consistent c ->
  consistent (fst (execAll config c ks))
  /\ liveTimers (snd (execAll config c ks)) (timersOf c)
     = timersOf (fst (execAll config c ks))
  /\ countRuns (snd (execAll config c ks)) = countSet (snd (execAll config c ks))
  /\ (hc_enabled config = false -> intervalId c = None ->
        snd (execAll config c ks) = []
        /\ intervalId (fst (execAll config c ks)) = None).
Proof.
  induction ks as [|k ks IH]; intros c Hc.
  - simpl. repeat split; auto; apply Hc.
  - cbn [execAll].
    destruct (exec_keeps config c k Hc) as (H1 & H2 & H3 & H4).
    destruct (exec config c k) as [c1 es1]. simpl in H1, H2, H3, H4.
    destruct (IH c1 H1) as (G1 & G2 & G3 & G4).
    destruct (execAll config c1 ks) as [c2 es2]. simpl in *.
    split; [assumption|]. split; [rewrite liveTimers_app, H2; assumption|].
    split; [rewrite countRuns_app, countSet_app; lia|].
    intros Hoff Hnone. destruct (H4 Hoff Hnone) as [-> Hn1].
    destruct (G4 Hoff Hn1) as [-> Hn2]. auto.
Qed.

(** X16. Over any sequence of [start()] and [stop()] calls on a new
    checker: it is running exactly when it holds a timer; the timers
    set and not yet cleared are that one timer or none, so no timer
    is ever left behind; every timer set comes with one immediate
    pass; with checks disabled nothing is ever set or run; and after a
    [stop()] the checker is not running. *)
Theorem at_most_one_timer :
  forall (config : HealthCheckConfig) (ks : list command),
    (isRunning (fst (execAll config created ks)) = true
     <-> intervalId (fst (execAll config created ks)) <> None)
    /\ liveTimers (snd (execAll config created ks)) []
       = timersOf (fst (execAll config created ks))
    /\ countRuns (snd (execAll config created ks))
       = countSet (snd (execAll config created ks))
    /\ (hc_enabled config = false -> snd (execAll config created ks) = [])
    /\ isRunning (fst (execAll config created (ks ++ [Stop]))) = false.
Proof.
  intros config ks.
  assert (Hc : consistent created) by (split; simpl; [discriminate|congruence]).
  destruct (execAll_keeps config ks created Hc) as (H1 & H2 & H3 & H4).
  split; [exact H1|]. split; [exact H2|]. split; [exact H3|].
  split; [intros Hoff; apply H4; auto|].
  clear. generalize created. induction ks as [|k ks IH]; intros c.
  - simpl. unfold stop. destruct (intervalId c); reflexivity.
  - simpl. destruct (exec config c k) as [c1 es1].
    specialize (IH c1). destruct (execAll config c1 (ks ++ [Stop])). assumption.
Qed.

Example restart_keeps_one_timer :
  execAll Sample.thresholds created [Start 1; Start 2; Stop; Stop; Start 3]
  = (mkChecker (Some 3%nat) true,
     [CheckAllRun; IntervalSet 1 30000; IntervalCleared 1;
      CheckAllRun; IntervalSet 3 30000]).
Proof. reflexivity. Qed.

End CheckerLaws.

(** ** One routed request *)

Module RouterLaws.

Import Router Notions PoolLaws.

(** Case analysis along the body of the attempt loop. *)
Ltac loop_cases :=
  repeat match goal with
         | |- context [match forwardRequest ?o with _ => _ end] =>
             destruct (forwardRequest o) eqn:?
         | |- context [match Json.prop ?a ?k with _ => _ end] =>
             destruct (Json.prop a k) eqn:?
         | |- context [if Json.truthy ?e then _ else _] =>
             destruct (Json.truthy e) eqn:?
         | |- context [match isRateLimitError ?e with _ => _ end] =>
             destruct (isRateLimitError e) as [[|]|] eqn:?
         | |- context [if (?a <? ?b) then _ else _] =>
             destruct (a <? b) eqn:?
         end.

Section Laws.

Context {B : Type} `{LoadBalancer B}.
Variable config : LoadBalancingConfig.
Variable upstream : Z -> string -> exchange.
Variable request : JsonRpcRequest.

Local Abbreviation run := (attempts config upstream request).

Lemma attempts_keep_shape remaining : forall attempt lastError (st : state B),
  shape (pool (snd (fst (run remaining attempt lastError st)))) = shape (pool st).
Proof.
  induction remaining as [|remaining IH]; intros attempt lastError st; [reflexivity|].
  cbn [attempts].
  destruct (selectEndpoint (pool st) (balancer st)) as [[endpoint|] b]; [|reflexivity].
  loop_cases;
    repeat match goal with
           | |- context [attempts config upstream request remaining ?a ?le ?s] =>
               let G := fresh "G" in
               pose proof (IH a le s) as G;
               destruct (attempts config upstream request remaining a le s)
                 as [[? ?] ?]
           end;
    cbn [fst snd pool passThrough] in *;
    rewrite ?G;
    unfold Pool.recordSuccess, Pool.recordFailure;
    rewrite ?shape_modify by (intros; simpl; auto); reflexivity.
Qed.

(** X19. Routing a request never changes which endpoints the pool
    holds, their order, their weights or their health flags: the
    router only records metrics, and taking an endpoint out of rotation
    is left to the health checker. *)
Theorem routing_keeps_membership_and_health :
  forall st : state B,
    shape (pool (snd (fst (routeSingle config upstream request st))))
    = shape (pool st)
    /\ Pool.getHealthyCount (pool (snd (fst (routeSingle config upstream request st))))
       = Pool.getHealthyCount (pool st).
Proof.
  intros st. unfold routeSingle.
  pose proof (attempts_keep_shape (Z.to_nat (maxAttempts config)) 1 None
                (mkState (requestCount st + 1) (successCount st) (failureCount st)
                         (pool st) (balancer st))) as Hs.
  cbn [pool] in Hs. split; [assumption|].
  unfold Pool.getHealthyCount, Pool.getHealthyEndpoints, Pool.getAllEndpoints.
  set (p' := pool (snd (fst (attempts config upstream request
                               (Z.to_nat (maxAttempts config)) 1 None
                               (mkState (requestCount st + 1) (successCount st)
                                        (failureCount st) (pool st) (balancer st)))))) in *.
  assert (Hh : map healthy (map snd p') = map healthy (map snd (pool st))).
  { unfold shape in Hs. rewrite !map_map.
    apply (f_equal (map (fun x : string * (string * Z * bool) => snd (snd x)))) in Hs.
    rewrite !map_map in Hs. exact Hs. }
  f_equal.
  assert (G : forall l l' : list RpcEndpoint,
             map healthy l = map healthy l' ->
             List.length (filter healthy l) = List.length (filter healthy l')).
  { induction l as [|a l IHl]; intros [|a' l'] Hm; simpl in *; try discriminate;
      [reflexivity|].
    injection Hm as Ha Hm. rewrite Ha. destruct (healthy a'); simpl; auto. }
  apply G. assumption.
Qed.

Lemma attempts_end remaining : forall attempt lastError (st : state B),
  requestCount (snd (fst (run remaining attempt lastError st))) = requestCount st
  /\ endsAs upstream request st
       (snd (fst (run remaining attempt lastError st)))
       (fst (fst (run remaining attempt lastError st)))
       (snd (run remaining attempt lastError st)).
Proof.
  induction remaining as [|remaining IH]; intros attempt lastError st.
  - cbn [attempts fst snd]. split; [reflexivity|].
    right; left. cbn. split; [eexists; reflexivity|auto].
  - cbn [attempts].
    destruct (selectEndpoint (pool st) (balancer st)) as [[endpoint|] b].
    2:{ cbn. split; [reflexivity|]. left. auto. }
    loop_cases;
      match goal with
      | |- context [attempts config upstream request remaining ?a ?le ?s] =>
          destruct (IH a le s) as (Hreq & Hend);
          destruct (attempts config upstream request remaining a le s)
            as [[r st2] evs];
          cbn [fst snd requestCount successCount failureCount pool] in *;
          split; [assumption|];
          destruct Hend as [(Hr & Hs & Hf) | [(Hle & Hs & Hf) | (Hup & Hs & Hf)]];
          [left; auto
          |right; left; auto
          |right; right; split; [|auto];
           destruct Hup as (a' & u' & Hin & Hfw); exists a', u';
           split; [|assumption]; simpl; rewrite ?in_app_iff; auto]
      | |- _ =>
          cbn [passThrough fst snd requestCount successCount failureCount pool];
          split; [reflexivity|];
          right; right; split; [|auto];
          exists attempt, (url endpoint); split; [left; reflexivity|assumption]
      end.
Qed.

(** X17. [routeSingle] counts the request once and ends in one of
    three ways: the "All RPC endpoints unavailable" response with
    the pool's healthy count, or the "Request failed after all retries"
    response, each with failedRequests up by one and
    successfulRequests unchanged; or a body that [forwardRequest]
    returned from one of the endpoints it forwarded to, handed back as
    it is, with successfulRequests up by one and failedRequests
    unchanged.  So totalRequests - successfulRequests - failedRequests
    is the same before and after. *)
Theorem route_single_ends_in_one_of_three_ways :
  forall st : state B,
    requestCount (snd (fst (routeSingle config upstream request st)))
    = requestCount st + 1
    /\ endsAs upstream request st
         (snd (fst (routeSingle config upstream request st)))
         (fst (fst (routeSingle config upstream request st)))
         (snd (routeSingle config upstream request st))
    /\ requestCount (snd (fst (routeSingle config upstream request st)))
       - successCount (snd (fst (routeSingle config upstream request st)))
       - failureCount (snd (fst (routeSingle config upstream request st)))
       = requestCount st - successCount st - failureCount st.
Proof.
  intros st. unfold routeSingle.
  destruct (attempts_end (Z.to_nat (maxAttempts config)) 1 None
              (mkState (requestCount st + 1) (successCount st) (failureCount st)
                       (pool st) (balancer st))) as (Hreq & Hend).
  cbn [requestCount] in Hreq. split; [assumption|].
  assert (Hend' := Hend).
  unfold endsAs in Hend' |- *. cbn [successCount failureCount] in *.
  split; [exact Hend|].
  destruct Hend' as [(_ & Hs & Hf) | [(_ & Hs & Hf) | (_ & Hs & Hf)]]; lia.
Qed.

Lemma attempts_bounded remaining : forall attempt lastError (st : state B),
  remaining = 0%nat \/ Z.of_nat remaining = maxAttempts config - attempt + 1 ->
  (List.length (filter isForwarded (snd (run remaining attempt lastError st)))
   <= remaining)%nat
  /\ (List.length (filter isSlept (snd (run remaining attempt lastError st)))
      <= remaining - 1)%nat
  /\ Forall (fun e => match e with
                      | Slept ms => ms = retryDelay config
                      | Forwarded _ _ => True
                      end)
            (snd (run remaining attempt lastError st)).
Proof.
  induction remaining as [|remaining IH]; intros attempt lastError st Hsync.
  - cbn. repeat split; auto.
  - destruct Hsync as [Hz | Hsync]; [discriminate|].
    assert (Hnext : remaining = 0%nat
                    \/ Z.of_nat remaining = maxAttempts config - (attempt + 1) + 1)
      by lia.
    cbn [attempts].
    destruct (selectEndpoint (pool st) (balancer st)) as [[endpoint|] b].
    2:{ cbn. repeat split; auto; lia. }
    loop_cases;
      repeat match goal with
             | H : (_ <? _) = true |- _ => apply Z.ltb_lt in H
             | H : (_ <? _) = false |- _ => apply Z.ltb_ge in H
             end;
      match goal with
      | |- context [attempts config upstream request remaining ?a ?le ?s] =>
          destruct (IH a le s Hnext) as (Hfw & Hsl & Hall);
          destruct (attempts config upstream request remaining a le s)
            as [[r st2] evs];
          cbn [fst snd app filter isForwarded isSlept List.length] in *;
          repeat split;
          [lia
          |try (destruct remaining; [cbn in Hsync; lia|]); lia
          |repeat constructor; auto]
      | |- _ =>
          cbn; repeat split; auto; lia
      end.
Qed.

(** X18. One request makes at most retries + 1 upstream calls and
    sleeps at most retries times, each time for the configured
    retryDelay; with retries below 0 it makes no call at all. *)
Theorem route_single_is_bounded :
  forall st : state B,
    (List.length (filter isForwarded (snd (routeSingle config upstream request st)))
     <= Z.to_nat (retries config + 1))%nat
    /\ (List.length (filter isSlept (snd (routeSingle config upstream request st)))
        <= Z.to_nat (retries config))%nat
    /\ Forall (fun e => match e with
                        | Slept ms => ms = retryDelay config
                        | Forwarded _ _ => True
                        end)
              (snd (routeSingle config upstream request st)).
Proof.
  intros st. unfold routeSingle.
  destruct (attempts_bounded (Z.to_nat (maxAttempts config)) 1 None
              (mkState (requestCount st + 1) (successCount st) (failureCount st)
                       (pool st) (balancer st))) as (Hfw & Hsl & Hall).
  { unfold maxAttempts. destruct (Z.le_gt_cases (retries config + 1) 0).
    - left. lia.
    - right. lia. }
  unfold maxAttempts in *. repeat split; [assumption| |assumption]. lia.
Qed.

End Laws.

End RouterLaws.

(** ** Classifying upstream answers *)

Module AnswerLaws.

Import Router Notions.

Lemma includes_unfold hay needle :
  Json.includes hay needle
  = if String.prefix needle hay then true
    else match hay with
         | EmptyString => false
         | String _ hay' => Json.includes hay' needle
         end.
Proof. destruct hay; reflexivity. Qed.

Lemma prefix_append (n b : string) : String.prefix n (n ++ b) = true.
Proof.
  induction n as [|c n IH]; simpl; [destruct b; reflexivity|].
  destruct (ascii_dec c c) as [_|Hne]; [assumption|contradiction].
Qed.

Lemma prefix_split (n h : string) :
  String.prefix n h = true -> exists b, h = (n ++ b)%string.
Proof.
  revert h. induction n as [|c n IH]; intros h Hp.
  - exists h. reflexivity.
  - destruct h as [|d h]; simpl in Hp; [discriminate|].
    destruct (ascii_dec c d) as [->|Hne]; [|discriminate].
    destruct (IH h Hp) as [b ->]. exists b. reflexivity.
Qed.

(** [includes] is the substring test. *)
Lemma includes_substring hay needle :
  Json.includes hay needle = true
  <-> exists a b, hay = (a ++ needle ++ b)%string.
Proof.
  split.
  - induction hay as [|c hay IH]; rewrite includes_unfold.
    + destruct (String.prefix needle "") eqn:Hp; [|discriminate].
      intros _. destruct (prefix_split _ _ Hp) as [b Hb]. exists ""%string, b. exact Hb.
    + destruct (String.prefix needle (String c hay)) eqn:Hp.
      * intros _. destruct (prefix_split _ _ Hp) as [b Hb].
        exists ""%string, b. exact Hb.
      * intros Hi. destruct (IH Hi) as (a & b & ->).
        exists (String c a), b. reflexivity.
  - intros (a & b & ->). induction a as [|c a IH].
    + simpl. rewrite includes_unfold, prefix_append. reflexivity.
    + rewrite includes_unfold. simpl append.
      destruct (String.prefix needle (String c (a ++ needle ++ b))); [reflexivity|].
      exact IH.
Qed.

(** X20. How an error object is classified.  With code -32005 or
    -32016 it is a rate limit whatever its message is.  Otherwise, with
    a string message, it is one exactly when the message, lower-cased,
    contains "rate limit" or "too many requests" somewhere; with no
    message, or null, it is not; and with a message of another type the
    classification throws, which [routeSingle] treats as a failed
    attempt. *)
Theorem rate_limit_classification :
  forall (ms : list (string * Json.value)),
    let error := Json.JObject ms in
    let byCode := codeIs (Json.prop error "code") (-32005)
                  || codeIs (Json.prop error "code") (-32016) in
    (byCode = true -> isRateLimitError error = Some true)
    /\ (byCode = false ->
          forall m, Json.lookup ms "message" = Some (Json.JString m) ->
            exists c, isRateLimitError error = Some c
                      /\ (c = true <-> mentions m "rate limit"
                                       \/ mentions m "too many requests"))
    /\ (byCode = false ->
          Json.lookup ms "message" = None
          \/ Json.lookup ms "message" = Some Json.JNull ->
          isRateLimitError error = Some false)
    /\ (byCode = false ->
          forall v, Json.lookup ms "message" = Some v ->
            v <> Json.JNull -> (forall m, v <> Json.JString m) ->
            isRateLimitError error = None).
Proof.
  intros ms error byCode. unfold isRateLimitError. subst error. cbn [Json.prop].
  fold (Json.prop (Json.JObject ms) "code").
  assert (Hcode : match Json.lookup ms "code" with
                  | Some x => Json.Got x
                  | None => Json.Undefined
                  end = Json.prop (Json.JObject ms) "code") by reflexivity.
  destruct (Json.lookup ms "code") as [cv|] eqn:Hc;
    (split; [|split; [|split]]); subst byCode; cbn [Json.prop]; rewrite ?Hc;
    intros Hb; try rewrite Hb; try reflexivity.
  all: try (intros m Hm; rewrite Hm; eexists; split; [reflexivity|];
            unfold mentions; rewrite orb_true_iff, !includes_substring; tauto).
  all: try (intros [Hm | Hm]; rewrite Hm; reflexivity).
  all: intros v Hm Hnull Hstr; rewrite Hm;
    destruct v; try reflexivity; [contradiction|exfalso; eapply Hstr; reflexivity].
Qed.

Lemma rate_limit_classification_witness :
  isRateLimitError
    (Json.JObject [("code", Json.JNumber (inject_Z (-32005)));
                   ("message", Json.JNumber 5)]%string) = Some true.
Proof.
  apply (rate_limit_classification
           [("code", Json.JNumber (inject_Z (-32005))); ("message", Json.JNumber 5)]%string).
  reflexivity.
Defined.

(** X21. [forwardRequest] hands a body back exactly when the status
    is 2xx and the body parsed to an object that has a "result" or an
    "error" member; an array, null or a primitive is refused, and so is
    any body under another status. *)
Theorem forwarded_body_is_a_response_object :
  forall (o : HttpOutcome) (data : Json.value),
    forwardRequest o = inr data
    <-> exists status statusText ms,
          o = HttpReply status statusText (inr data)
          /\ responseOk status = true
          /\ data = Json.JObject ms
          /\ (Json.lookup ms "result" <> None \/ Json.lookup ms "error" <> None).
Proof.
  intros o data. split.
  - destruct o as [m | status statusText [m | d]]; simpl; try discriminate.
    + destruct (responseOk status); discriminate.
    + destruct (responseOk status) eqn:Hok; simpl; [|discriminate].
      destruct d as [|b|q|s|items|ms]; simpl; try discriminate.
      * destruct b; discriminate.
      * destruct (negb (Qeq_bool q 0)); discriminate.
      * destruct (negb (String.eqb s "")); discriminate.
      * destruct (Json.lookup ms "result") eqn:Hr;
          destruct (Json.lookup ms "error") eqn:He; simpl; try discriminate;
          intros Heq; injection Heq as <-;
          exists status, statusText, ms; repeat split; auto;
          rewrite ?Hr, ?He; first [left; discriminate | right; discriminate].
  - intros (status & statusText & ms & -> & Hok & -> & Hkeys).
    simpl. rewrite Hok. simpl.
    destruct (Json.lookup ms "result"); destruct (Json.lookup ms "error");
      simpl; try reflexivity.
    destruct Hkeys as [Hk | Hk]; contradiction.
Qed.

End AnswerLaws.

(** ** The server's handlers *)

Module ServerLaws.

Import Pool Server PoolFacts PoolLaws Notions.

Lemma valid_single_shape (x : Json.value) :
  isValidSingleJsonRpc x = true
  <-> exists ms m,
        x = Json.JObject ms
        /\ Json.lookup ms "jsonrpc" = Some (Json.JString "2.0")
        /\ Json.lookup ms "method" = Some (Json.JString m).
Proof.
  split.
  - destruct x as [|b|q|s|items|ms]; simpl; try discriminate.
    destruct (Json.lookup ms "jsonrpc") as [[| | |v| |]|] eqn:Hj; try discriminate.
    destruct (Json.lookup ms "method") as [[| | |m| |]|] eqn:Hm; try discriminate.
    intros Hv. apply String.eqb_eq in Hv. subst v. eauto.
  - intros (ms & m & -> & Hj & Hm). simpl. rewrite Hj, Hm. reflexivity.
Qed.

(** X22. [handleJsonRpc] always answers with status 200.  A body that
    does not parse gets the -32700 answer and one that is not a valid
    request, or a batch with any invalid element, gets the -32600
    answer, both with a null id, without the router being called or
    its state touched; a batch is valid exactly when each element is an
    object with jsonrpc "2.0" and a string method, so the empty batch
    is valid and is routed. *)
Theorem protocol_errors_do_not_reach_the_router :
  forall (R : Type) (route : Json.value -> R -> (string + Json.value) * R)
         (parsed : option Json.value) (r : R),
    status (fst (handleJsonRpc R route parsed r)) = 200
    /\ (parsed = None ->
          handleJsonRpc R route parsed r
          = (mkResponse 200 (protocolError (-32700) "Parse error"), r))
    /\ (forall request,
          parsed = Some request -> isValidJsonRpc request = false ->
          handleJsonRpc R route parsed r
          = (mkResponse 200 (protocolError (-32600) "Invalid Request"), r))
    /\ (forall request,
          parsed = Some request -> isValidJsonRpc request = true ->
          snd (handleJsonRpc R route parsed r) = snd (route request r))
    /\ (forall items,
          isValidJsonRpc (Json.JArray items) = true
          <-> Forall (fun x => exists ms m,
                        x = Json.JObject ms
                        /\ Json.lookup ms "jsonrpc" = Some (Json.JString "2.0")
                        /\ Json.lookup ms "method" = Some (Json.JString m))
                     items).
Proof.
  intros R route parsed r. split; [|split; [|split; [|split]]].
  - unfold handleJsonRpc. destruct parsed as [request|]; [|reflexivity].
    destruct (isValidJsonRpc request); simpl; [|reflexivity].
    destruct (route request r) as [[m|resp] r']; reflexivity.
  - intros ->. reflexivity.
  - intros request -> Hinv. unfold handleJsonRpc. rewrite Hinv. reflexivity.
  - intros request -> Hv. unfold handleJsonRpc. rewrite Hv. simpl.
    destruct (route request r) as [[m|resp] r']; reflexivity.
  - intros items. simpl. rewrite forallb_forall, Forall_forall.
    split; intros Hall x Hx; apply valid_single_shape; apply Hall; assumption.
Qed.

Lemma healthy_count_positive (p : Pool.t) :
  getHealthyCount p > 0
  <-> exists e, In e (getAllEndpoints p) /\ healthy e = true.
Proof.
  unfold getHealthyCount, getHealthyEndpoints.
  split.
  - intros Hpos. destruct (filter healthy (getAllEndpoints p)) as [|e l] eqn:Hf;
      [simpl in Hpos; lia|].
    exists e. apply filter_In. rewrite Hf. left. reflexivity.
  - intros (e & Hin & Hh).
    assert (Hf : In e (filter healthy (getAllEndpoints p)))
      by (apply filter_In; auto).
    destruct (filter healthy (getAllEndpoints p)); [contradiction|simpl; lia].
Qed.

(** X23. [handleHealth] answers 200 "healthy" exactly when at least
    one endpoint of the pool is healthy and 503 "unhealthy" otherwise,
    in particular for an empty pool; the healthy count it reports never
    exceeds the total. *)
Theorem health_status_reflects_the_pool :
  forall (uptime : Z) (p : Pool.t),
    (status (handleHealth uptime p) = 200
     <-> exists e, In e (getAllEndpoints p) /\ healthy e = true)
    /\ (status (handleHealth uptime p) = 503
        <-> Forall (fun e => healthy e = false) (getAllEndpoints p))
    /\ 0 <= getHealthyCount p <= getTotalCount p.
Proof.
  intros uptime p. rewrite <- healthy_count_positive.
  unfold handleHealth. cbn [status].
  assert (Hnone : getHealthyCount p <= 0
                  <-> Forall (fun e => healthy e = false) (getAllEndpoints p)).
  { unfold getHealthyCount, getHealthyEndpoints.
    induction (getAllEndpoints p) as [|e l IH]; simpl.
    - split; [constructor|lia].
    - destruct (healthy e) eqn:Hh; simpl.
      + split; [lia|]. intros Hall. inversion Hall; subst. congruence.
      + rewrite IH. split; [constructor; auto|].
        intros Hall. inversion Hall; assumption. }
  assert (Hle : 0 <= getHealthyCount p <= getTotalCount p).
  { unfold getHealthyCount, getHealthyEndpoints, getTotalCount, getAllEndpoints.
    pose proof (filter_length_le healthy (map snd p)) as Hf.
    rewrite length_map in Hf. lia. }
  rewrite <- Hnone.
  destruct (getHealthyCount p >? 0) eqn:E.
  - apply Z.gtb_lt in E. repeat split; try lia; discriminate.
  - assert (getHealthyCount p <= 0).
    { destruct (Z.le_gt_cases (getHealthyCount p) 0) as [Hc | Hc]; [assumption|].
      apply Z.gtb_lt in Hc. congruence. }
    repeat split; try lia; discriminate.
Qed.

(** X24. [handleAddRpc] answers 200 or 400.  With 400 the pool is
    unchanged.  With 200 the body's url is a string that starts with
    "http", and afterwards that URL holds a new healthy endpoint with
    zeroed metrics whose weight is the body's weight, or 1 when the
    weight is missing or falsy; no lower bound on the weight is
    enforced here; other URLs are unaffected. *)
Theorem add_rpc_adds_or_refuses :
  forall (now : Z) (parsed : string + Json.value) (p p' : Pool.t) (resp : Response),
    handleAddRpc now parsed p = Some (resp, p') ->
    (status resp = 400 /\ p' = p)
    \/ (status resp = 200
        /\ exists data s w,
             parsed = inr data
             /\ Json.prop data "url" = Json.Got (Json.JString s)
             /\ String.prefix "http" s = true
             /\ weightOrOne (Json.prop data "weight") = Some w
             /\ (Json.readTruthy (Json.prop data "weight") = false -> w = 1)
             /\ getEndpoint p' s = Some (mkRpcEndpoint s w true now 0 0 0 0 0)
             /\ forall u, u <> s -> getEndpoint p' u = getEndpoint p u).
Proof.
  intros now parsed p p' resp. unfold handleAddRpc.
  destruct parsed as [m|data]; [intros H; injection H as <- <-; left; auto|].
  destruct (Json.prop data "url") as [| |v] eqn:Hu;
    [intros H; injection H as <- <-; left; auto
    |intros H; simpl in H; injection H as <- <-; left; auto|].
  cbn [Json.readTruthy].
  destruct (Json.truthy v) eqn:Ht; simpl;
    [|intros H; injection H as <- <-; left; auto].
  destruct v as [|b|q|s|items|ms];
    try (intros H; injection H as <- <-; left; auto; fail).
  destruct (String.prefix "http" s) eqn:Hp; simpl;
    [|intros H; injection H as <- <-; left; auto].
  destruct (weightOrOne (Json.prop data "weight")) as [w|] eqn:Hw; [|discriminate].
  intros H. injection H as <- <-. right. split; [reflexivity|].
  exists data, s, w.
  assert (Hget : getEndpoint (addEndpoint now p (mkRpcConfig s w)) s
                 = Some (mkRpcEndpoint s w true now 0 0 0 0 0))
    by apply get_set_same.
  assert (Hother : forall u', u' <> s ->
            getEndpoint (addEndpoint now p (mkRpcConfig s w)) u' = getEndpoint p u')
    by (intros u' Hu'; apply get_set_other; simpl; congruence).
  repeat split; auto.
  intros Hf. unfold weightOrOne in Hw. rewrite Hf in Hw. simpl in Hw. congruence.
Qed.

Lemma add_rpc_adds_or_refuses_witness :
  (status (mkResponse 200 (doneBody "RPC added" "http://n")) = 400
   /\ addEndpoint 7 Sample.soloPool (mkRpcConfig "http://n" (-5)) = Sample.soloPool)
  \/ (status (mkResponse 200 (doneBody "RPC added" "http://n")) = 200
      /\ exists data s w,
           Sample.negativeWeightBody = inr data
           /\ Json.prop data "url" = Json.Got (Json.JString s)
           /\ String.prefix "http" s = true
           /\ weightOrOne (Json.prop data "weight") = Some w
           /\ (Json.readTruthy (Json.prop data "weight") = false -> w = 1)
           /\ getEndpoint (addEndpoint 7 Sample.soloPool (mkRpcConfig "http://n" (-5))) s
              = Some (mkRpcEndpoint s w true 7 0 0 0 0 0)
           /\ forall u, u <> s ->
                getEndpoint (addEndpoint 7 Sample.soloPool (mkRpcConfig "http://n" (-5))) u
                = getEndpoint Sample.soloPool u).
Proof.
  apply (add_rpc_adds_or_refuses 7 Sample.negativeWeightBody Sample.soloPool).
  reflexivity.
Defined.

(** X25. [handleRemoveRpc] on a pool with unique URLs answers 200
    exactly when the URL was in the pool, and then the URL is gone and
    the others hold what they held; otherwise it answers 404 and the
    pool is unchanged. *)
Theorem remove_rpc_removes_or_reports :
  forall (u : string) (p : Pool.t),
    wellKeyed p ->
    (getEndpoint p u = None ->
       handleRemoveRpc u p = (mkResponse 404 (errorBody "RPC not found"), p))
    /\ (getEndpoint p u <> None ->
          status (fst (handleRemoveRpc u p)) = 200
          /\ getEndpoint (snd (handleRemoveRpc u p)) u = None
          /\ forall u', u' <> u ->
               getEndpoint (snd (handleRemoveRpc u p)) u' = getEndpoint p u').
Proof.
  intros u p [Hnd _].
  pose proof (delete_present p u) as Hret.
  pose proof (get_delete_same p u Hnd) as Hgone.
  assert (Hother : forall u', u' <> u -> get (fst (delete p u)) u' = get p u')
    by (intros u' Hu'; apply get_delete_other; congruence).
  unfold handleRemoveRpc, removeEndpoint, getEndpoint in *. split.
  - intros Hnone. rewrite (delete_absent p u Hnone). reflexivity.
  - intros Hsome. destruct (delete p u) as [p' removed] eqn:Hrm.
    simpl in Hret, Hgone, Hother.
    destruct (get p u); [|contradiction]. subst removed. simpl. auto.
Qed.

Lemma remove_rpc_removes_or_reports_witness :
  handleRemoveRpc "http://zz" Sample.soloPool
  = (mkResponse 404 (errorBody "RPC not found"), Sample.soloPool).
Proof.
  apply (remove_rpc_removes_or_reports "http://zz" Sample.soloPool).
  - keyed.
  - reflexivity.
Defined.

End ServerLaws.

(** ** Configuration *)

Module ConfigLaws.

Import Pool PoolFacts PoolLaws Config.

Lemma validateRpcs_ok (rs : list RpcConfig) :
  validateRpcs rs = None
  <-> Forall (fun rpc => String.prefix "http" (cfg_url rpc) = true
                         /\ 1 <= cfg_weight rpc) rs.
Proof.
  induction rs as [|rpc rs IH]; simpl; [split; [constructor|reflexivity]|].
  destruct (String.eqb (cfg_url rpc) "") eqn:He; simpl.
  - apply String.eqb_eq in He. split; [discriminate|].
    intros Hall. inversion Hall as [|? ? [Hp _] _]; subst.
    rewrite He in Hp. discriminate.
  - destruct (String.prefix "http" (cfg_url rpc)) eqn:Hp; simpl.
    + destruct (cfg_weight rpc <? 1) eqn:Hw.
      * apply Z.ltb_lt in Hw. split; [discriminate|].
        intros Hall. inversion Hall as [|? ? [_ Hge] _]; subst. lia.
      * apply Z.ltb_ge in Hw. rewrite IH. split.
        -- intros Hall. constructor; auto.
        -- intros Hall. inversion Hall; assumption.
    + split; [discriminate|].
      intros Hall. inversion Hall as [|? ? [Hp' _] _]; subst. congruence.
Qed.

Lemma validateConfig_ok :
  forall c : Config.t,
    validateConfig c = None
    <-> 1 <= port (server c) <= 65535
        /\ host (server c) <> ""%string
        /\ 0 <= retries (loadBalancing c)
        /\ 1000 <= lb_timeout (loadBalancing c)
        /\ rpcs c <> []
        /\ Forall (fun rpc => String.prefix "http" (cfg_url rpc) = true
                              /\ 1 <= cfg_weight rpc) (rpcs c).
Proof.
  intros c. unfold validateConfig.
  destruct (port (server c) =? 0) eqn:H0; simpl;
    [apply Z.eqb_eq in H0; split; [discriminate|lia]|].
  destruct (port (server c) <? 1) eqn:H1; simpl;
    [apply Z.ltb_lt in H1; split; [discriminate|lia]|].
  destruct (port (server c) >? 65535) eqn:H2; simpl;
    [apply Z.gtb_lt in H2; split; [discriminate|lia]|].
  apply Z.ltb_ge in H1.
  assert (port (server c) <= 65535).
  { destruct (Z.le_gt_cases (port (server c)) 65535) as [Hc|Hc]; [assumption|].
    apply Z.gtb_lt in Hc. congruence. }
  destruct (String.eqb (host (server c)) "") eqn:Hh;
    [apply String.eqb_eq in Hh; split; [discriminate|tauto]|].
  apply String.eqb_neq in Hh.
  destruct (retries (loadBalancing c) <? 0) eqn:Hr;
    [apply Z.ltb_lt in Hr; split; [discriminate|lia]|].
  apply Z.ltb_ge in Hr.
  destruct (lb_timeout (loadBalancing c) <? 1000) eqn:Ht;
    [apply Z.ltb_lt in Ht; split; [discriminate|lia]|].
  apply Z.ltb_ge in Ht.
  destruct (rpcs c) as [|rpc rs] eqn:Hrs; [split; [discriminate|tauto]|].
  rewrite validateRpcs_ok. split.
  - intros Hall. repeat split; auto; try lia. discriminate.
  - tauto.
Qed.

(** X26. [validateConfig] accepts a configuration exactly when the
    port is between 1 and 65535, the host is not empty, retries is not
    negative, the timeout is at least 1000, and there is at least one
    endpoint, each with a URL starting with "http" and a weight of at
    least 1. *)
Theorem validate_config_accepts :
  forall c : Config.t,
    validateConfig c = None
    <-> 1 <= port (server c) <= 65535
        /\ host (server c) <> ""%string
        /\ 0 <= retries (loadBalancing c)
        /\ 1000 <= lb_timeout (loadBalancing c)
        /\ rpcs c <> []
        /\ Forall (fun rpc => String.prefix "http" (cfg_url rpc) = true
                              /\ 1 <= cfg_weight rpc) (rpcs c).
Proof. exact validateConfig_ok. Qed.

Lemma create_all (P : RpcEndpoint -> Prop) now (rs : list RpcConfig) :
  Forall (fun rpc => P (mkRpcEndpoint (cfg_url rpc) (cfg_weight rpc) true now 0 0 0 0 0))
         rs ->
  Forall P (getAllEndpoints (create now rs)).
Proof.
  unfold create.
  assert (G : forall p, Forall P (getAllEndpoints p) ->
              Forall (fun rpc => P (mkRpcEndpoint (cfg_url rpc) (cfg_weight rpc)
                                                  true now 0 0 0 0 0)) rs ->
              Forall P (getAllEndpoints (fold_left (addEndpoint now) rs p))).
  { induction rs as [|r rs IH]; simpl; intros p Hp Hrs; [assumption|].
    inversion Hrs; subst. apply IH; [|assumption].
    apply all_set; assumption. }
  intros Hrs. apply G; [constructor|assumption].
Qed.

Lemma adding_keeps_nonempty now (rs : list RpcConfig) : forall p : Pool.t,
  p <> [] -> fold_left (addEndpoint now) rs p <> [].
Proof.
  induction rs as [|r rs IH]; simpl; intros p Hp; [assumption|].
  apply IH. unfold addEndpoint.
  destruct p as [|[k v] p]; simpl; [contradiction|].
  destruct (String.eqb (cfg_url r) k); discriminate.
Qed.

Lemma create_nonempty now (rs : list RpcConfig) : rs <> [] -> create now rs <> [].
Proof.
  unfold create. destruct rs as [|r rs]; [contradiction|]. intros _. simpl.
  apply adding_keeps_nonempty. discriminate.
Qed.

(** X27. For a configuration whose numeric fields are integers and
    whose every endpoint entry carries a weight, as [Config.t] has
    them: the pool built from it, once [validateConfig] has accepted
    it, is not empty, all its endpoints are healthy, so that the
    healthy snapshot is the whole pool, every weight is at least 1,
    and a new weighted balancer is in a state of that snapshot's
    cycle; and retries + 1, the number of attempts, is at least 1.
    (A retries that is NaN, or an entry without weight, passes the
    [<] tests of [validateConfig] too; such configurations are not
    values of [Config.t] and nothing is said of them.) *)
Theorem accepted_config_gives_a_usable_pool :
  forall (now : Z) (c : Config.t),
    validateConfig c = None ->
    getHealthyEndpoints (create now (rpcs c)) = getAllEndpoints (create now (rpcs c))
    /\ getHealthyEndpoints (create now (rpcs c)) <> []
    /\ Forall (fun e => 1 <= weight e) (getHealthyEndpoints (create now (rpcs c)))
    /\ Analysis.inCycle (getHealthyEndpoints (create now (rpcs c))) Balancer.wrrInitial
    /\ 1 <= Router.maxAttempts (loadBalancing c).
Proof.
  intros now c Hok. apply validateConfig_ok in Hok.
  destruct Hok as (_ & _ & Hretries & _ & Hne & Hall).
  assert (Hh : Forall (fun e => healthy e = true) (getAllEndpoints (create now (rpcs c)))).
  { apply create_all. apply Forall_forall. intros; reflexivity. }
  assert (Hsame : getHealthyEndpoints (create now (rpcs c))
                  = getAllEndpoints (create now (rpcs c))).
  { unfold getHealthyEndpoints.
    induction Hh as [|e l He _ IH]; simpl; [reflexivity|].
    rewrite He, IH. reflexivity. }
  assert (Hw : Forall (fun e => 1 <= weight e) (getAllEndpoints (create now (rpcs c)))).
  { apply create_all. eapply Forall_impl; [|exact Hall]. intros rpc [_ H]. exact H. }
  assert (Hnonempty : getAllEndpoints (create now (rpcs c)) <> []).
  { pose proof (create_nonempty now (rpcs c) Hne) as Hc.
    unfold getAllEndpoints. destruct (create now (rpcs c)); [contradiction|discriminate]. }
  rewrite Hsame. repeat split; auto.
  - simpl. destruct (getAllEndpoints (create now (rpcs c))); [contradiction|simpl; lia].
  - simpl. lia.
  - pose proof (WrrFairness.maxW_pos _ Hnonempty Hw). simpl. lia.
  - unfold Router.maxAttempts. lia.
Qed.

Lemma accepted_config_witness :
  getHealthyEndpoints
    (create 0 [mkRpcConfig "https://eth.llamarpc.com" 1;
               mkRpcConfig "https://rpc.ankr.com/eth" 2])
  <> [].
Proof.
  apply (accepted_config_gives_a_usable_pool 0
           (mkConfig (mkServerConfig 8545 "0.0.0.0") "round-robin"
              (mkLoadBalancingConfig 3 100 30000)
              (mkHealthCheckConfig true 30000 5000 3 2)
              [mkRpcConfig "https://eth.llamarpc.com" 1;
               mkRpcConfig "https://rpc.ankr.com/eth" 2])).
  reflexivity.
Defined.

End ConfigLaws.
